(** * sparql_anything_rdf: format registry, source loader, graph operations
      and query dispatcher

    A shallow embedding of the Python package [sparql_anything_rdf]
    ([format_handler.py], [rdf_parser.py], [rdf_to_rdf.py],
    [sparql_processor.py]) together with the properties its specification
    states about it.

    Conventions of the embedding.
    - The names that the package compares or looks up in its tables
      (format names, extensions, MIME types, paths, URIs, messages) are
      [string]s; the tables are ASCII, and the case and whitespace
      functions of [PyStr] are the ones Python applies on the ASCII range
      ([upper] maps a-z to A-Z and leaves every other character alone).
    - The query text, which the code upper-cases, trims and splits
      whatever its characters are, is a [Unicode.text]: the sequence of
      its code points, with the upper case and the white space of the
      characters outside ASCII read from a database that is a parameter
      of the definitions.
    - Paths follow [pathlib.PurePosixPath]: [/] separates components, and
      the suffix of a name starts at its last dot when that dot is neither
      the first nor the last character.
    - A Python dict literal used as a lookup table is an association list
      in the order of the source, read with [dict_get].
    - The wrapped library (rdflib), the HTTP client, the file system and
      the SPARQL preparer are not part of the package: they are section
      variables, and every theorem holds for all of them.
    - A call that may raise returns a [result]; [Raise e] is the raised
      exception, and [except Exception] catches every [Raise].
    - Graph objects live in a store indexed by locations, so that in-place
      mutation and aliasing are visible.  A graph is a finite set of
      triples; a loop over a graph visits each triple once, in the order
      of [elements], and nothing proved here depends on that order. *)

From Stdlib Require Import Ascii String.
From stdpp Require Import base decidable option list countable gmap strings fin_sets.

Local Open Scope nat_scope.

(** ** Python string primitives, on the ASCII range

    Used for the names that are looked up in the ASCII tables of the
    package.  Text whose characters are arbitrary is in [Unicode]. *)

Module PyStr.

Definition is_lower_char (c : ascii) : bool :=
  let n := nat_of_ascii c in (97 <=? n) && (n <=? 122).

Definition is_upper_char (c : ascii) : bool :=
  let n := nat_of_ascii c in (65 <=? n) && (n <=? 90).

Definition upper_char (c : ascii) : ascii :=
  if is_lower_char c then ascii_of_nat (nat_of_ascii c - 32) else c.

Definition lower_char (c : ascii) : ascii :=
  if is_upper_char c then ascii_of_nat (nat_of_ascii c + 32) else c.

(** [str.isspace] on the ASCII range: TAB, LF, VT, FF, CR, FS, GS, RS, US
    and the space. *)
Definition is_space (c : ascii) : bool :=
  let n := nat_of_ascii c in
  ((9 <=? n) && (n <=? 13)) || ((28 <=? n) && (n <=? 32)).

Fixpoint map_chars (f : ascii → ascii) (s : string) : string :=
  match s with
  | EmptyString => EmptyString
  | String c s' => String (f c) (map_chars f s')
  end.

(** [s.upper()] and [s.lower()]. *)
Definition upper (s : string) : string := map_chars upper_char s.
Definition lower (s : string) : string := map_chars lower_char s.

(** [s.startswith(p)]. *)
Fixpoint startswith (s p : string) {struct p} : bool :=
  match p, s with
  | EmptyString, _ => true
  | String _ _, EmptyString => false
  | String a p', String b s' => Ascii.eqb a b && startswith s' p'
  end.

(** [p in s] for strings: [p] occurs as a contiguous substring of [s]. *)
Fixpoint contains (p s : string) : bool :=
  startswith s p ||
  match s with
  | EmptyString => false
  | String _ s' => contains p s'
  end.

(** [s.lstrip(chars)], [s.rstrip(chars)] and [s.strip(chars)], for the
    set of characters that [drop] accepts. *)
Fixpoint lstrip_by (drop : ascii → bool) (s : string) : string :=
  match s with
  | EmptyString => EmptyString
  | String c s' => if drop c then lstrip_by drop s' else s
  end.

Fixpoint rstrip_by (drop : ascii → bool) (s : string) : string :=
  match s with
  | EmptyString => EmptyString
  | String c s' =>
      match rstrip_by drop s' with
      | EmptyString => if drop c then EmptyString else String c EmptyString
      | r => String c r
      end
  end.

Definition strip_by (drop : ascii → bool) (s : string) : string :=
  rstrip_by drop (lstrip_by drop s).

(** [s.strip()]: whitespace is dropped at both ends. *)
Definition strip (s : string) : string := strip_by is_space s.

(** [s.split(sep)] for a one-character separator: never empty. *)
Fixpoint split_char (sep : ascii) (s : string) : list string :=
  match s with
  | EmptyString => [EmptyString]
  | String c s' =>
      if Ascii.eqb c sep then EmptyString :: split_char sep s'
      else match split_char sep s' with
           | h :: t => String c h :: t
           | [] => [String c EmptyString]
           end
  end.

(** [s.split(sep)[0]]. *)
Definition split_first (sep : ascii) (s : string) : string :=
  match split_char sep s with
  | h :: _ => h
  | [] => EmptyString
  end.

(** [sep.join(l)]. *)
Fixpoint join (sep : string) (l : list string) : string :=
  match l with
  | [] => EmptyString
  | [x] => x
  | x :: rest => x +:+ sep +:+ join sep rest
  end.

End PyStr.

(** ** Python text with arbitrary characters

    The query text that [sparql_processor.py] reads is upper-cased,
    trimmed and split by the code, and [str.upper], [str.strip] and
    [str.split] follow the Unicode character database: [upper] maps one
    character to one or more characters, and white space is more than
    the ASCII blanks.  A text is therefore the sequence of its code
    points.  On the ASCII range the two functions are written out; for
    every other character they are read from a [Database], and every
    property below holds for all databases (under [well_behaved] where it
    says so). *)

Module Unicode.

Definition char : Type := N.
Definition text : Type := list char.

(** The text of a literal of the source, whose characters are ASCII. *)
Definition lit (s : string) : text := N_of_ascii <$> list_ascii_of_string s.

(** What the character database says of a character outside ASCII: its
    upper case, as [str.upper] writes it, and whether [str.isspace]
    holds of it. *)
Record Database : Type := mkDatabase {
  to_upper : char → text;
  isspace : char → bool
}.

Definition is_ascii (c : char) : bool := (c <? 128)%N.

Definition ascii_upper (c : char) : char :=
  if (97 <=? c)%N && (c <=? 122)%N then (c - 32)%N else c.

(** TAB, LF, VT, FF, CR, FS, GS, RS, US and the space. *)
Definition ascii_isspace (c : char) : bool :=
  ((9 <=? c)%N && (c <=? 13)%N) || ((28 <=? c)%N && (c <=? 32)%N).

Definition upper_char (db : Database) (c : char) : text :=
  if is_ascii c then [ascii_upper c] else to_upper db c.

Definition is_space (db : Database) (c : char) : bool :=
  if is_ascii c then ascii_isspace c else isspace db c.

(** [s.upper()]: character by character. *)
Definition upper (db : Database) (s : text) : text := s ≫= upper_char db.

(** Upper-casing neither makes nor removes white space: a white-space
    character is its own upper case, and the upper case of any other
    character is not empty and holds no white space.  Python's database
    has this property. *)
Definition well_behaved (db : Database) : Prop :=
  ∀ c, is_ascii c = false →
    (isspace db c = true → to_upper db c = [c])
    ∧ (isspace db c = false →
       to_upper db c ≠ [] ∧ Forall (λ d, is_space db d = false) (to_upper db c)).

(** [s.startswith(p)]. *)
Fixpoint startswith (s p : text) {struct p} : bool :=
  match p, s with
  | [], _ => true
  | _ :: _, [] => false
  | a :: p', b :: s' => (a =? b)%N && startswith s' p'
  end.

(** [p in s]: [p] occurs as a contiguous part of [s]. *)
Fixpoint contains (p s : text) : bool :=
  startswith s p ||
  match s with
  | [] => false
  | _ :: s' => contains p s'
  end.

(** [s.lstrip(chars)], [s.rstrip(chars)] and [s.strip(chars)], for the
    set of characters that [drop] accepts. *)
Fixpoint lstrip_by (drop : char → bool) (s : text) : text :=
  match s with
  | [] => []
  | c :: s' => if drop c then lstrip_by drop s' else s
  end.

Definition rstrip_by (drop : char → bool) (s : text) : text :=
  reverse (lstrip_by drop (reverse s)).

Definition strip_by (drop : char → bool) (s : text) : text :=
  rstrip_by drop (lstrip_by drop s).

(** [s.strip()]. *)
Definition strip (db : Database) (s : text) : text := strip_by (is_space db) s.

(** [s.split()]: the maximal runs of characters that are not white
    space. *)
Fixpoint split_ws (db : Database) (s : text) : list text :=
  match s with
  | [] => []
  | c :: s' =>
      if is_space db c then split_ws db s'
      else match s' with
           | [] => [[c]]
           | c' :: _ =>
               if is_space db c' then [c] :: split_ws db s'
               else match split_ws db s' with
                    | h :: t => (c :: h) :: t
                    | [] => [[c]]
                    end
           end
  end.

(** [s.split(sep, 1)]: the text before and after the first [sep], or
    [None] when [s] has no [sep]. *)
Fixpoint split_once (sep : char) (s : text) : option (text * text) :=
  match s with
  | [] => None
  | c :: s' =>
      if (c =? sep)%N then Some ([], s')
      else match split_once sep s' with
           | Some (a, b) => Some (c :: a, b)
           | None => None
           end
  end.

(** [s.split(sep)] for a one-character separator: never empty. *)
Fixpoint split_char (sep : char) (s : text) : list text :=
  match s with
  | [] => [[]]
  | c :: s' =>
      if (c =? sep)%N then [] :: split_char sep s'
      else match split_char sep s' with
           | h :: t => (c :: h) :: t
           | [] => [[c]]
           end
  end.

(** [sep.join(l)]. *)
Fixpoint join (sep : text) (l : list text) : text :=
  match l with
  | [] => []
  | [x] => x
  | x :: rest => x ++ sep ++ join sep rest
  end.

(** [d[k] = v] and [d.update(u)] on a dictionary keyed by texts, kept in
    insertion order. *)
Fixpoint text_dict_set {V : Type} (k : text) (v : V) (d : list (text * V))
  : list (text * V) :=
  match d with
  | [] => [(k, v)]
  | (k', v') :: d' =>
      if decide (k = k') then (k, v) :: d' else (k', v') :: text_dict_set k v d'
  end.

Definition text_dict_update {V : Type} (d u : list (text * V)) : list (text * V) :=
  fold_left (λ acc kv, text_dict_set kv.1 kv.2 acc) u d.

(** Some entries of Python's database: the long s, the sharp s and the
    t with diaeresis, and six of the white-space characters; every other
    character is its own upper case and no white space. *)
Definition python_sample : Database :=
  mkDatabase
    (λ c, if (c =? 383)%N then [83%N]
          else if (c =? 223)%N then [83%N; 83%N]
          else if (c =? 7831)%N then [84%N; 776%N]
          else [c])
    (λ c, (c =? 133)%N || (c =? 160)%N || (c =? 5760)%N
          || (c =? 8232)%N || (c =? 8233)%N || (c =? 12288)%N).

End Unicode.

(** ** Exceptions and results *)

Inductive exn : Type :=
  | RDFParsingError (msg : string)
  | RequestException (msg : string)
  | LibraryError (msg : string).

(** [str(e)]. *)
Definition exn_str (e : exn) : string :=
  match e with
  | RDFParsingError m | RequestException m | LibraryError m => m
  end.

Inductive result (A : Type) : Type :=
  | Ok (a : A)
  | Raise (e : exn).
Arguments Ok {A} a.
Arguments Raise {A} e.

(** [d.get(k)] on a table kept in source order. *)
Fixpoint dict_get {V : Type} (k : string) (d : list (string * V)) : option V :=
  match d with
  | [] => None
  | (k', v) :: d' => if String.eqb k k' then Some v else dict_get k d'
  end.

(** [d[k] = v]. *)
Fixpoint dict_set {V : Type} (k : string) (v : V) (d : list (string * V))
  : list (string * V) :=
  match d with
  | [] => [(k, v)]
  | (k', v') :: d' => if String.eqb k k' then (k, v) :: d' else (k', v') :: dict_set k v d'
  end.

(** [d.update(u)]. *)
Definition dict_update {V : Type} (d u : list (string * V)) : list (string * V) :=
  fold_left (λ acc kv, dict_set kv.1 kv.2 acc) u d.

(** ** format_handler.py *)

Module FormatHandler.

Inductive RDFFormat : Type :=
  | RDF_XML | TURTLE | N_TRIPLES | JSON_LD | TRIG
  | N_QUADS | TRIX | RDF_THRIFT | OWL_XML | DEFAULT.

#[global] Instance RDFFormat_eq_dec : EqDecision RDFFormat.
Proof. solve_decision. Defined.

(** The enumeration in declaration order, with each member's value. *)
Definition RDFFormat_values : list (string * RDFFormat) :=
  [ ("rdf_xml", RDF_XML); ("turtle", TURTLE); ("n_triples", N_TRIPLES);
    ("json_ld", JSON_LD); ("trig", TRIG); ("n_quads", N_QUADS);
    ("trix", TRIX); ("rdf_thrift", RDF_THRIFT); ("owl_xml", OWL_XML);
    ("default", DEFAULT) ]%string.

(** [RDFFormat(value)]: [None] stands for the [ValueError] of an unknown
    value. *)
Definition RDFFormat_of_value (v : string) : option RDFFormat :=
  dict_get v RDFFormat_values.

Definition MIME_TYPE_MAPPING : list (string * RDFFormat) :=
  [ ("application/rdf+xml", RDF_XML);
    ("application/xml", RDF_XML);
    ("text/xml", RDF_XML);
    ("text/turtle", TURTLE);
    ("application/turtle", TURTLE);
    ("application/x-turtle", TURTLE);
    ("application/n-triples", N_TRIPLES);
    ("text/plain", N_TRIPLES);
    ("application/ld+json", JSON_LD);
    ("application/json", JSON_LD);
    ("text/trig", TRIG);
    ("application/trig", TRIG);
    ("application/n-quads", N_QUADS);
    ("text/n-quads", N_QUADS);
    ("application/trix+xml", TRIX);
    ("application/rdf+thrift", RDF_THRIFT);
    ("application/owl+xml", OWL_XML) ]%string.

Definition EXTENSION_MAPPING : list (string * RDFFormat) :=
  [ (".rdf", RDF_XML);
    (".xml", RDF_XML);
    (".ttl", TURTLE);
    (".nt", N_TRIPLES);
    (".jsonld", JSON_LD);
    (".trig", TRIG);
    (".nq", N_QUADS);
    (".trix", TRIX);
    (".trdf", RDF_THRIFT);
    (".owl", OWL_XML) ]%string.

(** [RDFLIB_FORMAT_MAPPING.get(rdf_format, 'xml')]: RDF_THRIFT and DEFAULT
    have no entry in the table. *)
Definition get_rdflib_format (f : RDFFormat) : string :=
  match f with
  | RDF_XML => "xml"
  | TURTLE => "turtle"
  | N_TRIPLES => "nt"
  | JSON_LD => "json-ld"
  | TRIG => "trig"
  | N_QUADS => "nquads"
  | TRIX => "trix"
  | OWL_XML => "xml"
  | RDF_THRIFT | DEFAULT => "xml"
  end%string.

(** *** [pathlib.PurePosixPath]: the final component and its suffix *)

(** The components of a path: the pieces between slashes, without the
    empty ones and the single dots. *)
Definition path_parts (source : string) : list string :=
  filter (λ p, p ≠ EmptyString ∧ p ≠ "."%string) (PyStr.split_char "/" source).

(** [Path(source).name]. *)
Definition path_name (source : string) : string :=
  List.last (path_parts source) EmptyString.

(** [name[name.rfind('.'):]] when [name] holds a dot. *)
Fixpoint from_last_dot (name : string) : option string :=
  match name with
  | EmptyString => None
  | String c rest =>
      match from_last_dot rest with
      | Some r => Some r
      | None => if Ascii.eqb c "." then Some name else None
      end
  end.

(** [PurePath.suffix]: with [i = name.rfind('.')], the text [name[i:]]
    when [0 < i < len(name) - 1] and the empty string otherwise. *)
Definition name_suffix (name : string) : string :=
  match name with
  | EmptyString => EmptyString
  | String _ rest =>
      match from_last_dot rest with
      | Some r => if String.length r =? 1 then EmptyString else r
      | None => EmptyString
      end
  end.

(** [Path(source).suffix]. *)
Definition path_suffix (source : string) : string :=
  name_suffix (path_name source).

(** The content type after the [';' in content_type] branch. *)
Definition strip_parameters (content_type : string) : string :=
  if PyStr.contains ";" content_type
  then PyStr.strip (PyStr.split_first ";" content_type)
  else content_type.

(** The lookup of the extension of [source]. *)
Definition detect_by_extension (source : string) : RDFFormat :=
  let extension := PyStr.lower (path_suffix source) in
  match dict_get extension EXTENSION_MAPPING with
  | Some f => f
  | None => RDF_XML
  end.

(** [FormatHandler.detect_format(source, content_type=None)].  A
    [content_type] that is [None] or the empty string is falsy. *)
Definition detect_format (source : string) (content_type : option string)
  : RDFFormat :=
  match content_type with
  | Some ct =>
      if decide (ct = EmptyString) then detect_by_extension source
      else
        match dict_get (strip_parameters ct) MIME_TYPE_MAPPING with
        | Some f => f
        | None => detect_by_extension source
        end
  | None => detect_by_extension source
  end.

End FormatHandler.

(** ** The wrapped library: terms, triples and graph objects *)

Module Rdflib.

(** The three kinds of identifier; none is a subclass of another, and two
    identifiers are equal when they have the same class and content. *)
Inductive Node : Type :=
  | URIRef (uri : string)
  | BNode (id : string)
  | Literal (lexical : string) (datatype : option string) (language : option string).

#[global] Instance Node_eq_dec : EqDecision Node.
Proof. solve_decision. Defined.

#[global] Instance Node_countable : Countable Node.
Proof.
  refine (inj_countable'
    (λ n, match n with
          | URIRef u => inl u
          | BNode b => inr (inl b)
          | Literal l d g => inr (inr (l, d, g))
          end)
    (λ x, match x with
          | inl u => URIRef u
          | inr (inl b) => BNode b
          | inr (inr (l, d, g)) => Literal l d g
          end) _).
  by intros [].
Defined.

(** [str(node)]. *)
Definition node_str (n : Node) : string :=
  match n with
  | URIRef u => u
  | BNode b => b
  | Literal l _ _ => l
  end.

Definition is_URIRef (n : Node) : bool :=
  match n with URIRef _ => true | _ => false end.
Definition is_BNode (n : Node) : bool :=
  match n with BNode _ => true | _ => false end.
Definition is_Literal (n : Node) : bool :=
  match n with Literal _ _ _ => true | _ => false end.

Definition Triple : Type := Node * Node * Node.

Definition subject_of (t : Triple) : Node := t.1.1.
Definition predicate_of (t : Triple) : Node := t.1.2.
Definition object_of (t : Triple) : Node := t.2.

(** A graph object: its set of triples and the [bind] calls it received,
    newest first (the namespace manager itself belongs to the library). *)
Record GraphObj : Type := mkGraph {
  g_triples : gset Triple;
  g_bindings : list (string * string)
}.

Definition empty_graph : GraphObj := mkGraph ∅ [].

Definition loc : Type := positive.

(** What [graph.parse] reads: a location (file path) or a text with an
    optional [publicID]. *)
Inductive ParseInput : Type :=
  | FromLocation (path : string)
  | FromData (data : string) (publicID : option string).

(** What one [graph.parse] call does: it adds triples and returns, or it
    raises, possibly after having added some triples. *)
Inductive ParseOutcome : Type :=
  | Parsed (ts : gset Triple)
  | ParseFailed (e : exn) (partial : gset Triple).

(** The state a call runs in: the graph objects, and the [graph.parse]
    calls issued so far (newest first). *)
Record World : Type := mkWorld {
  graphs : gmap loc GraphObj;
  parse_calls : list (ParseInput * string)
}.

Definition triples_at (w : World) (g : loc) : gset Triple :=
  match graphs w !! g with
  | Some o => g_triples o
  | None => ∅
  end.

(** [w'] differs from [w] at most in the graph object [g]: the same
    objects exist, all others are as they were, and no parser ran. *)
Definition same_except (g : loc) (w w' : World) : Prop :=
  parse_calls w' = parse_calls w
  ∧ dom (graphs w') = dom (graphs w)
  ∧ ∀ l, l ≠ g → graphs w' !! l = graphs w !! l.

(** The number of triples of [T] whose node at [position] is of [kind]. *)
Definition occurrences (kind : Node → bool) (position : Triple → Node)
    (T : gset Triple) : nat :=
  size (filter (λ t, kind (position t)) T).

(** Computations over the world that may raise. *)
Definition M (A : Type) : Type := World → result A * World.

Definition ret {A} (a : A) : M A := λ w, (Ok a, w).

Definition raise {A} (e : exn) : M A := λ w, (Raise e, w).

Definition bind {A B} (m : M A) (k : A → M B) : M B :=
  λ w, match m w with
       | (Ok a, w') => k a w'
       | (Raise e, w') => (Raise e, w')
       end.

(** [try: m  except Exception as e: h e]. *)
Definition try_except {A} (m : M A) (h : exn → M A) : M A :=
  λ w, match m w with
       | (Ok a, w') => (Ok a, w')
       | (Raise e, w') => h e w'
       end.

Notation "'let*' x ':=' m 'in' k" := (bind m (λ x, k))
  (at level 10, x pattern, m at level 100, k at level 200).
Notation "m ';;' k" := (bind m (λ _, k))
  (at level 100, k at level 200, right associativity).

(** [for x in l: body x]. *)
Fixpoint for_each {A} (l : list A) (body : A → M unit) : M unit :=
  match l with
  | [] => ret tt
  | x :: rest => body x ;; for_each rest body
  end.

(** [Graph()]: a new, empty graph object. *)
Definition new_graph : M loc :=
  λ w, let l := fresh (dom (graphs w)) in
       (Ok l, mkWorld (<[l := empty_graph]> (graphs w)) (parse_calls w)).

(** [graph.add(t)]. *)
Definition graph_add (g : loc) (t : Triple) : M unit :=
  λ w, (Ok tt,
        mkWorld (alter (λ o, mkGraph ({[t]} ∪ g_triples o) (g_bindings o)) g (graphs w))
                (parse_calls w)).

(** [graph.bind(prefix, namespace)]. *)
Definition graph_bind (g : loc) (prefix uri : string) : M unit :=
  λ w, (Ok tt,
        mkWorld (alter (λ o, mkGraph (g_triples o) ((prefix, uri) :: g_bindings o)) g (graphs w))
                (parse_calls w)).

(** [list(graph)]: the triples of the graph, each once. *)
Definition graph_iter (g : loc) : M (list Triple) :=
  λ w, (Ok (elements (triples_at w g)), w).

(** [len(graph)]. *)
Definition graph_len (g : loc) : M nat :=
  λ w, (Ok (size (triples_at w g)), w).

(** [dict(graph.namespaces())]. *)
Definition graph_namespaces (g : loc) : M (list (string * string)) :=
  λ w, (Ok (match graphs w !! g with Some o => g_bindings o | None => [] end), w).

Section Parse.
(** The library's parsers. *)
Variable rdflib_parse : ParseInput → string → ParseOutcome.

(** [graph.parse(input, format=fmt)]. *)
Definition graph_parse (g : loc) (input : ParseInput) (fmt : string) : M unit :=
  λ w,
    let add ts :=
      mkWorld (alter (λ o, mkGraph (g_triples o ∪ ts) (g_bindings o)) g (graphs w))
              ((input, fmt) :: parse_calls w) in
    match rdflib_parse input fmt with
    | Parsed ts => (Ok tt, add ts)
    | ParseFailed e partial => (Raise e, add partial)
    end.
End Parse.

(** Vocabulary constants used by the package. *)
Definition RDF_ns : string := "http://www.w3.org/1999/02/22-rdf-syntax-ns#".
Definition RDFS_ns : string := "http://www.w3.org/2000/01/rdf-schema#".
Definition XSD_ns : string := "http://www.w3.org/2001/XMLSchema#".
Definition OWL_ns : string := "http://www.w3.org/2002/07/owl#".

Definition RDF_type : Node := URIRef (RDF_ns +:+ "type").
Definition RDF_Property : Node := URIRef (RDF_ns +:+ "Property").
Definition RDFS_Class : Node := URIRef (RDFS_ns +:+ "Class").
Definition RDFS_subClassOf : Node := URIRef (RDFS_ns +:+ "subClassOf").
Definition RDFS_domain : Node := URIRef (RDFS_ns +:+ "domain").
Definition RDFS_range : Node := URIRef (RDFS_ns +:+ "range").
Definition RDFS_subPropertyOf : Node := URIRef (RDFS_ns +:+ "subPropertyOf").
Definition OWL_Class : Node := URIRef (OWL_ns +:+ "Class").
Definition OWL_equivalentClass : Node := URIRef (OWL_ns +:+ "equivalentClass").
Definition OWL_ObjectProperty : Node := URIRef (OWL_ns +:+ "ObjectProperty").
Definition OWL_DatatypeProperty : Node := URIRef (OWL_ns +:+ "DatatypeProperty").
Definition OWL_AnnotationProperty : Node := URIRef (OWL_ns +:+ "AnnotationProperty").

End Rdflib.

(** The configuration dictionary handed to every component; a missing key
    is [None]. *)
Record Config : Type := mkConfig {
  cfg_headers : option (list (string * string));
  cfg_namespaces : option (list (string * string));
  cfg_prefixes : option (list (Unicode.text * Unicode.text))
}.

(** [config or {}] for a component built without a configuration. *)
Definition empty_config : Config := mkConfig None None None.

(** ** rdf_to_rdf.py *)

Module RDFToRDF.
Import Rdflib.

(** [self.namespaces], in insertion order. *)
Definition namespaces : list (string * string) :=
  [ ("rdf", RDF_ns); ("rdfs", RDFS_ns); ("xsd", XSD_ns); ("owl", OWL_ns) ]%string.

(** [RDFToRDF._add_common_namespaces]. *)
Definition _add_common_namespaces (config : Config) (graph : loc) : M unit :=
  for_each namespaces (λ '(prefix, ns), graph_bind graph prefix ns) ;;
  match cfg_namespaces config with
  | Some d => for_each d (λ '(prefix, uri), graph_bind graph prefix uri)
  | None => ret tt
  end.

(** The inner loop of [merge_graphs]: every triple of the list is added
    to the target and counted. *)
Fixpoint add_all (target_graph : loc) (ts : list Triple) (total_triples : nat)
  : M nat :=
  match ts with
  | [] => ret total_triples
  | triple :: rest =>
      graph_add target_graph triple ;;
      add_all target_graph rest (total_triples + 1)
  end.

(** The outer loop of [merge_graphs].  The triples of a graph are read
    when its turn comes; when the graph is the target itself, adding its
    own triples to it changes nothing. *)
Fixpoint merge_into (target_graph : loc) (graphs : list loc) (total_triples : nat)
  : M nat :=
  match graphs with
  | [] => ret total_triples
  | graph :: rest =>
      let* ts := graph_iter graph in
      let* total_triples := add_all target_graph ts total_triples in
      merge_into target_graph rest total_triples
  end.

(** [RDFToRDF.merge_graphs]; the second component of the result is the
    local counter [total_triples] that the function logs. *)
Definition merge_graphs (config : Config) (graphs : list loc)
    (target_graph : option loc) : M (loc * nat) :=
  let* target_graph :=
    match target_graph with
    | None => new_graph
    | Some t => ret t
    end in
  _add_common_namespaces config target_graph ;;
  let* total_triples := merge_into target_graph graphs 0 in
  ret (target_graph, total_triples).

(** A filter argument constrains only when it is truthy: neither [None]
    nor the empty list. *)
Definition filter_rejects (allow : option (list string)) (n : Node) : bool :=
  match allow with
  | Some (x :: l) => negb (bool_decide (node_str n ∈ x :: l))
  | Some [] | None => false
  end.

(** The value of [include] at the end of one iteration of the loop of
    [filter_graph]. *)
Definition filter_include (predicate_filter subject_filter object_filter
    : option (list string)) (t : Triple) : bool :=
  let '(subject, predicate, obj) := t in
  let include := true in
  let include := if filter_rejects predicate_filter predicate then false else include in
  let include := if filter_rejects subject_filter subject then false else include in
  let include := if filter_rejects object_filter obj then false else include in
  include.

(** [RDFToRDF.filter_graph]. *)
Definition filter_graph (config : Config) (graph : loc)
    (predicate_filter subject_filter object_filter : option (list string)) : M loc :=
  let* filtered_graph := new_graph in
  _add_common_namespaces config filtered_graph ;;
  let* ts := graph_iter graph in
  for_each ts (λ t,
    if filter_include predicate_filter subject_filter object_filter t
    then graph_add filtered_graph t
    else ret tt) ;;
  ret filtered_graph.

(** What an allow-list demands of a node in [filter_graph]: nothing when
    it is absent or empty, membership of the node's string otherwise. *)
Definition allowed (allow : option (list string)) (n : Node) : Prop :=
  match allow with
  | None | Some [] => True
  | Some l => node_str n ∈ l
  end.

(** The reading under which every supplied allow-list, the empty one
    included, demands membership. *)
Definition allowed_if_supplied (allow : option (list string)) (n : Node) : Prop :=
  match allow with
  | None => True
  | Some l => node_str n ∈ l
  end.

(** The dictionary returned by [validate_graph]. *)
Record Stats : Type := mkStats {
  total_triples : nat;
  stat_namespaces : list (string * string);
  blank_nodes : nat;
  literals : nat;
  uris : nat;
  errors : list string;
  unique_subjects : nat;
  unique_predicates : nat;
  unique_objects : nat
}.

(** The entries of [stats] that the loop of [validate_graph] updates. *)
Record Tally : Type := mkTally {
  t_subjects : gset Node;
  t_predicates : gset Node;
  t_objects : gset Node;
  t_blank_nodes : nat;
  t_literals : nat;
  t_uris : nat
}.

Definition tally0 : Tally := mkTally ∅ ∅ ∅ 0 0 0.

(** One iteration of the loop of [validate_graph]. *)
Definition tally_step (a : Tally) (t : Triple) : Tally :=
  let '(subject, predicate, obj) := t in
  let a := mkTally ({[subject]} ∪ t_subjects a) ({[predicate]} ∪ t_predicates a)
                   ({[obj]} ∪ t_objects a)
                   (t_blank_nodes a) (t_literals a) (t_uris a) in
  let a :=
    if is_BNode subject then
      mkTally (t_subjects a) (t_predicates a) (t_objects a)
              (t_blank_nodes a + 1) (t_literals a) (t_uris a)
    else if is_URIRef subject then
      mkTally (t_subjects a) (t_predicates a) (t_objects a)
              (t_blank_nodes a) (t_literals a) (t_uris a + 1)
    else a in
  if is_Literal obj then
    mkTally (t_subjects a) (t_predicates a) (t_objects a)
            (t_blank_nodes a) (t_literals a + 1) (t_uris a)
  else if is_URIRef obj then
    mkTally (t_subjects a) (t_predicates a) (t_objects a)
            (t_blank_nodes a) (t_literals a) (t_uris a + 1)
  else if is_BNode obj then
    mkTally (t_subjects a) (t_predicates a) (t_objects a)
            (t_blank_nodes a + 1) (t_literals a) (t_uris a)
  else a.

(** [RDFToRDF.validate_graph].  Iterating an in-memory graph does not
    raise, so the [except] branch that would append to [errors] is never
    entered. *)
Definition validate_graph (graph : loc) : M Stats :=
  let* n := graph_len graph in
  let* ns := graph_namespaces graph in
  let* ts := graph_iter graph in
  let a := fold_left tally_step ts tally0 in
  ret (mkStats n ns (t_blank_nodes a) (t_literals a) (t_uris a) []
               (size (t_subjects a)) (size (t_predicates a)) (size (t_objects a))).

(** The test of the [if]/[elif] chain of [extract_schema]. *)
Definition is_schema_triple (t : Triple) : bool :=
  let '(subject, predicate, obj) := t in
  if bool_decide (predicate = RDF_type) && bool_decide (obj ∈ [RDFS_Class; OWL_Class]) then true
  else if bool_decide (predicate ∈ [RDFS_subClassOf; OWL_equivalentClass]) then true
  else if bool_decide (predicate = RDF_type)
          && bool_decide (obj ∈ [RDF_Property; OWL_ObjectProperty;
                                 OWL_DatatypeProperty; OWL_AnnotationProperty]) then true
  else if bool_decide (predicate ∈ [RDFS_domain; RDFS_range; RDFS_subPropertyOf]) then true
  else false.

(** [RDFToRDF.extract_schema]. *)
Definition extract_schema (config : Config) (graph : loc) : M loc :=
  let* schema_graph := new_graph in
  _add_common_namespaces config schema_graph ;;
  let* ts := graph_iter graph in
  for_each ts (λ t,
    if is_schema_triple t then graph_add schema_graph t else ret tt) ;;
  ret schema_graph.

(** A one-triple graph used in the examples: Alice's name. *)
Definition alice_name : Triple :=
  (URIRef "http://example.org/alice", URIRef "http://xmlns.com/foaf/0.1/name",
   Literal "Alice" None None).

(** A second triple, and a world with three graph objects: [1] holds
    [alice_name], [2] holds [alice_knows], [3] holds both. *)
Definition alice_knows : Triple :=
  (URIRef "http://example.org/alice", URIRef "http://xmlns.com/foaf/0.1/knows",
   BNode "b0").

Definition sample_world : World :=
  mkWorld (<[ 1%positive := mkGraph {[ alice_name ]} [] ]>
           (<[ 2%positive := mkGraph {[ alice_knows ]} [] ]>
            {[ 3%positive := mkGraph ({[ alice_name ]} ∪ {[ alice_knows ]}) [] ]}))
          [].

End RDFToRDF.

(** ** rdf_parser.py *)

Module RDFParser.
Import Rdflib FormatHandler.

(** What [parse] accepts: a string (or path) or a file-like object.  A
    stream is given by its [str()] and by what [read()] followed by the
    UTF-8 decoding yields. *)
Inductive Source : Type :=
  | SrcPath (s : string)
  | SrcStream (repr : string) (read : result string).

(** [str(source)]. *)
Definition source_str (s : Source) : string :=
  match s with
  | SrcPath p => p
  | SrcStream r _ => r
  end.

(** The part of an HTTP response the loader reads: the message of the
    error [raise_for_status] raises (if any), the body and the
    [content-type] header. *)
Record Response : Type := mkResponse {
  status_error : option string;
  text : string;
  content_type_header : option string
}.

(** A dataset: graph identifier and graph object, newest first. *)
Definition Dataset : Type := list (string * loc).

(** [FormatHandler.get_content_negotiation_headers]. *)
Definition get_content_negotiation_headers : list (string * string) :=
  [ ("Accept",
     "application/rdf+xml, text/turtle, application/ld+json, application/n-triples, text/trig, application/n-quads, */*;q=0.1");
    ("User-Agent", "SPARQL-Anything-RDF/1.0.0") ]%string.

(** [l.remove(x)]: drops the first occurrence. *)
Fixpoint list_remove_first (x : RDFFormat) (l : list RDFFormat) : list RDFFormat :=
  match l with
  | [] => []
  | y :: l' => if decide (x = y) then l' else y :: list_remove_first x l'
  end.

(** The [str] of [pathlib.PurePosixPath(p)]. *)
Definition path_root (p : string) : string :=
  if PyStr.startswith p "//" && negb (PyStr.startswith p "///") then "//"
  else if PyStr.startswith p "/" then "/"
  else "".

Definition path_str (p : string) : string :=
  match path_root p +:+ PyStr.join "/" (path_parts p) with
  | EmptyString => "."
  | s => s
  end.

(** The format an optional hint selects: [RDFFormat(format_hint.lower())],
    and [fallback] when the hint is falsy or names no format. *)
Definition format_of_hint (format_hint : option string) (fallback : RDFFormat)
  : RDFFormat :=
  match format_hint with
  | Some h =>
      if decide (h = EmptyString) then fallback
      else match RDFFormat_of_value (PyStr.lower h) with
           | Some f => f
           | None => fallback
           end
  | None => fallback
  end.

(** The list [alternatives] after the removal of the failed format. *)
Definition alternatives_for (failed_format : RDFFormat) : list RDFFormat :=
  let alternatives := [TURTLE; RDF_XML; N_TRIPLES; JSON_LD] in
  if bool_decide (failed_format ∈ alternatives)
  then list_remove_first failed_format alternatives
  else alternatives.

(** The [graph.parse] calls that attempts on [input] with the formats
    [fs] issue, oldest first. *)
Definition calls_of (input : ParseInput) (fs : list RDFFormat)
  : list (ParseInput * string) :=
  map (λ f, (input, get_rdflib_format f)) fs.

(** The message of the error raised when every candidate failed. *)
Definition exhausted_message (source : string) : string :=
  "Failed to parse " +:+ source +:+ " with any supported format".

(** The number of candidates left for a retry: three when the failed
    format is one of the four candidates, four otherwise. *)
Definition retry_bound (failed_format : RDFFormat) : nat :=
  if bool_decide (failed_format ∈ [TURTLE; RDF_XML; N_TRIPLES; JSON_LD]) then 3 else 4.

Section Loader.
Variable config : Config.
(** The library's parsers, [urlparse(s).scheme] ([None] when it raises),
    [Path.exists], [requests.get] and [Dataset.add_graph]. *)
Variable rdflib_parse : ParseInput → string → ParseOutcome.
Variable urlparse_scheme : string → option string.
Variable path_exists : string → bool.
Variable requests_get : string → list (string * string) → result Response.
Variable dataset_add_graph : Dataset → loc → string → result Dataset.

(** [RDFParser._is_url]. *)
Definition _is_url (source : string) : bool :=
  match urlparse_scheme source with
  | Some scheme => bool_decide (scheme ∈ ["http"; "https"; "ftp"]%string)
  | None => false
  end.

(** The parse of [input] in the format [f] raises. *)
Definition fails (input : ParseInput) (f : RDFFormat) : Prop :=
  ∃ e partial, rdflib_parse input (get_rdflib_format f) = ParseFailed e partial.

(** What a retry on [input], started in the world [w] after the format
    [failed_format] failed, has done when it ends in [r]: the candidates
    are tried in the order of the list; the first one that parses gives
    a graph object that did not exist before and holds exactly the
    triples of that parse, and no later candidate is tried; when all
    fail, the error names the source; the number of attempts is at most
    [bound]. *)
Definition retried (input : ParseInput) (source_name : string)
    (failed_format : RDFFormat) (bound : nat) (w : World)
    (r : result loc * World) : Prop :=
  let alternatives := alternatives_for failed_format in
  (∀ before f after ts,
      alternatives = before ++ f :: after →
      Forall (fails input) before →
      rdflib_parse input (get_rdflib_format f) = Parsed ts →
      ∃ g, r.1 = Ok g
           ∧ (g ∉ dom (graphs w))
           ∧ triples_at r.2 g = ts
           ∧ parse_calls r.2 = rev (calls_of input (before ++ [f])) ++ parse_calls w
           ∧ ∀ l, l ∈ dom (graphs w) → graphs r.2 !! l = graphs w !! l)
  ∧ (Forall (fails input) alternatives →
       r.1 = Raise (RDFParsingError (exhausted_message source_name))
       ∧ parse_calls r.2 = rev (calls_of input alternatives) ++ parse_calls w)
  ∧ length (parse_calls r.2) ≤ length (parse_calls w) + bound.

(** The [try] body of one round of the retry loop: a new graph, and
    [input] parsed into it in the candidate format. *)
Definition attempt (input : ParseInput) (alt_format : RDFFormat) : M loc :=
  let rdflib_format := get_rdflib_format alt_format in
  let* graph := new_graph in
  graph_parse rdflib_parse graph input rdflib_format ;;
  ret graph.

(** The [for alt_format in alternatives] loop shared by the two retry
    functions: a round that raises goes on to the next candidate, and
    the statement after the loop runs when none is left. *)
Fixpoint try_each (input : ParseInput) (alternatives : list RDFFormat)
    (exhausted : M loc) : M loc :=
  match alternatives with
  | [] => exhausted
  | alt_format :: rest =>
      try_except (attempt input alt_format)
                 (λ _, try_each input rest exhausted)
  end.

(** [RDFParser._try_alternative_formats]. *)
Definition _try_alternative_formats (graph : loc) (source : string)
    (failed_format : RDFFormat) : M loc :=
  try_each (FromLocation source) (alternatives_for failed_format)
    (raise (RDFParsingError (exhausted_message source))).

(** [RDFParser._try_alternative_formats_from_data]. *)
Definition _try_alternative_formats_from_data (graph : loc) (data source_name : string)
    (failed_format : RDFFormat) : M loc :=
  try_each (FromData data None) (alternatives_for failed_format)
    (raise (RDFParsingError (exhausted_message source_name))).

(** [RDFParser._parse_from_file]. *)
Definition _parse_from_file (graph : loc) (file_path : string)
    (format_hint : option string) : M loc :=
  let path := path_str file_path in
  if negb (path_exists path) then
    raise (RDFParsingError ("File not found: " +:+ file_path))
  else
    let rdf_format := format_of_hint format_hint (detect_format file_path None) in
    let rdflib_format := get_rdflib_format rdf_format in
    try_except
      (graph_parse rdflib_parse graph (FromLocation path) rdflib_format ;;
       ret graph)
      (λ _, _try_alternative_formats graph path rdf_format).

(** The local [headers] of [_parse_from_url]: the content-negotiation
    headers, updated with the configured ones. *)
Definition request_headers : list (string * string) :=
  match cfg_headers config with
  | Some h => dict_update get_content_negotiation_headers h
  | None => get_content_negotiation_headers
  end.

(** [content_type or response.headers.get('content-type')]. *)
Definition actual_content_type (content_type : option string) (response : Response)
  : option string :=
  match content_type with
  | Some ct => if decide (ct = EmptyString) then content_type_header response
               else Some ct
  | None => content_type_header response
  end.

(** The error of the [except requests.RequestException] handler. *)
Definition fetch_failed (url m : string) : M loc :=
  raise (RDFParsingError ("Failed to fetch RDF data from " +:+ url +:+ ": " +:+ m)).

(** [RDFParser._parse_from_url].  When [requests.get] raises something
    that is not a [RequestException], the second handler reads the local
    [response], which was never assigned. *)
Definition _parse_from_url (graph : loc) (url : string)
    (format_hint content_type : option string) : M loc :=
  let headers := request_headers in
  match requests_get url headers with
  | Raise (RequestException m) => fetch_failed url m
  | Raise _ =>
      raise (LibraryError
               "cannot access local variable 'response' where it is not associated with a value")
  | Ok response =>
      match status_error response with
      | Some m => fetch_failed url m
      | None =>
          let rdf_format :=
            format_of_hint format_hint
              (detect_format url (actual_content_type content_type response)) in
          let rdflib_format := get_rdflib_format rdf_format in
          try_except
            (graph_parse rdflib_parse graph (FromData (text response) (Some url))
               rdflib_format ;;
             ret graph)
            (λ e, match e with
                  | RequestException m => fetch_failed url m
                  | _ => _try_alternative_formats_from_data graph (text response) url
                           rdf_format
                  end)
      end
  end.

(** [RDFParser._parse_from_stream]. *)
Definition _parse_from_stream (graph : loc) (read : result string)
    (format_hint : option string) : M loc :=
  match read with
  | Raise e => raise e
  | Ok content =>
      let rdf_format := format_of_hint format_hint TURTLE in
      let rdflib_format := get_rdflib_format rdf_format in
      try_except
        (graph_parse rdflib_parse graph (FromData content None) rdflib_format ;;
         ret graph)
        (λ _, _try_alternative_formats_from_data graph content "stream" rdf_format)
  end.

(** [RDFParser.parse]. *)
Definition parse (source : Source) (format_hint content_type : option string)
    : M loc :=
  try_except
    (let* graph := new_graph in
     match source with
     | SrcPath source_str =>
         if _is_url source_str
         then _parse_from_url graph source_str format_hint content_type
         else _parse_from_file graph source_str format_hint
     | SrcStream _ read => _parse_from_stream graph read format_hint
     end)
    (λ e, raise (RDFParsingError ("RDF parsing failed: " +:+ exn_str e))).

(** One round of the loop of [parse_to_dataset]: the [try] body parses
    the source and registers the graph; the handler keeps the dataset as
    it was. *)
Definition add_source (format_hints : list (string * string)) (dataset : Dataset)
    (source : Source) : M Dataset :=
  try_except
    (let format_hint := dict_get (source_str source) format_hints in
     let* graph := parse source format_hint None in
     match dataset_add_graph dataset graph (source_str source) with
     | Ok d => ret d
     | Raise e => raise e
     end)
    (λ _, ret dataset).

(** The round of [source] is skipped when it starts in [w] with
    [dataset]: its parse raises, or its registration does. *)
Definition source_fails (format_hints : list (string * string)) (dataset : Dataset)
    (source : Source) (w : World) : Prop :=
  match parse source (dict_get (source_str source) format_hints) None w with
  | (Raise _, _) => True
  | (Ok g, _) => ∃ e, dataset_add_graph dataset g (source_str source) = Raise e
  end.

Fixpoint add_sources (format_hints : list (string * string)) (dataset : Dataset)
    (sources : list Source) : M Dataset :=
  match sources with
  | [] => ret dataset
  | source :: rest =>
      let* dataset := add_source format_hints dataset source in
      add_sources format_hints dataset rest
  end.

(** [RDFParser.parse_to_dataset]. *)
Definition parse_to_dataset (sources : list Source)
    (format_hints : option (list (string * string))) : M Dataset :=
  let format_hints := match format_hints with Some d => d | None => [] end in
  let dataset : Dataset := [] in
  add_sources format_hints dataset sources.

End Loader.

(** Environments used in the examples. *)

(** A world with one empty graph object, at location [1]. *)
Definition fresh_world : World := mkWorld {[ 1%positive := empty_graph ]} [].

(** A parser that rejects everything. *)
Definition never_parses : ParseInput → string → ParseOutcome :=
  λ _ _, ParseFailed (LibraryError "syntax error") ∅.

(** A parser that accepts Turtle only, and reads [alice_name]. *)
Definition only_turtle : ParseInput → string → ParseOutcome :=
  λ _ fmt, if String.eqb fmt "turtle" then Parsed {[ RDFToRDF.alice_name ]}
           else ParseFailed (LibraryError "syntax error") ∅.

(** No string is a URL, every file exists, the network is down, and a
    dataset registers a graph by adding the pair. *)
Definition no_scheme : string → option string := λ _, Some EmptyString.
Definition every_file : string → bool := λ _, true.
Definition no_file : string → bool := λ _, false.
Definition network_down : string → list (string * string) → result Response :=
  λ _ _, Raise (RequestException "connection refused").
Definition register : Dataset → loc → string → result Dataset :=
  λ d g name, Ok ((name, g) :: d).

End RDFParser.

(** ** sparql_processor.py *)

Module SPARQLProcessor.
Import Unicode.

(** The line feed. *)
Definition nl : text := [10%N].

(** [self.default_prefixes], in insertion order. *)
Definition default_prefixes : list (text * text) :=
  [ (lit "rdf", lit "http://www.w3.org/1999/02/22-rdf-syntax-ns#");
    (lit "rdfs", lit "http://www.w3.org/2000/01/rdf-schema#");
    (lit "xsd", lit "http://www.w3.org/2001/XMLSchema#");
    (lit "owl", lit "http://www.w3.org/2002/07/owl#");
    (lit "foaf", lit "http://xmlns.com/foaf/0.1/");
    (lit "dc", lit "http://purl.org/dc/elements/1.1/");
    (lit "dcterms", lit "http://purl.org/dc/terms/");
    (lit "skos", lit "http://www.w3.org/2004/02/skos/core#");
    (lit "ex", lit "http://example.org/") ].

(** [f"PREFIX {prefix}: <{uri}>"]. *)
Definition prefix_declaration (entry : text * text) : text :=
  lit "PREFIX " ++ entry.1 ++ lit ": <" ++ entry.2 ++ lit ">".

(** [l[-1]]; [None] is the [IndexError] of an empty list. *)
Definition last_item (l : list text) : option text := List.last (Some <$> l) None.

Definition is_angle (c : char) : bool := (c =? 60)%N || (c =? 62)%N.

(** The declaration pattern [PREFIX <NAME>:] of a prefix. *)
Definition declaration_pattern (name : text) : text :=
  lit "PREFIX " ++ name ++ lit ":".

(** The prefixes that [_add_default_prefixes] considers: the nine defaults,
    then the configured ones. *)
Definition prefix_table (config : Config) : list (text * text) :=
  default_prefixes ++ default [] (cfg_prefixes config).

Definition keywords : list text :=
  [lit "SELECT"; lit "CONSTRUCT"; lit "ASK"; lit "DESCRIBE"].

(** The dictionary returned by [validate_query]; [query_type] is [None]
    until it is set. *)
Record Validation : Type := mkValidation {
  valid : bool;
  query_type : option text;
  prefixes : list (text * text);
  errors : list string
}.

Section WithDatabase.
Variable db : Database.

(** [f"PREFIX {prefix.upper()}:"]. *)
Definition prefix_pattern (prefix : text) : text :=
  lit "PREFIX " ++ upper db prefix ++ lit ":".

(** One of the two loops of [_add_default_prefixes]: the declarations
    appended for the entries of [table]. *)
Fixpoint declarations_for (query_upper : text) (table : list (text * text))
  : list text :=
  match table with
  | [] => []
  | (prefix, uri) :: rest =>
      if negb (contains (prefix_pattern prefix) query_upper)
      then prefix_declaration (prefix, uri) :: declarations_for query_upper rest
      else declarations_for query_upper rest
  end.

(** [SPARQLProcessor._add_default_prefixes]. *)
Definition _add_default_prefixes (config : Config) (sparql_query : text) : text :=
  let query_upper := upper db sparql_query in
  let prefix_declarations := declarations_for query_upper default_prefixes in
  let prefix_declarations :=
    match cfg_prefixes config with
    | Some custom => prefix_declarations ++ declarations_for query_upper custom
    | None => prefix_declarations
    end in
  match prefix_declarations with
  | [] => sparql_query
  | _ => join nl prefix_declarations ++ nl ++ nl ++ sparql_query
  end.

(** [SPARQLProcessor._get_query_type]. *)
Definition _get_query_type (sparql_query : text) : text :=
  let query_upper := strip db (upper db sparql_query) in
  if startswith query_upper (lit "SELECT") then lit "SELECT"
  else if startswith query_upper (lit "CONSTRUCT") then lit "CONSTRUCT"
  else if startswith query_upper (lit "ASK") then lit "ASK"
  else if startswith query_upper (lit "DESCRIBE") then lit "DESCRIBE"
  else lit "UNKNOWN".

(** The body of the loop of [_extract_prefixes] for one line. *)
Definition extract_line (prefixes : list (text * text)) (line : text)
  : list (text * text) :=
  let line := strip db line in
  if startswith (upper db line) (lit "PREFIX") then
    match split_once 58%N line with
    | Some (before, after) =>
        match last_item (split_ws db before) with
        | Some prefix =>
            let uri := strip_by is_angle (strip db after) in
            text_dict_set prefix uri prefixes
        | None => prefixes
        end
    | None => prefixes
    end
  else prefixes.

(** [SPARQLProcessor._extract_prefixes]. *)
Definition _extract_prefixes (sparql_query : text) : list (text * text) :=
  let lines := split_char 10%N sparql_query in
  fold_left extract_line lines [].

(** *** The specification's notions for the query text *)

(** Case is ignored the way Python ignores it, by comparing upper-cased
    texts: [p] occurs in [s], and [s] begins with [p], when that holds of
    their upper cases.  On texts of ASCII characters this is the
    comparison letter by letter ([ci_occurs_ascii], [ci_prefix_ascii]). *)
Definition ci_occurs (p s : text) : Prop :=
  ∃ before after, upper db s = before ++ upper db p ++ after.

Definition ci_prefix (p s : text) : Prop :=
  ∃ rest, upper db s = upper db p ++ rest.

(** [k] is the leading keyword of [q]: the keyword that the trimmed text
    begins with, case-insensitively, or [UNKNOWN] when it begins with
    none. *)
Definition leading_keyword (q k : text) : Prop :=
  (k ∈ keywords ∧ ci_prefix k (strip db q))
  ∨ (k = lit "UNKNOWN" ∧ ∀ kw, kw ∈ keywords → ¬ ci_prefix kw (strip db q)).

Section Queries.
Variable config : Config.
(** The library's [prepareQuery], with the type of its results. *)
Variable Prepared : Type.
Variable prepareQuery : text → result Prepared.

(** [SPARQLProcessor._prepare_query]. *)
Definition _prepare_query (sparql_query : text) : result Prepared :=
  let full_query := _add_default_prefixes config sparql_query in
  prepareQuery full_query.

(** [SPARQLProcessor.validate_query]: the [try] body sets three entries
    once the query is prepared, the handler appends the message. *)
Definition validate_query (sparql_query : text) : result Validation :=
  let validation_result := mkValidation false None [] [] in
  let validation_result :=
    match _prepare_query sparql_query with
    | Ok prepared_query =>
        mkValidation true (Some (_get_query_type sparql_query))
                     (_extract_prefixes sparql_query) (errors validation_result)
    | Raise e =>
        mkValidation (valid validation_result) (query_type validation_result)
                     (prefixes validation_result)
                     (errors validation_result ++ [exn_str e])
    end in
  Ok validation_result.
End Queries.

End WithDatabase.

(** Environments used in the examples: a preparer that accepts the texts
    that hold [SELECT], one that accepts every text, and a configuration
    with one custom prefix. *)
Definition accepts_select : text → result unit :=
  λ q, if contains (lit "SELECT") q then Ok tt
       else Raise (LibraryError "Expected {SelectQuery | ConstructQuery | DescribeQuery | AskQuery}").

Definition accepts_all : text → result unit := λ _, Ok tt.

Definition custom_config : Config :=
  mkConfig None None (Some [(lit "my", lit "http://my.example/")]).

(** A query text that holds the declaration pattern of each of the nine
    default prefixes. *)
Definition nine_prefix_query : text :=
  lit "PREFIX rdf: <a> PREFIX rdfs: <b> PREFIX xsd: <c> PREFIX owl: <d> PREFIX foaf: <e> prefix dc: <f> PREFIX dcterms: <g> PREFIX skos: <h> PREFIX ex: <i> SELECT * WHERE { ?s ?p ?o }".

(** A query text written with the long s after a no-break space. *)
Definition long_s_query : text := [160%N; 383%N] ++ lit "elect * { ?s ?p ?o }".

End SPARQLProcessor.

(** ** More of format_handler.py *)

Module FormatInfo.
Import FormatHandler.

(** [rdf_format.value]. *)
Definition RDFFormat_value (f : RDFFormat) : string :=
  match f with
  | RDF_XML => "rdf_xml"
  | TURTLE => "turtle"
  | N_TRIPLES => "n_triples"
  | JSON_LD => "json_ld"
  | TRIG => "trig"
  | N_QUADS => "n_quads"
  | TRIX => "trix"
  | RDF_THRIFT => "rdf_thrift"
  | OWL_XML => "owl_xml"
  | DEFAULT => "default"
  end.

(** [FORMAT_DESCRIPTIONS], in source order. *)
Definition FORMAT_DESCRIPTIONS : list (RDFFormat * string) :=
  [ (DEFAULT, "Default RDF format (automatically detected)");
    (RDF_XML, "RDF/XML format - W3C standard XML serialization of RDF");
    (TURTLE, "Turtle format - Terse RDF Triple Language");
    (N_TRIPLES, "N-Triples format - Simple line-based format");
    (JSON_LD, "JSON-LD format - JSON for Linked Data");
    (TRIG, "TriG format - Turtle with named graphs");
    (N_QUADS, "N-Quads format - N-Triples with named graphs");
    (TRIX, "TriX format - Triples in XML");
    (RDF_THRIFT, "RDF Thrift format - Binary RDF serialization");
    (OWL_XML, "OWL/XML format - XML serialization of OWL ontologies") ]%string.

(** [d.get(f)] on a table keyed by formats. *)
Fixpoint format_get {V : Type} (f : RDFFormat) (d : list (RDFFormat * V)) : option V :=
  match d with
  | [] => None
  | (f', v) :: d' => if decide (f = f') then Some v else format_get f d'
  end.

(** [[k for k, v in table.items() if v == rdf_format]]. *)
Fixpoint keys_for (rdf_format : RDFFormat) (table : list (string * RDFFormat))
  : list string :=
  match table with
  | [] => []
  | (k, v) :: rest =>
      if decide (v = rdf_format) then k :: keys_for rdf_format rest
      else keys_for rdf_format rest
  end.

(** The dictionary returned by [get_format_info], flattened: the four
    entries of ['config'] and the ['description']. *)
Record Info : Type := mkInfo {
  info_format : string;
  info_rdflib_format : string;
  info_mime_types : list string;
  info_extensions : list string;
  info_description : string
}.

(** [FormatHandler.get_format_info]. *)
Definition get_format_info (format_name : string) : Info :=
  let rdf_format :=
    match RDFFormat_of_value (PyStr.lower format_name) with
    | Some f => f
    | None => DEFAULT
    end in
  mkInfo (RDFFormat_value rdf_format)
         (get_rdflib_format rdf_format)
         (keys_for rdf_format MIME_TYPE_MAPPING)
         (keys_for rdf_format EXTENSION_MAPPING)
         (default "Unknown RDF format"%string (format_get rdf_format FORMAT_DESCRIPTIONS)).

(** [FormatHandler.validate_format_config]; the [ValueError] of an
    unknown name is caught and answered with [False]. *)
Definition validate_format_config {V : Type} (format_name : string)
    (config : list (string * V)) (strict : bool) : bool :=
  match RDFFormat_of_value (PyStr.lower format_name) with
  | None => false
  | Some rdf_format =>
      if negb (bool_decide (is_Some (format_get rdf_format FORMAT_DESCRIPTIONS)))
      then false
      else if strict
      then forallb (λ key, bool_decide (is_Some (dict_get key config))) ["format"%string]
      else true
  end.

End FormatInfo.

(** ** More of rdf_to_rdf.py: transformation rules *)

Module Transformations.
Import Rdflib.

(** [graph.remove(t)] for a triple without wildcard. *)
Definition graph_remove (g : loc) (t : Triple) : M unit :=
  λ w, (Ok tt,
        mkWorld (alter (λ o, mkGraph (g_triples o ∖ {[t]}) (g_bindings o)) g (graphs w))
                (parse_calls w)).

(** The first loop of the [replace_predicate] branch: the triples to
    remove and the triples to add, in the order of the iteration. *)
Fixpoint collect (old_pred new_pred : Node) (ts : list Triple)
  : list Triple * list Triple :=
  match ts with
  | [] => ([], [])
  | (subject, predicate, obj) :: rest =>
      let '(to_remove, to_add) := collect old_pred new_pred rest in
      if decide (predicate = old_pred)
      then ((subject, predicate, obj) :: to_remove, (subject, new_pred, obj) :: to_add)
      else (to_remove, to_add)
  end.

Section Rules.
(** What [URIRef(None)] does, for a rule that lacks a predicate key. *)
Variable uriref_of_none : result Node.

(** [URIRef(transform.get(key))]. *)
Definition uriref_of (value : option string) : M Node :=
  match value with
  | Some u => ret (URIRef u)
  | None => match uriref_of_none with Ok n => ret n | Raise e => raise e end
  end.

(** The body of the loop of [_apply_transformations] for one rule, a
    dictionary with string values. *)
Definition apply_rule (graph : loc) (transform : list (string * string)) : M unit :=
  let transform_type := dict_get "type" transform in
  match transform_type with
  | Some ty =>
      if String.eqb ty "add_namespace" then
        match dict_get "prefix" transform, dict_get "uri" transform with
        | Some prefix, Some uri =>
            if negb (String.eqb prefix "") && negb (String.eqb uri "")
            then graph_bind graph prefix uri
            else ret tt
        | _, _ => ret tt
        end
      else if String.eqb ty "replace_predicate" then
        let* old_pred := uriref_of (dict_get "old_predicate" transform) in
        let* new_pred := uriref_of (dict_get "new_predicate" transform) in
        let* ts := graph_iter graph in
        let '(to_remove, to_add) := collect old_pred new_pred ts in
        for_each to_remove (λ triple, graph_remove graph triple) ;;
        for_each to_add (λ triple, graph_add graph triple)
      else ret tt
  | None => ret tt
  end.

(** [RDFToRDF._apply_transformations]. *)
Definition _apply_transformations (graph : loc)
    (transformations : list (list (string * string))) : M loc :=
  for_each transformations (apply_rule graph) ;;
  ret graph.
End Rules.

(** The rule that replaces the predicate [old] by [new]. *)
Definition replace_rule (old new : string) : list (string * string) :=
  [ ("type", "replace_predicate"); ("old_predicate", old); ("new_predicate", new) ]%string.

End Transformations.

(** ** Notions used to state what the operations keep *)

Module Frame.
Import Rdflib.

(** [w'] has every graph object of [w], as it was in [w]. *)
Definition extends (w w' : World) : Prop :=
  dom (graphs w) ⊆ dom (graphs w')
  ∧ ∀ l, l ∈ dom (graphs w) → graphs w' !! l = graphs w !! l.

(** What a loader does once [parse] has made the graph [g0]: it keeps
    every other object, and returns [g0] or a new object. *)
Definition loads_into (g0 : loc) (w : World) (r : result loc * World) : Prop :=
  dom (graphs w) ⊆ dom (graphs r.2)
  ∧ (∀ l, l ∈ dom (graphs w) → l ≠ g0 → graphs r.2 !! l = graphs w !! l)
  ∧ ∀ g, r.1 = Ok g → is_Some (graphs r.2 !! g) ∧ (g = g0 ∨ g ∉ dom (graphs w)).

(** Two names are equal up to the case of their letters. *)
Fixpoint ci_equal (a b : string) : Prop :=
  match a, b with
  | EmptyString, EmptyString => True
  | String x a', String y b' => PyStr.lower_char x = PyStr.lower_char y ∧ ci_equal a' b'
  | _, _ => False
  end.

(** The triples that [extract_schema] is after: a class or property
    axiom by its predicate, or a typing with a class or property kind. *)
Definition schema_pattern (t : Triple) : Prop :=
  predicate_of t ∈ [RDFS_subClassOf; OWL_equivalentClass;
                    RDFS_domain; RDFS_range; RDFS_subPropertyOf]
  ∨ (predicate_of t = RDF_type
     ∧ object_of t ∈ [RDFS_Class; OWL_Class; RDF_Property; OWL_ObjectProperty;
                      OWL_DatatypeProperty; OWL_AnnotationProperty]).

(** A rule that names what its kind needs: a [replace_predicate] rule
    has both predicate keys. *)
Definition names_predicates (transform : list (string * string)) : Prop :=
  dict_get "type" transform = Some "replace_predicate"%string →
  is_Some (dict_get "old_predicate" transform)
  ∧ is_Some (dict_get "new_predicate" transform).

(** The triple [t] with its predicate replaced. *)
Definition with_predicate (new_pred : Node) (t : Triple) : Triple :=
  (subject_of t, new_pred, object_of t).

(** A graph with one class axiom and one data triple, at location [1]. *)
Definition student_subclass : Triple :=
  (URIRef "http://example.org/Student", RDFS_subClassOf,
   URIRef "http://example.org/Person").

Definition schema_world : World :=
  mkWorld {[ 1%positive := mkGraph ({[ student_subclass ]} ∪ {[ RDFToRDF.alice_name ]}) [] ]}
          [].

End Frame.

(** ** More of sparql_processor.py: result shaping *)

Module Results.
Import Rdflib.

(** A result of a SELECT query: the variables, by name, and for each
    solution the bindings of the bound variables. *)
Record ResultSet : Type := mkResultSet {
  vars : list string;
  solutions : list (list (string * Node))
}.

(** The inner loop of [_results_to_list]: the row dictionary after the
    variables [vs]. *)
Fixpoint fill_row (result : list (string * Node)) (vs : list string)
    (row : list (string * string)) : list (string * string) :=
  match vs with
  | [] => row
  | var :: rest =>
      let row :=
        match dict_get var result with
        | Some value => dict_set var (node_str value) row
        | None => row
        end in
      fill_row result rest row
  end.

(** [SPARQLProcessor._results_to_list]. *)
Definition _results_to_list (results : ResultSet) : list (list (string * string)) :=
  map (λ result, fill_row result (vars results) []) (solutions results).

(** One data row of [_results_to_table]. *)
Definition table_row (vs : list string) (result : list (string * Node)) : list string :=
  map (λ var, match dict_get var result with
              | Some value => node_str value
              | None => EmptyString
              end) vs.

(** [SPARQLProcessor._results_to_table], for a result that has [vars]. *)
Definition _results_to_table (results : ResultSet) : list (list string) :=
  vars results :: map (table_row (vars results)) (solutions results).

End Results.

(** ** Environments used in the examples of the loader *)

Module Examples.
Import Rdflib RDFParser.

(** Every string is an [http] URL. *)
Definition http_scheme : string → option string := λ _, Some "http"%string.

(** A server that answers every request with [404 Not Found]. *)
Definition not_found_server : string → list (string * string) → result Response :=
  λ url _, Ok (mkResponse (Some ("404 Client Error: Not Found for url: " +:+ url))
                          "" (Some "text/html"%string)).

(** A file system that holds the single file [good.ttl]. *)
Definition only_good : string → bool := λ p, String.eqb p "good.ttl".

End Examples.

(** ** What the batch loader does with a list of sources *)

Module Batch.
Import Rdflib RDFParser.

Section Batch.
Variable config : Config.
Variable rdflib_parse : ParseInput → string → ParseOutcome.
Variable urlparse_scheme : string → option string.
Variable path_exists : string → bool.
Variable requests_get : string → list (string * string) → result Response.
Variable dataset_add_graph : Dataset → loc → string → result Dataset.
Variable format_hints : list (string * string).

(** [collected d w sources d' w']: starting with the dataset [d] in the
    world [w], the sources are taken one after the other, in order, up to
    the last one.  A source whose parse raises, or whose registration
    raises, leaves the dataset as it is and the next source is taken; a
    source that parses and registers replaces the dataset by the
    registered one.  [d'] and [w'] are the dataset and the world after
    the last source. *)
Inductive collected : Dataset → World → list Source → Dataset → World → Prop :=
  | collected_nil d w : collected d w [] d w
  | collected_parse_raises d w source rest e w1 d' w' :
      parse config rdflib_parse urlparse_scheme path_exists requests_get
        source (dict_get (source_str source) format_hints) None w = (Raise e, w1) →
      collected d w1 rest d' w' →
      collected d w (source :: rest) d' w'
  | collected_registration_raises d w source rest g w1 e d' w' :
      parse config rdflib_parse urlparse_scheme path_exists requests_get
        source (dict_get (source_str source) format_hints) None w = (Ok g, w1) →
      dataset_add_graph d g (source_str source) = Raise e →
      collected d w1 rest d' w' →
      collected d w (source :: rest) d' w'
  | collected_registered d w source rest g w1 d1 d' w' :
      parse config rdflib_parse urlparse_scheme path_exists requests_get
        source (dict_get (source_str source) format_hints) None w = (Ok g, w1) →
      dataset_add_graph d g (source_str source) = Ok d1 →
      collected d1 w1 rest d' w' →
      collected d w (source :: rest) d' w'.
End Batch.

End Batch.

(** ** Notions used to state what the query functions do with declarations *)

Module Declarations.
Import Unicode SPARQLProcessor.

(** No character of [s] is one that [drop] accepts. *)
Fixpoint none_of (drop : char → bool) (s : text) : bool :=
  match s with
  | [] => true
  | c :: s' => negb (drop c) && none_of drop s'
  end.

Definition is_colon (c : char) : bool := (c =? 58)%N.
Definition is_newline (c : char) : bool := (c =? 10)%N.

(** A prefix and a URI that a declaration line carries as they are: the
    prefix is not empty and has no white space and no colon, the URI has
    no angle bracket and no line feed. *)
Definition well_formed (db : Database) (entry : text * text) : Prop :=
  entry.1 ≠ []
  ∧ none_of (is_space db) entry.1 = true
  ∧ none_of is_colon entry.1 = true
  ∧ none_of is_angle entry.2 = true
  ∧ none_of is_newline entry.2 = true.

(** A query text that opens with a declaration. *)
Definition prefixed_query : text :=
  lit "PREFIX ex: <http://example.org/> SELECT ?s WHERE { ?s ex:knows ?o }".

End Declarations.

(** * Properties *)

(** ** Strings *)

Module PyStrFacts.
Import PyStr.

Lemma append_cons (c : ascii) (s t : string) : String c s +:+ t = String c (s +:+ t).
Proof. reflexivity. Qed.

Lemma append_nil_l (t : string) : "" +:+ t = t.
Proof. reflexivity. Qed.

Lemma append_nil_r (s : string) : s +:+ "" = s.
Proof. induction s as [|c s IH]; [done | by rewrite append_cons, IH]. Qed.

Lemma append_assoc (a b c : string) : (a +:+ b) +:+ c = a +:+ (b +:+ c).
Proof. induction a as [|x a IH]; [done | by rewrite !append_cons, IH]. Qed.

Lemma append_eq_nil (a b : string) : a +:+ b = "" → a = "" ∧ b = "".
Proof. destruct a; [done | discriminate]. Qed.

(** [sep in s] for a single character. *)
Lemma contains_char_cons (sep a : ascii) (s : string) :
  contains (String sep "") (String a s)
  = Ascii.eqb sep a || contains (String sep "") s.
Proof. simpl. by rewrite andb_true_r. Qed.

Lemma split_char_no_sep (sep : ascii) (t : string) :
  contains (String sep "") t = false → split_char sep t = [t].
Proof.
  induction t as [|c t IH]; [done |].
  rewrite contains_char_cons. intros [Hc Ht]%orb_false_elim.
  simpl. rewrite Ascii.eqb_sym, Hc. by rewrite (IH Ht).
Qed.

(** Appending text that holds no separator only extends the last piece. *)
Lemma split_char_app (sep : ascii) (s t : string) :
  contains (String sep "") t = false →
  ∃ init x, split_char sep s = init ++ [x]
            ∧ split_char sep (s +:+ t) = init ++ [x +:+ t].
Proof.
  intros Ht. induction s as [|c s (init & x & E1 & E2)].
  - exists [], "". split; [done |]. by rewrite append_nil_l, (split_char_no_sep _ _ Ht).
  - rewrite append_cons. simpl. rewrite E1, E2.
    destruct (Ascii.eqb c sep).
    + by exists ("" :: init), x.
    + destruct init as [|h init]; simpl.
      * by exists [], (String c x).
      * by exists (String c h :: init), x.
Qed.

Lemma last_filter_snoc {A} (P : A → Prop) `{∀ x, Decision (P x)} (l : list A) (x d : A) :
  P x → List.last (filter P (l ++ [x])) d = x.
Proof.
  intros Hx. rewrite filter_app, filter_cons_True, filter_nil by done.
  apply last_last.
Qed.

End PyStrFacts.

(** ** Format registry *)

Module FormatHandlerFacts.
Import PyStr PyStrFacts FormatHandler.

Lemma from_last_dot_no_dot (e : string) :
  contains "." e = false → from_last_dot e = None.
Proof.
  induction e as [|c e IH]; [done |].
  rewrite contains_char_cons. intros [Hc He]%orb_false_elim.
  simpl. rewrite (IH He). by rewrite Ascii.eqb_sym, Hc.
Qed.

Lemma from_last_dot_app (y e : string) :
  contains "." e = false →
  from_last_dot (y +:+ String "." e) = Some (String "." e).
Proof.
  intros He. induction y as [|c y IH].
  - rewrite append_nil_l. simpl. by rewrite (from_last_dot_no_dot _ He).
  - rewrite append_cons. simpl. by rewrite IH.
Qed.

(** The suffix of a name that ends in a dot-free extension after a
    non-empty stem. *)
Lemma name_suffix_app (y e : string) :
  y ≠ "" → e ≠ "" → contains "." e = false →
  name_suffix (y +:+ String "." e) = String "." e.
Proof.
  intros Hy He Hdot. destruct y as [|c y]; [done |].
  rewrite append_cons. unfold name_suffix.
  rewrite (from_last_dot_app _ _ Hdot).
  by destruct e.
Qed.

(** The name of a path that ends in slash-free text. *)
Lemma path_name_app (dir t : string) :
  contains "/" t = false → t ≠ "" → t ≠ "." →
  ∃ y, path_name (dir +:+ t) = y +:+ t.
Proof.
  intros Hslash Ht Hdot.
  destruct (split_char_app "/" dir t Hslash) as (init & x & _ & E).
  exists x. unfold path_name, path_parts. rewrite E.
  apply last_filter_snoc. split.
  - intros [_ ?]%append_eq_nil. done.
  - destruct x as [|c x]; [by rewrite append_nil_l |].
    rewrite append_cons. intros [= -> [_ ?]%append_eq_nil]. done.
Qed.

(** A source made of any directory part, a non-empty slash-free stem and
    an extension [.e] has the suffix [.e]. *)
Lemma path_suffix_stem_ext (dir stem e : string) :
  stem ≠ "" → contains "/" stem = false →
  e ≠ "" → contains "." e = false → contains "/" e = false →
  path_suffix (dir +:+ stem +:+ String "." e) = String "." e.
Proof.
  intros Hstem Hs He Hdot Hslash. unfold path_suffix.
  destruct (path_name_app dir (stem +:+ String "." e)) as [y ->].
  - clear Hstem. induction stem as [|c stem IH].
    + by rewrite append_nil_l, contains_char_cons, Hslash.
    + rewrite contains_char_cons in Hs. apply orb_false_elim in Hs as [Hc Hs'].
      by rewrite append_cons, contains_char_cons, Hc, (IH Hs').
  - intros [? _]%append_eq_nil. done.
  - destruct stem as [|c stem]; [done |].
    rewrite append_cons. intros [= -> [_ ?]%append_eq_nil]. done.
  - rewrite <- append_assoc. apply name_suffix_app; [|done..].
    intros [_ ?]%append_eq_nil. done.
Qed.

(** Every key of the extension table is a dot followed by non-empty
    lower-case text without dot or slash. *)
Lemma extension_shape (ext : string) (fmt : RDFFormat) :
  (ext, fmt) ∈ EXTENSION_MAPPING →
  ∃ e, ext = String "." e ∧ e ≠ "" ∧ contains "." e = false
       ∧ contains "/" e = false ∧ lower ext = ext
       ∧ dict_get ext EXTENSION_MAPPING = Some fmt.
Proof.
  unfold EXTENSION_MAPPING. intros H.
  repeat (apply elem_of_cons in H as [[= -> ->] | H];
          [eexists; split; [reflexivity | by vm_compute] |]).
  by apply elem_of_nil in H.
Qed.

(** A key of the MIME table, alone or followed by a parameter, is looked
    up as itself. *)
Lemma mime_lookup (mime : string) (fmt : RDFFormat) :
  (mime, fmt) ∈ MIME_TYPE_MAPPING →
  mime ≠ "" ∧ dict_get (strip_parameters mime) MIME_TYPE_MAPPING = Some fmt
  ∧ ∀ params,
      mime +:+ ";" +:+ params ≠ ""
      ∧ dict_get (strip_parameters (mime +:+ ";" +:+ params)) MIME_TYPE_MAPPING = Some fmt.
Proof.
  unfold MIME_TYPE_MAPPING. intros H.
  repeat (apply elem_of_cons in H as [[= -> ->] | H];
          [split; [done | split; [by vm_compute |]];
           intros params; split; [done |];
           unfold strip_parameters, split_first;
           lazy beta iota delta [String.append contains startswith Ascii.eqb Bool.eqb
                                 split_char orb andb];
           by vm_compute |]).
  by apply elem_of_nil in H.
Qed.

(** C4.  For every entry [(ext, fmt)] of the extension table,
    [detect_format] maps a source whose final component is a non-empty
    stem followed by [ext] (in any letter case) to [fmt]; for every entry
    [(mime, fmt)] of the MIME table it maps the content type [mime], alone
    or followed by [;] and any parameter text, to [fmt] whatever the
    source is; and a source whose extension is not in the table, without
    a content type, gets RDF/XML. *)
Theorem detect_format_tables :
  (∀ ext fmt dir stem,
     (ext, fmt) ∈ EXTENSION_MAPPING →
     stem ≠ "" → contains "/" stem = false →
     detect_format (dir +:+ stem +:+ ext) None = fmt
     ∧ detect_format (dir +:+ stem +:+ upper ext) None = fmt)
  ∧ (∀ mime fmt source params,
       (mime, fmt) ∈ MIME_TYPE_MAPPING →
       detect_format source (Some mime) = fmt
       ∧ detect_format source (Some (mime +:+ ";" +:+ params)) = fmt)
  ∧ (∀ source,
       dict_get (lower (path_suffix source)) EXTENSION_MAPPING = None →
       detect_format source None = RDF_XML).
Proof.
  split; [| split].
  - intros ext fmt dir stem Hin Hstem Hslash.
    pose proof Hin as Hup.
    destruct (extension_shape _ _ Hin) as (e & -> & He & Hdot & Hsl & Hlow & Hget).
    split.
    + unfold detect_format, detect_by_extension.
      rewrite path_suffix_stem_ext by done. by rewrite Hlow, Hget.
    + assert (∃ e', upper (String "." e) = String "." e' ∧ e' ≠ ""
                    ∧ contains "." e' = false ∧ contains "/" e' = false
                    ∧ lower (String "." e') = String "." e) as (e' & -> & ? & ? & ? & Hl).
      { clear -Hup. unfold EXTENSION_MAPPING in Hup.
        repeat (apply elem_of_cons in Hup as [[= -> ->] | Hup];
                [eexists; split; [reflexivity | by vm_compute] |]).
        by apply elem_of_nil in Hup. }
      unfold detect_format, detect_by_extension.
      rewrite path_suffix_stem_ext by done. by rewrite Hl, Hget.
  - intros mime fmt source params Hin.
    destruct (mime_lookup _ _ Hin) as (Hne & Hget & Hpar).
    destruct (Hpar params) as [Hne' Hget'].
    unfold detect_format. split.
    + rewrite decide_False by done. by rewrite Hget.
    + rewrite decide_False by done. by rewrite Hget'.
  - intros source Hnone. unfold detect_format, detect_by_extension. by rewrite Hnone.
Qed.

(** The three parts of [detect_format_tables] at [data/people.ttl],
    [text/turtle; charset=utf-8] and [notes.txt]. *)
Lemma detect_format_tables_witness :
  detect_format "data/people.ttl" None = TURTLE
  ∧ detect_format "data/people.TTL" None = TURTLE
  ∧ detect_format "unknown.file" (Some "text/turtle") = TURTLE
  ∧ detect_format "unknown.file" (Some "text/turtle; charset=utf-8") = TURTLE
  ∧ detect_format "notes.txt" None = RDF_XML.
Proof.
  assert (Hin1 : (".ttl", TURTLE) ∈ EXTENSION_MAPPING)
    by (unfold EXTENSION_MAPPING; repeat constructor).
  assert (Hin2 : ("text/turtle", TURTLE) ∈ MIME_TYPE_MAPPING)
    by (unfold MIME_TYPE_MAPPING; repeat constructor).
  pose proof (proj1 detect_format_tables ".ttl" TURTLE "data/" "people"
                Hin1 ltac:(done) eq_refl) as [H1 H2].
  pose proof (proj1 (proj2 detect_format_tables) "text/turtle" TURTLE "unknown.file"
                " charset=utf-8" Hin2) as [H3 H4].
  pose proof (proj2 (proj2 detect_format_tables) "notes.txt" eq_refl) as H5.
  exact (conj H1 (conj H2 (conj H3 (conj H4 H5)))).
Defined.

(** C8.  A content type that is given (not empty) but, once its
    parameters are stripped, is not a key of the MIME table does not decide
    the format: [detect_format] answers what the extension of the source
    gives, and RDF/XML only when that lookup fails too. *)
Theorem detect_format_unknown_content_type (source content_type : string) :
  content_type ≠ "" →
  dict_get (strip_parameters content_type) MIME_TYPE_MAPPING = None →
  detect_format source (Some content_type) = detect_format source None
  ∧ detect_format source (Some content_type)
    = match dict_get (lower (path_suffix source)) EXTENSION_MAPPING with
      | Some fmt => fmt
      | None => RDF_XML
      end.
Proof.
  intros Hne Hnone. unfold detect_format.
  rewrite decide_False by done. by rewrite Hnone.
Qed.

(** [detect_format_unknown_content_type] at a Turtle file served as
    [text/html]. *)
Lemma detect_format_unknown_content_type_witness :
  detect_format "people.ttl" (Some "text/html") = TURTLE
  ∧ detect_format "people.bin" (Some "text/html") = RDF_XML.
Proof.
  split.
  - exact (proj2 (detect_format_unknown_content_type "people.ttl" "text/html"
                    ltac:(done) eq_refl)).
  - exact (proj2 (detect_format_unknown_content_type "people.bin" "text/html"
                    ltac:(done) eq_refl)).
Defined.

End FormatHandlerFacts.

(** ** The store of graph objects *)

Module RdflibFacts.
Import Rdflib.
#[local] Set Warnings "-clear-no-such-hyp".

Lemma same_except_refl g w : same_except g w w.
Proof. done. Qed.

Lemma same_except_trans g w1 w2 w3 :
  same_except g w1 w2 → same_except g w2 w3 → same_except g w1 w3.
Proof.
  intros (Hc1 & Hd1 & Hl1) (Hc2 & Hd2 & Hl2). split; [congruence |].
  split; [congruence |]. intros l Hl. rewrite Hl2, Hl1; done.
Qed.

Lemma is_Some_same_except g w w' l :
  same_except g w w' → is_Some (graphs w !! l) → is_Some (graphs w' !! l).
Proof. intros (_ & Hd & _). rewrite <- !elem_of_dom. by rewrite Hd. Qed.

Lemma triples_at_alter (f : GraphObj → GraphObj) g w c l :
  triples_at (mkWorld (alter f g (graphs w)) c) l
  = if decide (g = l)
    then match graphs w !! g with Some o => g_triples (f o) | None => ∅ end
    else triples_at w l.
Proof.
  unfold triples_at; simpl. rewrite lookup_alter.
  destruct (decide (g = l)) as [->|]; [| done].
  by destruct (graphs w !! l).
Qed.

Lemma same_except_alter (f : GraphObj → GraphObj) g w :
  same_except g w (mkWorld (alter f g (graphs w)) (parse_calls w)).
Proof.
  split; [done |]. split; simpl.
  - apply set_eq. intros l. rewrite !elem_of_dom, lookup_alter.
    destruct (decide (g = l)) as [->|]; [| done]. by rewrite fmap_is_Some.
  - intros l Hl. by rewrite lookup_alter_ne.
Qed.

Lemma graph_add_spec g t w :
  ∃ w', graph_add g t w = (Ok tt, w') ∧ same_except g w w'
        ∧ (is_Some (graphs w !! g) → triples_at w' g = {[t]} ∪ triples_at w g).
Proof.
  eexists. split; [reflexivity |]. split; [apply same_except_alter |].
  intros [o Ho]. rewrite triples_at_alter, decide_True by done.
  unfold triples_at. by rewrite Ho.
Qed.

Lemma graph_bind_spec g p u w :
  ∃ w', graph_bind g p u w = (Ok tt, w') ∧ same_except g w w'
        ∧ triples_at w' g = triples_at w g.
Proof.
  eexists. split; [reflexivity |]. split; [apply same_except_alter |].
  rewrite triples_at_alter, decide_True by done.
  unfold triples_at. by destruct (graphs w !! g).
Qed.

Lemma new_graph_spec w :
  ∃ g w', new_graph w = (Ok g, w')
          ∧ (g ∉ dom (graphs w))
          ∧ is_Some (graphs w' !! g)
          ∧ triples_at w' g = ∅
          ∧ parse_calls w' = parse_calls w
          ∧ (∀ l, l ≠ g → graphs w' !! l = graphs w !! l).
Proof.
  eexists _, _. split; [reflexivity |].
  split; [apply is_fresh |]. simpl.
  split; [by rewrite lookup_insert_eq |].
  split; [unfold triples_at; simpl; by rewrite lookup_insert_eq |].
  split; [done |]. intros l Hl. by rewrite lookup_insert_ne.
Qed.

Lemma for_each_bind_spec g (l : list (string * string)) w :
  ∃ w', for_each l (λ '(prefix, uri), graph_bind g prefix uri) w = (Ok tt, w')
        ∧ same_except g w w' ∧ triples_at w' g = triples_at w g.
Proof.
  revert w. induction l as [|[p u] l IH]; intros w.
  - exists w. by split_and!.
  - destruct (graph_bind_spec g p u w) as (w1 & E1 & S1 & T1).
    destruct (IH w1) as (w2 & E2 & S2 & T2).
    exists w2. split.
    + simpl. unfold bind. by rewrite E1.
    + split; [by eapply same_except_trans | congruence].
Qed.

Lemma for_each_add_spec (f : Triple → bool) g (ts : list Triple) w :
  is_Some (graphs w !! g) →
  ∃ w', for_each ts (λ t, if f t then graph_add g t else ret tt) w = (Ok tt, w')
        ∧ same_except g w w'
        ∧ triples_at w' g = list_to_set (filter f ts) ∪ triples_at w g.
Proof.
  revert w. induction ts as [|t ts IH]; intros w Hg.
  - exists w. split_and!; [done.. |]. set_solver.
  - simpl. unfold bind. destruct (f t) eqn:Ef.
    + destruct (graph_add_spec g t w) as (w1 & E1 & S1 & T1). rewrite E1.
      destruct (IH w1) as (w2 & E2 & S2 & T2); [by eapply is_Some_same_except |].
      exists w2. split; [done |]. split; [by eapply same_except_trans |].
      rewrite T2, (T1 Hg), filter_cons_True by (by rewrite Ef). set_solver.
    + destruct (IH w) as (w2 & E2 & S2 & T2); [done |].
      exists w2. split; [done |]. split; [done |].
      rewrite T2, filter_cons_False by (rewrite Ef; intros []). done.
Qed.

End RdflibFacts.

(** ** Graph operations *)

Module RDFToRDFFacts.
Import Rdflib RdflibFacts RDFToRDF.
#[local] Set Warnings "-clear-no-such-hyp".

Lemma add_common_namespaces_spec config g w :
  ∃ w', _add_common_namespaces config g w = (Ok tt, w')
        ∧ same_except g w w' ∧ triples_at w' g = triples_at w g.
Proof.
  unfold _add_common_namespaces, bind.
  destruct (for_each_bind_spec g namespaces w) as (w1 & -> & S1 & T1).
  destruct (cfg_namespaces config) as [d|].
  - destruct (for_each_bind_spec g d w1) as (w2 & -> & S2 & T2).
    exists w2. split; [done |]. split; [by eapply same_except_trans | congruence].
  - by exists w1.
Qed.

Lemma list_to_set_filter_elements (f : Triple → bool) (T : gset Triple) :
  list_to_set (filter f (elements T)) = filter f T.
Proof.
  apply set_eq. intros t.
  rewrite elem_of_list_to_set, list_elem_of_filter, elem_of_elements, elem_of_filter.
  done.
Qed.

Lemma length_filter_elements (f : Triple → bool) (T : gset Triple) :
  length (filter f (elements T)) = size (filter f T).
Proof.
  unfold size, set_size. simpl. apply Permutation_length, NoDup_Permutation.
  - apply NoDup_filter, NoDup_elements.
  - apply NoDup_elements.
  - intros t. rewrite list_elem_of_filter, !elem_of_elements, elem_of_filter. done.
Qed.

(** The shape shared by [filter_graph] and [extract_schema]. *)
Lemma select_into_new_graph config (f : Triple → bool) graph w :
  is_Some (graphs w !! graph) →
  ∃ fg w',
    (let* n := new_graph in
     _add_common_namespaces config n ;;
     let* ts := graph_iter graph in
     for_each ts (λ t, if f t then graph_add n t else ret tt) ;;
     ret n) w = (Ok fg, w')
    ∧ (fg ∉ dom (graphs w))
    ∧ parse_calls w' = parse_calls w
    ∧ (∀ l, l ≠ fg → graphs w' !! l = graphs w !! l)
    ∧ triples_at w' fg = filter f (triples_at w graph).
Proof.
  intros Hg. unfold bind.
  destruct (new_graph_spec w) as (fg & w1 & -> & Hfresh & Hfg & T1 & C1 & L1).
  destruct (add_common_namespaces_spec config fg w1) as (w2 & -> & S2 & T2).
  assert (Hne : graph ≠ fg).
  { intros ->. by apply Hfresh, elem_of_dom. }
  assert (Hsrc : triples_at w2 graph = triples_at w graph).
  { unfold triples_at. destruct S2 as (_ & _ & L2). by rewrite L2, L1. }
  unfold graph_iter at 1. cbn beta iota. rewrite Hsrc.
  destruct (for_each_add_spec f fg (elements (triples_at w graph)) w2)
    as (w3 & -> & S3 & T3); [by eapply is_Some_same_except |].
  exists fg, w3. split; [done |]. split; [done |].
  destruct S2 as (C2 & _ & L2), S3 as (C3 & _ & L3).
  split; [congruence |]. split.
  - intros l Hl. by rewrite L3, L2, L1.
  - rewrite T3, T2, T1, list_to_set_filter_elements. set_solver.
Qed.

Lemma filter_rejects_allowed allow n : filter_rejects allow n = false ↔ allowed allow n.
Proof.
  destruct allow as [[|x l]|]; simpl; [done | | done].
  rewrite negb_false_iff, bool_decide_eq_true. done.
Qed.

Lemma filter_include_allowed pf sf ob t :
  filter_include pf sf ob t
  ↔ allowed pf (predicate_of t) ∧ allowed sf (subject_of t) ∧ allowed ob (object_of t).
Proof.
  destruct t as [[s p] o]. unfold filter_include, predicate_of, subject_of, object_of; simpl.
  rewrite <- !filter_rejects_allowed.
  destruct (filter_rejects pf p), (filter_rejects sf s), (filter_rejects ob o); simpl; naive_solver.
Qed.

Lemma add_all_spec g (ts : list Triple) total w :
  is_Some (graphs w !! g) →
  ∃ w', add_all g ts total w = (Ok (total + length ts), w')
        ∧ same_except g w w'
        ∧ triples_at w' g = list_to_set ts ∪ triples_at w g.
Proof.
  revert total w. induction ts as [|t ts IH]; intros total w Hg.
  - exists w. cbn [add_all length]. rewrite Nat.add_0_r.
    split; [done |]. split; [done |]. set_solver.
  - cbn [add_all]. unfold bind.
    destruct (graph_add_spec g t w) as (w1 & -> & S1 & T1).
    destruct (IH (total + 1) w1) as (w2 & -> & S2 & T2); [by eapply is_Some_same_except |].
    exists w2. split; [cbn [length]; do 2 f_equal; lia |].
    split; [by eapply same_except_trans |].
    rewrite T2, (T1 Hg). set_solver.
Qed.

(** The loops of [merge_graphs] add to the target the triples that the
    listed graphs had at the start, and count one per triple read. *)
Lemma merge_into_spec tg (gs : list loc) total w :
  is_Some (graphs w !! tg) →
  ∃ n w', merge_into tg gs total w = (Ok n, w')
          ∧ same_except tg w w'
          ∧ triples_at w' tg = ⋃ (triples_at w <$> gs) ∪ triples_at w tg.
Proof.
  revert total w. induction gs as [|g gs IH]; intros total w Htg.
  - exists total, w. split; [done |]. split; [done |]. simpl. set_solver.
  - cbn [merge_into]. unfold bind. unfold graph_iter at 1. cbn beta iota.
    destruct (add_all_spec tg (elements (triples_at w g)) total w Htg)
      as (w1 & -> & S1 & T1).
    rewrite list_to_set_elements_L in T1.
    destruct (IH (total + length (elements (triples_at w g))) w1) as (n & w2 & -> & S2 & T2);
      [by eapply is_Some_same_except |].
    exists n, w2. split; [done |]. split; [by eapply same_except_trans |].
    rewrite T2, T1.
    assert (Hrest : ⋃ (triples_at w1 <$> gs) ∪ (triples_at w g ∪ triples_at w tg)
                    = ⋃ (triples_at w <$> gs) ∪ (triples_at w g ∪ triples_at w tg)).
    { clear IH T2 S2. induction gs as [|l gs IHgs]; [done |]. simpl.
      destruct (decide (l = tg)) as [->|Hl].
      - rewrite T1. set_solver.
      - assert (triples_at w1 l = triples_at w l) as ->.
        { unfold triples_at. destruct S1 as (_ & _ & L1). by rewrite L1. }
        set_solver. }
    rewrite Hrest. set_solver.
Qed.

Lemma tally_fold (ts : list Triple) (a : Tally) :
  let r := fold_left tally_step ts a in
  t_subjects r = list_to_set (subject_of <$> ts) ∪ t_subjects a
  ∧ t_predicates r = list_to_set (predicate_of <$> ts) ∪ t_predicates a
  ∧ t_objects r = list_to_set (object_of <$> ts) ∪ t_objects a
  ∧ t_blank_nodes r
    = t_blank_nodes a + length (filter (λ t, is_BNode (subject_of t)) ts)
      + length (filter (λ t, is_BNode (object_of t)) ts)
  ∧ t_literals r = t_literals a + length (filter (λ t, is_Literal (object_of t)) ts)
  ∧ t_uris r
    = t_uris a + length (filter (λ t, is_URIRef (subject_of t)) ts)
      + length (filter (λ t, is_URIRef (object_of t)) ts).
Proof.
  revert a. induction ts as [|[[s p] o] ts IH]; intros a.
  - simpl. split_and!; try set_solver; lia.
  - cbn [fold_left]. destruct (IH (tally_step a (s, p, o))) as (H1 & H2 & H3 & H4 & H5 & H6).
    cbv zeta. rewrite H1, H2, H3, H4, H5, H6. clear.
    rewrite !fmap_cons. unfold subject_of, predicate_of, object_of. cbn [fst snd].
    rewrite !(filter_cons _ (s, p, o)). cbn [fst snd].
    destruct s, o; simpl; unfold Triple; split_and!; try set_solver; try lia.
Qed.

(** The three graphs of [sample_world]. *)
Lemma sample_world_1 :
  graphs sample_world !! (1%positive : loc) = Some (mkGraph {[ alice_name ]} []).
Proof. unfold sample_world. cbn [graphs]. apply lookup_insert_eq. Qed.

Lemma sample_world_2 :
  graphs sample_world !! (2%positive : loc) = Some (mkGraph {[ alice_knows ]} []).
Proof.
  unfold sample_world. cbn [graphs].
  rewrite lookup_insert_ne by discriminate. apply lookup_insert_eq.
Qed.

Lemma sample_world_3 :
  graphs sample_world !! (3%positive : loc)
  = Some (mkGraph ({[ alice_name ]} ∪ {[ alice_knows ]}) []).
Proof.
  unfold sample_world. cbn [graphs].
  rewrite !lookup_insert_ne by discriminate. apply lookup_singleton_eq.
Qed.

Lemma sample_triples_1 : triples_at sample_world 1%positive = {[ alice_name ]}.
Proof. unfold triples_at. by rewrite sample_world_1. Qed.

Lemma sample_triples_2 : triples_at sample_world 2%positive = {[ alice_knows ]}.
Proof. unfold triples_at. by rewrite sample_world_2. Qed.

Lemma sample_triples_3 :
  triples_at sample_world 3%positive = {[ alice_name ]} ∪ {[ alice_knows ]}.
Proof. unfold triples_at. by rewrite sample_world_3. Qed.

Lemma alice_triples_differ : alice_name ≠ alice_knows.
Proof. discriminate. Qed.

Lemma occurrences_singleton (kind : Node → bool) (position : Triple → Node) (t : Triple) :
  occurrences kind position {[ t ]} = if kind (position t) then 1 else 0.
Proof.
  unfold occurrences. destruct (kind (position t)) eqn:E.
  - assert (filter (λ t0, kind (position t0)) ({[ t ]} : gset Triple) = {[ t ]}) as ->.
    { apply set_eq. intros x. rewrite elem_of_filter, elem_of_singleton.
      split; [by intros [_ ?] |]. intros ->. by rewrite E. }
    apply size_singleton.
  - assert (filter (λ t0, kind (position t0)) ({[ t ]} : gset Triple) = ∅) as ->.
    { apply set_eq. intros x. rewrite elem_of_filter, elem_of_singleton.
      split; [| by intros ?%not_elem_of_empty]. intros [H ->]. by rewrite E in H. }
    apply size_empty.
Qed.

(** The triples of the graph that [merge_graphs] makes when no target is
    supplied: the union of the triples of the inputs. *)
Lemma merge_graphs_triples config (gs : list loc) w :
  ∃ tg n w',
    merge_graphs config gs None w = (Ok (tg, n), w')
    ∧ (tg ∉ dom (graphs w))
    ∧ triples_at w' tg = ⋃ (triples_at w <$> gs).
Proof.
  unfold merge_graphs, bind.
  destruct (new_graph_spec w) as (tg & w1 & -> & Hfresh & Htg & T1 & C1 & L1).
  destruct (add_common_namespaces_spec config tg w1) as (w2 & -> & S2 & T2).
  destruct (merge_into_spec tg gs 0 w2) as (n & w3 & -> & S3 & T3);
    [by eapply is_Some_same_except |].
  assert (Hsame : ∀ l, triples_at w2 l = triples_at w l).
  { intros l. destruct (decide (l = tg)) as [->|Hl].
    - rewrite T2, T1. unfold triples_at.
      by rewrite (proj1 (not_elem_of_dom (graphs w) tg) Hfresh).
    - unfold triples_at. destruct S2 as (_ & _ & L2). by rewrite L2, L1. }
  exists tg, n, w3. split; [done |]. split; [done |].
  rewrite T3, T2, T1.
  assert ((triples_at w2 <$> gs) = (triples_at w <$> gs)) as ->.
  { apply list_fmap_ext. intros _ l _. apply Hsame. }
  set_solver.
Qed.

(** The [uris] counter of [validate_graph]. *)
Lemma validate_graph_uris graph w :
  ∃ st, validate_graph graph w = (Ok st, w)
    ∧ uris st
      = occurrences is_URIRef subject_of (triples_at w graph)
        + occurrences is_URIRef object_of (triples_at w graph).
Proof.
  eexists. split; [reflexivity |]. cbn [uris].
  destruct (tally_fold (elements (triples_at w graph)) tally0) as (_ & _ & _ & _ & _ & H6).
  cbv zeta in H6. rewrite H6. unfold occurrences.
  by rewrite !length_filter_elements.
Qed.

(** C2 (as amended).  For every graph, [validate_graph] returns, without
    touching the store, statistics in which [total_triples] is the number
    of triples, [unique_subjects], [unique_predicates] and [unique_objects]
    are the numbers of distinct subjects, predicates and objects,
    [blank_nodes] and [uris] count one per triple for a subject of that
    kind and one per triple for an object of that kind, [literals] counts
    one per triple whose object is a literal, and [errors] is empty; the
    predicate position adds to none of the three counters. *)
Theorem validate_graph_statistics graph w :
  ∃ st, validate_graph graph w = (Ok st, w)
    ∧ total_triples st = size (triples_at w graph)
    ∧ unique_subjects st = size (set_map subject_of (triples_at w graph) : gset Node)
    ∧ unique_predicates st = size (set_map predicate_of (triples_at w graph) : gset Node)
    ∧ unique_objects st = size (set_map object_of (triples_at w graph) : gset Node)
    ∧ blank_nodes st
      = occurrences is_BNode subject_of (triples_at w graph)
        + occurrences is_BNode object_of (triples_at w graph)
    ∧ literals st = occurrences is_Literal object_of (triples_at w graph)
    ∧ uris st
      = occurrences is_URIRef subject_of (triples_at w graph)
        + occurrences is_URIRef object_of (triples_at w graph)
    ∧ errors st = [].
Proof.
  eexists. split; [reflexivity |]. cbn [total_triples unique_subjects unique_predicates
    unique_objects blank_nodes literals uris errors].
  destruct (tally_fold (elements (triples_at w graph)) tally0)
    as (H1 & H2 & H3 & H4 & H5 & H6).
  cbv zeta in H1, H2, H3, H4, H5, H6.
  rewrite H1, H2, H3, H4, H5, H6. unfold occurrences.
  rewrite !length_filter_elements. simpl.
  unfold set_map. rewrite !(right_id_L ∅ (∪)).
  split_and!; done.
Qed.

(** C2, counterexample to the claim as stated.  On the graph that holds
    only [alice_name] (URI subject, URI predicate, literal object) the
    three positions hold two URIs, and [validate_graph] reports
    [uris = 1]: the predicate is not counted. *)
Lemma validate_graph_predicate_not_counted :
  ∃ st, validate_graph 1%positive sample_world = (Ok st, sample_world)
    ∧ uris st = 1
    ∧ occurrences is_URIRef subject_of (triples_at sample_world 1%positive)
      + occurrences is_URIRef predicate_of (triples_at sample_world 1%positive)
      + occurrences is_URIRef object_of (triples_at sample_world 1%positive) = 2
    ∧ uris st
      ≠ occurrences is_URIRef subject_of (triples_at sample_world 1%positive)
        + occurrences is_URIRef predicate_of (triples_at sample_world 1%positive)
        + occurrences is_URIRef object_of (triples_at sample_world 1%positive).
Proof.
  destruct (validate_graph_uris 1%positive sample_world) as (st & E & U).
  exists st. split; [exact E |].
  rewrite U, sample_triples_1, !occurrences_singleton.
  split; [reflexivity |]. split; [reflexivity |]. discriminate.
Qed.

(** C6 (as amended).  For a graph of the store, [filter_graph] returns a
    graph that holds a triple exactly when the input holds it and, for
    each of the three allow-lists that is supplied and not empty, the
    string of the corresponding component is in the list; an allow-list
    that is absent or empty constrains nothing.  With only a non-empty
    predicate allow-list the result is the set of the triples whose
    predicate string is in the list. *)
Theorem filter_graph_keeps config graph pf sf ob w :
  is_Some (graphs w !! graph) →
  ∃ fg w',
    filter_graph config graph pf sf ob w = (Ok fg, w')
    ∧ (∀ t, t ∈ triples_at w' fg ↔
            t ∈ triples_at w graph
            ∧ allowed pf (predicate_of t)
            ∧ allowed sf (subject_of t)
            ∧ allowed ob (object_of t))
    ∧ (∀ p ps, pf = Some (p :: ps) → sf = None → ob = None →
         triples_at w' fg
         = filter (λ t, node_str (predicate_of t) ∈ p :: ps) (triples_at w graph)).
Proof.
  intros Hg.
  destruct (select_into_new_graph config (filter_include pf sf ob) graph w Hg)
    as (fg & w' & E & _ & _ & _ & T).
  exists fg, w'. split; [exact E |]. split.
  - intros t. rewrite T, elem_of_filter, filter_include_allowed. naive_solver.
  - intros p ps -> -> ->. rewrite T. apply set_eq. intros t.
    rewrite !elem_of_filter, filter_include_allowed. simpl. naive_solver.
Qed.

(** [filter_graph_keeps] on graph [3] of [sample_world] with the
    predicate allow-list [[foaf:name]]: only [alice_name] is kept. *)
Lemma filter_graph_keeps_witness :
  ∃ fg w',
    filter_graph empty_config 3%positive (Some ["http://xmlns.com/foaf/0.1/name"])
      None None sample_world = (Ok fg, w')
    ∧ triples_at w' fg = {[ alice_name ]}.
Proof.
  assert (Hg : is_Some (graphs sample_world !! 3%positive))
    by (eexists; exact sample_world_3).
  destruct (filter_graph_keeps empty_config 3%positive
              (Some ["http://xmlns.com/foaf/0.1/name"]) None None sample_world Hg)
    as (fg & w' & E & _ & T).
  exists fg, w'. split; [exact E |].
  rewrite (T _ _ eq_refl eq_refl eq_refl), sample_triples_3.
  apply set_eq. intros t.
  rewrite elem_of_filter, elem_of_union, !elem_of_singleton, list_elem_of_singleton.
  split.
  - intros [Hp [-> | ->]]; [reflexivity | discriminate Hp].
  - intros ->. split; [reflexivity | by left].
Defined.

(** C6, counterexample to the claim as stated.  With the supplied but
    empty predicate allow-list, [filter_graph] keeps [alice_name], whose
    predicate string is not in that list. *)
Lemma filter_graph_empty_allow_list :
  ∃ fg w',
    filter_graph empty_config 1%positive (Some []) None None sample_world = (Ok fg, w')
    ∧ alice_name ∈ triples_at w' fg
    ∧ ¬ (alice_name ∈ triples_at sample_world 1%positive
         ∧ allowed_if_supplied (Some []) (predicate_of alice_name)
         ∧ allowed_if_supplied None (subject_of alice_name)
         ∧ allowed_if_supplied None (object_of alice_name)).
Proof.
  assert (Hg : is_Some (graphs sample_world !! 1%positive))
    by (eexists; exact sample_world_1).
  destruct (select_into_new_graph empty_config (filter_include (Some []) None None)
              1%positive sample_world Hg) as (fg & w' & E & _ & _ & _ & T).
  exists fg, w'. split; [exact E |]. split.
  - rewrite T, sample_triples_1. apply elem_of_filter.
    split; [exact I | by apply elem_of_singleton].
  - intros (_ & H & _). cbn [allowed_if_supplied] in H. by apply elem_of_nil in H.
Qed.

(** C7.  [merge_graphs] on two graphs, without a target, makes a new graph
    whose triples are the union of the two triple sets: its length is the
    sum of the two lengths when the sets are disjoint, and at most the sum
    in every case. *)
Theorem merge_graphs_two config (g1 g2 : loc) w :
  ∃ tg n w',
    merge_graphs config [g1; g2] None w = (Ok (tg, n), w')
    ∧ triples_at w' tg = triples_at w g1 ∪ triples_at w g2
    ∧ (triples_at w g1 ## triples_at w g2 →
       size (triples_at w' tg) = size (triples_at w g1) + size (triples_at w g2))
    ∧ size (triples_at w' tg) ≤ size (triples_at w g1) + size (triples_at w g2).
Proof.
  destruct (merge_graphs_triples config [g1; g2] w) as (tg & n & w' & E & _ & T).
  exists tg, n, w'. split; [exact E |].
  assert (T' : triples_at w' tg = triples_at w g1 ∪ triples_at w g2)
    by (rewrite T; simpl; set_solver).
  rewrite T'. split; [done |]. split.
  - apply size_union.
  - rewrite size_union_alt.
    assert (size (triples_at w g2 ∖ triples_at w g1) ≤ size (triples_at w g2))
      by (apply subseteq_size; set_solver).
    lia.
Qed.

(** [merge_graphs_two] on the disjoint graphs [1] and [2] of
    [sample_world] (length 1 + 1 = 2) and on the overlapping graphs [1]
    and [3] (length 2, below 1 + 2). *)
Lemma merge_graphs_two_witness :
  (∃ tg n w',
     merge_graphs empty_config [1%positive; 2%positive] None sample_world = (Ok (tg, n), w')
     ∧ size (triples_at w' tg) = 2)
  ∧ (∃ tg n w',
       merge_graphs empty_config [1%positive; 3%positive] None sample_world = (Ok (tg, n), w')
       ∧ size (triples_at w' tg) = 2).
Proof.
  assert (Hdiff : ({[ alice_name ]} : gset Triple) ## {[ alice_knows ]}).
  { apply disjoint_singleton_l. rewrite elem_of_singleton. exact alice_triples_differ. }
  split.
  - destruct (merge_graphs_two empty_config 1%positive 2%positive sample_world)
      as (tg & n & w' & E & _ & Hdisj & _).
    exists tg, n, w'. split; [exact E |].
    rewrite Hdisj; rewrite sample_triples_1, sample_triples_2; [| exact Hdiff].
    by rewrite !size_singleton.
  - destruct (merge_graphs_two empty_config 1%positive 3%positive sample_world)
      as (tg & n & w' & E & T & _ & _).
    exists tg, n, w'. split; [exact E |].
    rewrite T, sample_triples_1, sample_triples_3.
    rewrite (assoc_L (∪)), (idemp_L (∪)), size_union by exact Hdiff.
    by rewrite !size_singleton.
Defined.

(** C9.  For a graph of the store, [filter_graph] and [extract_schema]
    each return a graph object that did not exist before, different from
    the input, and leave the input graph with the triples it had; no
    graph object that existed before the call is modified. *)
Theorem filter_and_schema_leave_input config graph pf sf ob w :
  is_Some (graphs w !! graph) →
  (∃ fg w',
     filter_graph config graph pf sf ob w = (Ok fg, w')
     ∧ (fg ∉ dom (graphs w)) ∧ fg ≠ graph
     ∧ triples_at w' graph = triples_at w graph
     ∧ (∀ l, l ∈ dom (graphs w) → graphs w' !! l = graphs w !! l))
  ∧ (∃ sg w',
       extract_schema config graph w = (Ok sg, w')
       ∧ (sg ∉ dom (graphs w)) ∧ sg ≠ graph
       ∧ triples_at w' graph = triples_at w graph
       ∧ (∀ l, l ∈ dom (graphs w) → graphs w' !! l = graphs w !! l)).
Proof.
  intros Hg.
  assert (Hframe : ∀ f : Triple → bool, ∃ ng w',
    (let* n := new_graph in
     _add_common_namespaces config n ;;
     let* ts := graph_iter graph in
     for_each ts (λ t, if f t then graph_add n t else ret tt) ;;
     ret n) w = (Ok ng, w')
     ∧ (ng ∉ dom (graphs w)) ∧ ng ≠ graph
     ∧ triples_at w' graph = triples_at w graph
     ∧ (∀ l, l ∈ dom (graphs w) → graphs w' !! l = graphs w !! l)).
  { intros f.
    destruct (select_into_new_graph config f graph w Hg) as (ng & w' & E & Hfresh & _ & L & _).
    assert (Hne : ng ≠ graph) by (intros ->; by apply Hfresh, elem_of_dom).
    exists ng, w'. split; [exact E |]. split; [done |]. split; [done |]. split.
    - unfold triples_at. by rewrite L.
    - intros l Hl. apply L. by intros ->. }
  split.
  - exact (Hframe (filter_include pf sf ob)).
  - exact (Hframe is_schema_triple).
Qed.

(** [filter_and_schema_leave_input] on graph [3] of [sample_world]. *)
Lemma filter_and_schema_leave_input_witness :
  (∃ fg w',
     filter_graph empty_config 3%positive (Some ["http://xmlns.com/foaf/0.1/name"])
       None None sample_world = (Ok fg, w')
     ∧ fg ≠ 3%positive
     ∧ triples_at w' 3%positive = {[ alice_name ]} ∪ {[ alice_knows ]})
  ∧ (∃ sg w',
       extract_schema empty_config 3%positive sample_world = (Ok sg, w')
       ∧ sg ≠ 3%positive
       ∧ triples_at w' 3%positive = {[ alice_name ]} ∪ {[ alice_knows ]}).
Proof.
  assert (Hg : is_Some (graphs sample_world !! 3%positive))
    by (eexists; exact sample_world_3).
  destruct (filter_and_schema_leave_input empty_config 3%positive
              (Some ["http://xmlns.com/foaf/0.1/name"]) None None sample_world Hg)
    as [(fg & w1 & E1 & _ & N1 & T1 & _) (sg & w2 & E2 & _ & N2 & T2 & _)].
  split.
  - exists fg, w1. split; [exact E1 |]. split; [exact N1 |].
    by rewrite T1, sample_triples_3.
  - exists sg, w2. split; [exact E2 |]. split; [exact N2 |].
    by rewrite T2, sample_triples_3.
Defined.

End RDFToRDFFacts.

(** ** Source loader *)

Module RDFParserFacts.
Import Rdflib RdflibFacts FormatHandler RDFParser Batch.
#[local] Set Warnings "-clear-no-such-hyp".

Section LoaderFacts.
Variable config : Config.
Variable rdflib_parse : ParseInput → string → ParseOutcome.
Variable urlparse_scheme : string → option string.
Variable path_exists : string → bool.
Variable requests_get : string → list (string * string) → result Response.
Variable dataset_add_graph : Dataset → loc → string → result Dataset.

Lemma round_parsed input f ts w :
  rdflib_parse input (get_rdflib_format f) = Parsed ts →
  ∃ g w', attempt rdflib_parse input f w = (Ok g, w')
          ∧ (g ∉ dom (graphs w))
          ∧ triples_at w' g = ts
          ∧ parse_calls w' = (input, get_rdflib_format f) :: parse_calls w
          ∧ ∀ l, l ∈ dom (graphs w) → graphs w' !! l = graphs w !! l.
Proof.
  intros Hp. unfold attempt, bind.
  destruct (new_graph_spec w) as (g & w1 & -> & Hfresh & Hg & T1 & C1 & L1).
  unfold graph_parse. rewrite Hp. cbn beta iota zeta.
  eexists g, _. split; [reflexivity |]. split; [done |].
  split; [| split].
  - rewrite triples_at_alter, decide_True by done.
    destruct Hg as [o Ho]. rewrite Ho. simpl.
    unfold triples_at in T1. rewrite Ho in T1. rewrite T1. set_solver.
  - simpl. by rewrite C1.
  - intros l Hl. simpl.
    assert (l ≠ g) by (by intros ->).
    rewrite lookup_alter_ne by done. by apply L1.
Qed.

Lemma round_failed input f w :
  fails rdflib_parse input f →
  ∃ e w', attempt rdflib_parse input f w = (Raise e, w')
          ∧ dom (graphs w) ⊆ dom (graphs w')
          ∧ parse_calls w' = (input, get_rdflib_format f) :: parse_calls w
          ∧ ∀ l, l ∈ dom (graphs w) → graphs w' !! l = graphs w !! l.
Proof.
  intros (e & partial & Hp). unfold attempt, bind.
  destruct (new_graph_spec w) as (g & w1 & -> & Hfresh & Hg & T1 & C1 & L1).
  unfold graph_parse. rewrite Hp. cbn beta iota zeta.
  eexists e, _. split; [reflexivity |].
  assert (Hkeep : ∀ l, l ∈ dom (graphs w) →
            alter (λ o, mkGraph (g_triples o ∪ partial) (g_bindings o)) g (graphs w1) !! l
            = graphs w !! l).
  { intros l Hl. assert (l ≠ g) by (by intros ->).
    rewrite lookup_alter_ne by done. by apply L1. }
  split; [| split].
  - intros l Hl. simpl. apply elem_of_dom. rewrite (Hkeep l Hl). by apply elem_of_dom.
  - simpl. by rewrite C1.
  - exact Hkeep.
Qed.

Lemma try_each_round input f rest exhausted w :
  try_each rdflib_parse input (f :: rest) exhausted w
  = match attempt rdflib_parse input f w with
    | (Ok g, w') => (Ok g, w')
    | (Raise _, w') => try_each rdflib_parse input rest exhausted w'
    end.
Proof. reflexivity. Qed.

Lemma try_each_success input before f after ts exhausted w :
  Forall (fails rdflib_parse input) before →
  rdflib_parse input (get_rdflib_format f) = Parsed ts →
  ∃ g w', try_each rdflib_parse input (before ++ f :: after) exhausted w = (Ok g, w')
          ∧ (g ∉ dom (graphs w))
          ∧ triples_at w' g = ts
          ∧ parse_calls w' = rev (calls_of input (before ++ [f])) ++ parse_calls w
          ∧ ∀ l, l ∈ dom (graphs w) → graphs w' !! l = graphs w !! l.
Proof.
  intros Hbefore Hp. revert w.
  induction Hbefore as [|f0 before Hf0 _ IH]; intros w.
  - simpl app. rewrite try_each_round.
    destruct (round_parsed input f ts w Hp) as (g & w' & -> & ? & ? & ? & ?).
    by exists g, w'.
  - rewrite <- !app_comm_cons, try_each_round.
    destruct (round_failed input f0 w Hf0) as (e & w1 & -> & Hdom & C1 & L1).
    destruct (IH w1) as (g & w' & -> & Hfresh & T & C & L).
    exists g, w'. split; [done |]. split; [set_solver |]. split; [done |]. split.
    + rewrite C, C1. unfold calls_of. simpl. by rewrite <- app_assoc.
    + intros l Hl. rewrite L by set_solver. by apply L1.
Qed.

Lemma try_each_exhausted input alternatives e0 w :
  Forall (fails rdflib_parse input) alternatives →
  ∃ w', try_each rdflib_parse input alternatives (raise e0) w = (Raise e0, w')
        ∧ parse_calls w' = rev (calls_of input alternatives) ++ parse_calls w.
Proof.
  intros Hall. revert w. induction Hall as [|f rest Hf _ IH]; intros w.
  - by exists w.
  - rewrite try_each_round.
    destruct (round_failed input f w Hf) as (e & w1 & -> & _ & C1 & _).
    destruct (IH w1) as (w' & -> & C). exists w'. split; [done |].
    rewrite C, C1. unfold calls_of. simpl. by rewrite <- app_assoc.
Qed.

Lemma try_each_calls_bound input alternatives exhausted w :
  (∀ w0, parse_calls (exhausted w0).2 = parse_calls w0) →
  length (parse_calls (try_each rdflib_parse input alternatives exhausted w).2)
  ≤ length (parse_calls w) + length alternatives.
Proof.
  intros Hex. revert w. induction alternatives as [|f rest IH]; intros w.
  - simpl. rewrite Hex. lia.
  - rewrite try_each_round.
    destruct (rdflib_parse input (get_rdflib_format f)) as [ts|e partial] eqn:Hp.
    + destruct (round_parsed input f ts w Hp) as (g & w' & -> & _ & _ & C & _).
      simpl. rewrite C. simpl. lia.
    + destruct (round_failed input f w) as (e' & w1 & -> & _ & C1 & _);
        [by exists e, partial |].
      specialize (IH w1). rewrite C1 in IH. simpl in IH |- *. lia.
Qed.

Lemma alternatives_for_filter failed_format :
  alternatives_for failed_format
  = filter (λ f, f ≠ failed_format) [TURTLE; RDF_XML; N_TRIPLES; JSON_LD].
Proof. by destruct failed_format. Qed.

Lemma alternatives_for_length failed_format :
  length (alternatives_for failed_format) = retry_bound failed_format.
Proof. by destruct failed_format. Qed.

Lemma try_each_retried input source_name failed_format w :
  retried rdflib_parse input source_name failed_format (retry_bound failed_format) w
    (try_each rdflib_parse input (alternatives_for failed_format)
       (raise (RDFParsingError (exhausted_message source_name))) w).
Proof.
  unfold retried. cbv zeta. split; [| split].
  - intros before f after ts -> Hbefore Hp.
    destruct (try_each_success input before f after ts
                (raise (RDFParsingError (exhausted_message source_name))) w Hbefore Hp)
      as (g & w' & -> & ? & ? & ? & ?).
    by exists g.
  - intros Hall.
    destruct (try_each_exhausted input _ (RDFParsingError (exhausted_message source_name))
                w Hall) as (w' & -> & C).
    done.
  - rewrite <- alternatives_for_length. by apply try_each_calls_bound.
Qed.

(** [graph.parse] creates and deletes no graph object. *)
Lemma graph_parse_dom graph input fmt w :
  dom (graphs (graph_parse rdflib_parse graph input fmt w).2) = dom (graphs w).
Proof.
  unfold graph_parse.
  destruct (rdflib_parse input fmt); cbn [snd graphs]; apply set_eq; intros l;
    rewrite !elem_of_dom, lookup_alter;
    (destruct (decide (graph = l)) as [->|]; [by rewrite fmap_is_Some | done]).
Qed.

(** The world after the initial [graph.parse] call. *)
Lemma graph_parse_failed graph input fmt e partial w :
  rdflib_parse input fmt = ParseFailed e partial →
  (graph_parse rdflib_parse graph input fmt w).1 = Raise e.
Proof. intros Hp. unfold graph_parse. by rewrite Hp. Qed.

Lemma parse_from_file_retries graph file_path format_hint w e partial :
  path_exists (path_str file_path) = true →
  rdflib_parse (FromLocation (path_str file_path))
    (get_rdflib_format (format_of_hint format_hint (detect_format file_path None)))
  = ParseFailed e partial →
  _parse_from_file rdflib_parse path_exists graph file_path format_hint w
  = _try_alternative_formats rdflib_parse graph (path_str file_path)
      (format_of_hint format_hint (detect_format file_path None))
      (graph_parse rdflib_parse graph (FromLocation (path_str file_path))
         (get_rdflib_format (format_of_hint format_hint (detect_format file_path None)))
         w).2.
Proof.
  intros Hex Hp. unfold _parse_from_file. rewrite Hex. cbn [negb].
  unfold try_except, bind.
  pose proof (graph_parse_failed graph _ _ e partial w Hp) as Hr.
  destruct (graph_parse rdflib_parse graph _ _ w) as [[?|?] w1]; [discriminate Hr |].
  reflexivity.
Qed.

Lemma parse_from_stream_retries graph content format_hint w e partial :
  rdflib_parse (FromData content None)
    (get_rdflib_format (format_of_hint format_hint TURTLE))
  = ParseFailed e partial →
  _parse_from_stream rdflib_parse graph (Ok content) format_hint w
  = _try_alternative_formats_from_data rdflib_parse graph content "stream"
      (format_of_hint format_hint TURTLE)
      (graph_parse rdflib_parse graph (FromData content None)
         (get_rdflib_format (format_of_hint format_hint TURTLE)) w).2.
Proof.
  intros Hp. unfold _parse_from_stream, try_except, bind.
  pose proof (graph_parse_failed graph _ _ e partial w Hp) as Hr.
  destruct (graph_parse rdflib_parse graph _ _ w) as [[?|?] w1]; [discriminate Hr |].
  reflexivity.
Qed.

Lemma parse_from_url_retries graph url format_hint content_type response w e partial :
  requests_get url (request_headers config) = Ok response →
  status_error response = None →
  rdflib_parse (FromData (text response) (Some url))
    (get_rdflib_format
       (format_of_hint format_hint
          (detect_format url (actual_content_type content_type response))))
  = ParseFailed e partial →
  (∀ m, e ≠ RequestException m) →
  _parse_from_url config rdflib_parse requests_get graph url format_hint content_type w
  = _try_alternative_formats_from_data rdflib_parse graph (text response) url
      (format_of_hint format_hint
         (detect_format url (actual_content_type content_type response)))
      (graph_parse rdflib_parse graph (FromData (text response) (Some url))
         (get_rdflib_format
            (format_of_hint format_hint
               (detect_format url (actual_content_type content_type response)))) w).2.
Proof.
  intros Hget Hstatus Hp Hne. unfold _parse_from_url. rewrite Hget, Hstatus.
  unfold try_except, bind.
  pose proof (graph_parse_failed graph _ _ e partial w Hp) as Hr.
  destruct (graph_parse rdflib_parse graph _ _ w) as [[?|e'] w1]; [discriminate Hr |].
  simpl in Hr. injection Hr as ->.
  destruct e as [m|m|m]; [reflexivity | by destruct (Hne m) | reflexivity].
Qed.

(** C1 (as amended).  The candidates of a retry are Turtle, RDF/XML,
    N-Triples and JSON-LD, in this order, without the format that failed;
    both retry functions try them in order, each on a new empty graph,
    stop at the first that parses and return its graph, and raise a
    parsing error that names the source when all fail; at most three
    attempts are made when the failed format is one of the four
    candidates, and at most four otherwise.  The three loaders (file,
    stream, URL) enter the retry when their first parse raises. *)
Theorem fallback_retry :
  (∀ failed_format,
     alternatives_for failed_format
     = filter (λ f, f ≠ failed_format) [TURTLE; RDF_XML; N_TRIPLES; JSON_LD]
     ∧ (failed_format ∈ [TURTLE; RDF_XML; N_TRIPLES; JSON_LD] →
        retry_bound failed_format = 3)
     ∧ (failed_format ∉ [TURTLE; RDF_XML; N_TRIPLES; JSON_LD] →
        retry_bound failed_format = 4))
  ∧ (∀ graph source failed_format w,
       retried rdflib_parse (FromLocation source) source failed_format
         (retry_bound failed_format) w
         (_try_alternative_formats rdflib_parse graph source failed_format w))
  ∧ (∀ graph data source_name failed_format w,
       retried rdflib_parse (FromData data None) source_name failed_format
         (retry_bound failed_format) w
         (_try_alternative_formats_from_data rdflib_parse graph data source_name
            failed_format w))
  ∧ (∀ graph file_path format_hint w e partial,
       path_exists (path_str file_path) = true →
       rdflib_parse (FromLocation (path_str file_path))
         (get_rdflib_format (format_of_hint format_hint (detect_format file_path None)))
       = ParseFailed e partial →
       _parse_from_file rdflib_parse path_exists graph file_path format_hint w
       = _try_alternative_formats rdflib_parse graph (path_str file_path)
           (format_of_hint format_hint (detect_format file_path None))
           (graph_parse rdflib_parse graph (FromLocation (path_str file_path))
              (get_rdflib_format
                 (format_of_hint format_hint (detect_format file_path None))) w).2)
  ∧ (∀ graph content format_hint w e partial,
       rdflib_parse (FromData content None)
         (get_rdflib_format (format_of_hint format_hint TURTLE))
       = ParseFailed e partial →
       _parse_from_stream rdflib_parse graph (Ok content) format_hint w
       = _try_alternative_formats_from_data rdflib_parse graph content "stream"
           (format_of_hint format_hint TURTLE)
           (graph_parse rdflib_parse graph (FromData content None)
              (get_rdflib_format (format_of_hint format_hint TURTLE)) w).2)
  ∧ (∀ graph url format_hint content_type response w e partial,
       requests_get url (request_headers config) = Ok response →
       status_error response = None →
       rdflib_parse (FromData (text response) (Some url))
         (get_rdflib_format
            (format_of_hint format_hint
               (detect_format url (actual_content_type content_type response))))
       = ParseFailed e partial →
       (∀ m, e ≠ RequestException m) →
       _parse_from_url config rdflib_parse requests_get graph url format_hint
         content_type w
       = _try_alternative_formats_from_data rdflib_parse graph (text response) url
           (format_of_hint format_hint
              (detect_format url (actual_content_type content_type response)))
           (graph_parse rdflib_parse graph (FromData (text response) (Some url))
              (get_rdflib_format
                 (format_of_hint format_hint
                    (detect_format url (actual_content_type content_type response))))
              w).2).
Proof.
  split_and!.
  - intros failed_format. split; [apply alternatives_for_filter |].
    unfold retry_bound. split; intros H.
    + by rewrite bool_decide_eq_true_2.
    + by rewrite bool_decide_eq_false_2.
  - intros graph source failed_format w. apply try_each_retried.
  - intros graph data source_name failed_format w. apply try_each_retried.
  - apply parse_from_file_retries.
  - apply parse_from_stream_retries.
  - apply parse_from_url_retries.
Qed.

(** Whatever goes wrong inside [parse] leaves it as a parsing error. *)
Lemma parse_raises_parsing_error source format_hint content_type w e w' :
  parse config rdflib_parse urlparse_scheme path_exists requests_get
    source format_hint content_type w = (Raise e, w') →
  ∃ m, e = RDFParsingError m.
Proof.
  unfold parse, try_except.
  match goal with
  | |- (match ?x with _ => _ end) = _ → _ => destruct x as [[g|e0] w1]
  end.
  - discriminate.
  - unfold raise. intros [= <- _]. eauto.
Qed.

(** A path that is no URL and names no file. *)
Lemma parse_file_not_found file_path format_hint content_type w :
  _is_url urlparse_scheme file_path = false →
  path_exists (path_str file_path) = false →
  ∃ w', parse config rdflib_parse urlparse_scheme path_exists requests_get
          (SrcPath file_path) format_hint content_type w
        = (Raise (RDFParsingError
                    ("RDF parsing failed: File not found: " +:+ file_path)), w').
Proof.
  intros Hurl Hex. unfold parse, try_except, bind.
  destruct (new_graph_spec w) as (g & w1 & -> & _).
  rewrite Hurl. unfold _parse_from_file. rewrite Hex. cbn [negb].
  unfold raise. cbn [exn_str]. by eexists.
Qed.

Lemma add_sources_ok format_hints sources dataset w :
  ∃ dataset' w',
    add_sources config rdflib_parse urlparse_scheme path_exists requests_get
      dataset_add_graph format_hints dataset sources w = (Ok dataset', w')
    ∧ collected config rdflib_parse urlparse_scheme path_exists requests_get
        dataset_add_graph format_hints dataset w sources dataset' w'
    ∧ ((∀ source w0, source ∈ sources →
          source_fails config rdflib_parse urlparse_scheme path_exists requests_get
            dataset_add_graph format_hints dataset source w0) →
       dataset' = dataset).
Proof.
  revert dataset w. induction sources as [|source rest IH]; intros dataset w.
  - exists dataset, w. split; [done |]. split; [constructor | done].
  - cbn [add_sources]. unfold bind, add_source, try_except, bind.
    destruct (parse config rdflib_parse urlparse_scheme path_exists requests_get source
                (dict_get (source_str source) format_hints) None w) as [[g|e] w1] eqn:Ep.
    + destruct (dataset_add_graph dataset g (source_str source)) as [d1|e] eqn:Ed.
      * destruct (IH d1 w1) as (d2 & w2 & E2 & C2 & _).
        exists d2, w2. split; [exact E2 |].
        split; [by eapply collected_registered |].
        intros Hall. exfalso.
        assert (Hs : source ∈ source :: rest) by (by left).
        specialize (Hall source w Hs). unfold source_fails in Hall.
        rewrite Ep, Ed in Hall. by destruct Hall.
      * destruct (IH dataset w1) as (d2 & w2 & E2 & C2 & Hrest).
        exists d2, w2. split; [exact E2 |].
        split; [by eapply collected_registration_raises |].
        intros Hall. apply Hrest. intros s w0 Hs. apply Hall. by right.
    + destruct (IH dataset w1) as (d2 & w2 & E2 & C2 & Hrest).
      exists d2, w2. split; [exact E2 |].
      split; [by eapply collected_parse_raises |].
      intros Hall. apply Hrest. intros s w0 Hs. apply Hall. by right.
Qed.

(** A file that exists and parses at the first attempt gives a graph. *)
Lemma parse_existing_file file_path format_hint content_type ts w :
  _is_url urlparse_scheme file_path = false →
  path_exists (path_str file_path) = true →
  rdflib_parse (FromLocation (path_str file_path))
    (get_rdflib_format (format_of_hint format_hint (detect_format file_path None)))
  = Parsed ts →
  ∃ g w', parse config rdflib_parse urlparse_scheme path_exists requests_get
            (SrcPath file_path) format_hint content_type w = (Ok g, w').
Proof.
  intros Hurl Hex Hp. unfold parse, try_except, bind, new_graph.
  rewrite Hurl. unfold _parse_from_file. rewrite Hex. cbn [negb].
  unfold try_except, bind, graph_parse. rewrite Hp. by eexists _, _.
Qed.

(** C10.  [parse_to_dataset] returns a dataset for every list of
    sources.  The sources are taken in order up to the last one: a source
    whose parse or registration raises is skipped, the dataset staying as
    it was, and the loop goes on with the next source; a source that
    parses and registers gives the registered dataset.  The result is the
    empty dataset when every source fails.  [parse] on a single source,
    in contrast, raises, and what it raises is a parsing error. *)
Theorem parse_to_dataset_never_raises :
  (∀ sources format_hints w,
     ∃ dataset w',
       parse_to_dataset config rdflib_parse urlparse_scheme path_exists requests_get
         dataset_add_graph sources format_hints w = (Ok dataset, w')
       ∧ collected config rdflib_parse urlparse_scheme path_exists requests_get
           dataset_add_graph (default [] format_hints) [] w sources dataset w'
       ∧ ((∀ source w0, source ∈ sources →
             source_fails config rdflib_parse urlparse_scheme path_exists requests_get
               dataset_add_graph (default [] format_hints) [] source w0) →
          dataset = []))
  ∧ (∀ source format_hint content_type w e w',
       parse config rdflib_parse urlparse_scheme path_exists requests_get
         source format_hint content_type w = (Raise e, w') →
       ∃ m, e = RDFParsingError m).
Proof.
  split.
  - intros sources format_hints w. unfold parse_to_dataset.
    destruct format_hints as [d|]; apply add_sources_ok.
  - apply parse_raises_parsing_error.
Qed.

End LoaderFacts.

(** [fallback_retry] on the file [people.rdf], which holds Turtle: the
    extension selects RDF/XML, that parse raises, and the first candidate
    of the retry, Turtle, parses into a new graph that holds exactly what
    was read.  Two parse calls were made. *)
Lemma fallback_retry_witness :
  ∃ g w',
    _parse_from_file only_turtle every_file 1%positive "people.rdf" None fresh_world
    = (Ok g, w')
    ∧ g ≠ 1%positive
    ∧ triples_at w' g = {[ RDFToRDF.alice_name ]}
    ∧ parse_calls w' = [ (FromLocation "people.rdf", "turtle"%string);
                         (FromLocation "people.rdf", "xml"%string) ].
Proof.
  pose proof (fallback_retry empty_config only_turtle every_file network_down)
    as (_ & Hretry & _ & Hfile & _).
  assert (Hfmt : format_of_hint None (detect_format "people.rdf" None) = RDF_XML)
    by (vm_compute; reflexivity).
  assert (Hpath : path_str "people.rdf" = "people.rdf"%string)
    by (vm_compute; reflexivity).
  assert (Hfirst : only_turtle (FromLocation (path_str "people.rdf"))
                     (get_rdflib_format
                        (format_of_hint None (detect_format "people.rdf" None)))
                   = ParseFailed (LibraryError "syntax error") ∅)
    by (rewrite Hfmt; reflexivity).
  rewrite (Hfile 1%positive "people.rdf"%string None fresh_world _ _ eq_refl Hfirst).
  rewrite Hfmt, Hpath.
  set (w1 := (graph_parse only_turtle 1%positive (FromLocation "people.rdf")
                (get_rdflib_format RDF_XML) fresh_world).2).
  destruct (Hretry 1%positive "people.rdf"%string RDF_XML w1) as (Hsuccess & _ & _).
  destruct (Hsuccess [] TURTLE [N_TRIPLES; JSON_LD] {[ RDFToRDF.alice_name ]}
              eq_refl (Forall_nil_2 _) eq_refl)
    as (g & Hr & Hfresh & Ht & Hc & _).
  destruct (_try_alternative_formats only_turtle 1%positive "people.rdf" RDF_XML w1)
    as [r w'].
  cbn [fst snd] in Hr, Ht, Hc. subst r.
  exists g, w'. split; [reflexivity |]. split; [| split; [exact Ht | exact Hc]].
  intros ->. apply Hfresh. subst w1. rewrite graph_parse_dom.
  unfold fresh_world. cbn [graphs]. rewrite dom_singleton_L. by apply elem_of_singleton.
Defined.

(** C1, counterexample to the claim as stated.  After a failed TriG parse
    of a source that no candidate can read, the retry makes four attempts,
    not three: TriG is not in the candidate list, so nothing is removed
    from it. *)
Lemma retry_after_trig_makes_four_attempts :
  ∃ w',
    _try_alternative_formats never_parses 1%positive "data.trig" TRIG fresh_world
    = (Raise (RDFParsingError (exhausted_message "data.trig")), w')
    ∧ parse_calls w'
      = [ (FromLocation "data.trig", "json-ld"%string);
          (FromLocation "data.trig", "nt"%string);
          (FromLocation "data.trig", "xml"%string);
          (FromLocation "data.trig", "turtle"%string) ]
    ∧ ¬ (length (parse_calls w') ≤ length (parse_calls fresh_world) + 3).
Proof.
  assert (Hall : Forall (fails never_parses (FromLocation "data.trig"))
                   (alternatives_for TRIG)).
  { repeat constructor; by exists (LibraryError "syntax error"), ∅. }
  destruct (try_each_exhausted never_parses (FromLocation "data.trig")
              (alternatives_for TRIG)
              (RDFParsingError (exhausted_message "data.trig")) fresh_world Hall)
    as (w' & E & C).
  exists w'. split; [exact E |]. rewrite C. split; [reflexivity |].
  vm_compute. lia.
Qed.

(** [parse_to_dataset_never_raises] on a source that names no file
    followed by one that parses: the first is skipped, the second is
    registered, and the dataset holds the graph of the second alone;
    [parse] on the first raises a parsing error. *)
Lemma parse_to_dataset_never_raises_witness :
  (∃ g w',
     parse_to_dataset empty_config only_turtle no_scheme Examples.only_good network_down
       register [SrcPath "missing.ttl"; SrcPath "good.ttl"] None fresh_world
     = (Ok [("good.ttl"%string, g)], w'))
  ∧ (∃ w',
       parse empty_config only_turtle no_scheme Examples.only_good network_down
         (SrcPath "missing.ttl") None None fresh_world
       = (Raise (RDFParsingError "RDF parsing failed: File not found: missing.ttl"), w')).
Proof.
  pose proof (parse_to_dataset_never_raises empty_config only_turtle no_scheme
                Examples.only_good network_down register) as (Hall & _).
  split.
  - destruct (Hall [SrcPath "missing.ttl"; SrcPath "good.ttl"] None fresh_world)
      as (dataset & w' & E & Hcol & _).
    assert (Hmissing : ∀ w, ∃ e w1,
              parse empty_config only_turtle no_scheme Examples.only_good network_down
                (SrcPath "missing.ttl") (dict_get "missing.ttl" []) None w = (Raise e, w1)).
    { intros w.
      destruct (parse_file_not_found empty_config only_turtle no_scheme Examples.only_good
                  network_down "missing.ttl" (dict_get "missing.ttl" []) None w
                  eq_refl eq_refl) as (w1 & Hnf).
      by eexists _, _. }
    assert (Hgood : ∀ w, ∃ g w1,
              parse empty_config only_turtle no_scheme Examples.only_good network_down
                (SrcPath "good.ttl") (dict_get "good.ttl" []) None w = (Ok g, w1)).
    { intros w.
      assert (Hfmt : get_rdflib_format
                       (format_of_hint (dict_get "good.ttl" [])
                          (detect_format "good.ttl" None)) = "turtle"%string)
        by (vm_compute; reflexivity).
      apply (parse_existing_file empty_config only_turtle no_scheme Examples.only_good
               network_down "good.ttl" (dict_get "good.ttl" []) None
               {[ RDFToRDF.alice_name ]} w eq_refl eq_refl).
      rewrite Hfmt. reflexivity. }
    cbn [default] in Hcol.
    assert (Hds : ∃ g, dataset = [("good.ttl"%string, g)]).
    { inversion Hcol as [| d w0 s rest e w1 d' w'' Hp Hrest
                          | d w0 s rest g w1 e d' w'' Hp Hreg Hrest
                          | d w0 s rest g w1 d1 d' w'' Hp Hreg Hrest]; subst;
        cbn [source_str] in *;
        destruct (Hmissing fresh_world) as (e0 & wm & Hm); rewrite Hm in Hp;
        try discriminate.
      injection Hp as <- <-.
      inversion Hrest as [| d w0 s rest e' w2 d' w'' Hp2 Hrest2
                           | d w0 s rest g w2 e' d' w'' Hp2 Hreg2 Hrest2
                           | d w0 s rest g w2 d1 d' w'' Hp2 Hreg2 Hrest2]; subst;
        cbn [source_str] in *;
        destruct (Hgood wm) as (g0 & wg & Hg); rewrite Hg in Hp2;
        try discriminate.
      injection Hp2 as <- <-. unfold register in Hreg2. injection Hreg2 as <-.
      inversion Hrest2; subst. by exists g0. }
    destruct Hds as (g & ->). by exists g, w'.
  - exact (parse_file_not_found empty_config only_turtle no_scheme Examples.only_good
             network_down "missing.ttl" None None fresh_world eq_refl eq_refl).
Defined.

End RDFParserFacts.

(** ** Query dispatcher *)

Module UnicodeFacts.
Import Unicode.

Lemma startswith_spec (s p : text) : startswith s p = true ↔ ∃ rest, s = p ++ rest.
Proof.
  revert s. induction p as [|a p IH]; intros s.
  - simpl. split; [| done]. intros _. by exists s.
  - destruct s as [|b s]; simpl.
    + split; [discriminate | by intros [rest ?]].
    + rewrite andb_true_iff, N.eqb_eq, IH. split.
      * intros [-> [rest ->]]. by exists rest.
      * intros [rest [= -> ->]]. split; [done | by exists rest].
Qed.

Lemma contains_spec (p s : text) :
  contains p s = true ↔ ∃ before after, s = before ++ p ++ after.
Proof.
  induction s as [|c s IH]; cbn [contains].
  - rewrite orb_false_r, startswith_spec. split.
    + intros [rest H]. by exists [], rest.
    + intros (before & after & H). symmetry in H.
      apply app_eq_nil in H as [-> H]. apply app_eq_nil in H as [-> ->]. by exists [].
  - rewrite orb_true_iff, startswith_spec, IH. split.
    + intros [[rest H] | (b & a & ->)]; [by exists [], rest | by exists (c :: b), a].
    + intros ([|x b] & a & H).
      * left. by exists a.
      * right. injection H as -> ->. by exists b, a.
Qed.

Lemma startswith_first (s : text) (a b : char) (p p' : text) :
  startswith s (a :: p) = true → startswith s (b :: p') = true → a = b.
Proof.
  destruct s as [|c s]; simpl; [discriminate |].
  rewrite !andb_true_iff, !N.eqb_eq. by intros [-> _] [-> _].
Qed.

Lemma upper_app db (a b : text) : upper db (a ++ b) = upper db a ++ upper db b.
Proof. apply bind_app. Qed.

Lemma upper_cons db (c : char) (s : text) :
  upper db (c :: s) = upper_char db c ++ upper db s.
Proof. reflexivity. Qed.

(** On the ASCII range upper-casing neither makes nor removes white
    space. *)
Lemma ascii_upper_keeps_space (c : char) :
  ascii_isspace c = true → ascii_upper c = c.
Proof.
  unfold ascii_isspace, ascii_upper.
  destruct (N.leb_spec 97 c), (N.leb_spec c 122); cbn [andb]; try done.
  destruct (N.leb_spec 9 c), (N.leb_spec c 13), (N.leb_spec 28 c), (N.leb_spec c 32);
    cbn [andb orb]; try done; lia.
Qed.

Lemma ascii_upper_no_space (c : char) :
  is_ascii c = true → ascii_isspace c = false →
  is_ascii (ascii_upper c) = true ∧ ascii_isspace (ascii_upper c) = false.
Proof.
  unfold is_ascii, ascii_isspace, ascii_upper. intros Hc%N.ltb_lt Hs.
  destruct (N.leb_spec 97 c), (N.leb_spec c 122); cbn [andb]; try (split; [by apply N.ltb_lt | done]).
  split; [apply N.ltb_lt; lia |].
  destruct (N.leb_spec 9 (c - 32)), (N.leb_spec (c - 32) 13), (N.leb_spec 28 (c - 32)),
    (N.leb_spec (c - 32) 32); cbn [andb orb]; try done; lia.
Qed.

Lemma upper_char_space db (c : char) :
  well_behaved db → is_space db c = true → upper_char db c = [c].
Proof.
  intros Hdb. unfold is_space, upper_char. destruct (is_ascii c) eqn:E.
  - intros H. by rewrite ascii_upper_keeps_space.
  - intros H. by apply (Hdb c E).
Qed.

Lemma upper_char_no_space db (c : char) :
  well_behaved db → is_space db c = false →
  ∃ d ds, upper_char db c = d :: ds ∧ Forall (λ x, is_space db x = false) (d :: ds).
Proof.
  intros Hdb. unfold upper_char. unfold is_space at 1. destruct (is_ascii c) eqn:E.
  - intros H. destruct (ascii_upper_no_space c E H) as [Ha Hs].
    eexists _, _. split; [done |]. constructor; [| done].
    unfold is_space. by rewrite Ha.
  - intros H. destruct (Hdb c E) as [_ Hno]. destruct (Hno H) as [Hne Hall].
    destruct (to_upper db c) as [|d ds]; [done |]. by exists d, ds.
Qed.

(** *** Stripping *)

Lemma lstrip_by_bind (sp : char → bool) (g : char → text) (s : text) :
  (∀ c, sp c = true → g c = [c]) →
  (∀ c, sp c = false → ∃ d ds, g c = d :: ds ∧ sp d = false) →
  lstrip_by sp (s ≫= g) = lstrip_by sp s ≫= g.
Proof.
  intros Hsp Hno. induction s as [|c s IH]; [done |].
  rewrite bind_cons. cbn [lstrip_by]. destruct (sp c) eqn:E.
  - rewrite (Hsp c E). cbn [app lstrip_by]. by rewrite E.
  - destruct (Hno c E) as (d & ds & Hg & Hd). rewrite bind_cons, Hg.
    cbn [app lstrip_by]. by rewrite Hd.
Qed.

Lemma reverse_bind (g : char → text) (s : text) :
  reverse (s ≫= g) = reverse s ≫= (λ c, reverse (g c)).
Proof.
  induction s as [|c s IH]; [done |].
  rewrite bind_cons, reverse_app, reverse_cons, bind_app, IH. cbn. by rewrite app_nil_r.
Qed.

Lemma strip_upper db (q : text) :
  well_behaved db → strip db (upper db q) = upper db (strip db q).
Proof.
  intros Hdb. unfold strip, strip_by, rstrip_by, upper.
  rewrite lstrip_by_bind.
  - rewrite reverse_bind, lstrip_by_bind, reverse_bind.
    + apply list_bind_ext; [| done]. intros c. apply reverse_involutive.
    + intros c Hc. by rewrite (upper_char_space db c Hdb Hc).
    + intros c Hc. destruct (upper_char_no_space db c Hdb Hc) as (d & ds & -> & Hall).
      assert (Hrev : Forall (λ x, is_space db x = false) (reverse (d :: ds)))
        by (by apply Forall_reverse).
      destruct (reverse (d :: ds)) as [|x xs] eqn:Er.
      * apply (f_equal length) in Er. rewrite length_reverse in Er. done.
      * exists x, xs. split; [done |]. by apply Forall_cons in Hrev as [? _].
  - intros c Hc. by apply upper_char_space.
  - intros c Hc. destruct (upper_char_no_space db c Hdb Hc) as (d & ds & -> & Hall).
    exists d, ds. split; [done |]. by apply Forall_cons in Hall as [? _].
Qed.

(** *** Texts of ASCII characters

    On a text of ASCII characters the database plays no part, and the
    case-insensitive notions are the letter-by-letter ones. *)

Lemma upper_ascii db (s : text) :
  Forall (λ c, is_ascii c = true) s → upper db s = ascii_upper <$> s.
Proof.
  induction 1 as [|c s Hc _ IH]; [done |].
  rewrite upper_cons, fmap_cons, IH. unfold upper_char. by rewrite Hc.
Qed.

Lemma ci_prefix_ascii db (p s : text) :
  Forall (λ c, is_ascii c = true) p → Forall (λ c, is_ascii c = true) s →
  SPARQLProcessor.ci_prefix db p s
  ↔ ∃ head rest, s = head ++ rest ∧ ascii_upper <$> head = ascii_upper <$> p.
Proof.
  intros Hp Hs. unfold SPARQLProcessor.ci_prefix.
  rewrite (upper_ascii db p Hp), (upper_ascii db s Hs). split.
  - intros [rest H]. apply fmap_app_inv in H as (head & r & Hh & _ & ->).
    by exists head, r.
  - intros (head & rest & -> & Hh). exists (ascii_upper <$> rest).
    by rewrite fmap_app, Hh.
Qed.

Lemma ci_occurs_ascii db (p s : text) :
  Forall (λ c, is_ascii c = true) p → Forall (λ c, is_ascii c = true) s →
  SPARQLProcessor.ci_occurs db p s
  ↔ ∃ before mid after,
      s = before ++ mid ++ after ∧ ascii_upper <$> mid = ascii_upper <$> p.
Proof.
  intros Hp Hs. unfold SPARQLProcessor.ci_occurs.
  rewrite (upper_ascii db p Hp), (upper_ascii db s Hs). split.
  - intros (B & A & H). apply fmap_app_inv in H as (b & r & _ & Hr & ->).
    symmetry in Hr. apply fmap_app_inv in Hr as (m & a & Hm & _ & ->).
    by exists b, m, a.
  - intros (b & m & a & -> & Hm).
    exists (ascii_upper <$> b), (ascii_upper <$> a). by rewrite !fmap_app, Hm.
Qed.

End UnicodeFacts.

(** ** sparql_processor.py *)

Module SPARQLProcessorFacts.
Import Unicode UnicodeFacts SPARQLProcessor.
#[local] Set Warnings "-clear-no-such-hyp".

Section QueryFacts.
Variable db : Database.

(** The keyword tests of [_get_query_type], read on the trimmed text. *)
Lemma keyword_test (kw q : text) :
  well_behaved db → upper db kw = kw →
  startswith (strip db (upper db q)) kw = true ↔ ci_prefix db kw (strip db q).
Proof.
  intros Hdb Hkw. rewrite (strip_upper db q Hdb), startswith_spec.
  unfold ci_prefix. by rewrite Hkw.
Qed.

(** A text has at most one leading keyword. *)
Lemma leading_keyword_unique (q k1 k2 : text) :
  well_behaved db → leading_keyword db q k1 → leading_keyword db q k2 → k1 = k2.
Proof.
  intros Hdb.
  assert (Htest : ∀ kw, kw ∈ keywords → ci_prefix db kw (strip db q) →
                        startswith (strip db (upper db q)) kw = true).
  { intros kw Hkw Hp. apply keyword_test; [done | | done].
    unfold keywords in Hkw.
    repeat (apply elem_of_cons in Hkw as [-> | Hkw]; [reflexivity |]).
    by apply elem_of_nil in Hkw. }
  intros [[H1 P1] | [-> N1]] [[H2 P2] | [-> N2]].
  - pose proof (Htest _ H1 P1) as T1. pose proof (Htest _ H2 P2) as T2.
    clear -H1 H2 T1 T2. unfold keywords in H1, H2.
    repeat (apply elem_of_cons in H1 as [-> | H1]);
      try (by apply elem_of_nil in H1);
      repeat (apply elem_of_cons in H2 as [-> | H2]);
      try (by apply elem_of_nil in H2);
      try reflexivity;
      by pose proof (startswith_first _ _ _ _ _ T1 T2).
  - by destruct (N2 k1 H1).
  - by destruct (N1 k2 H2).
  - done.
Qed.

(** [_get_query_type] answers the leading keyword. *)
Lemma get_query_type_leading (q : text) :
  well_behaved db → leading_keyword db q (_get_query_type db q).
Proof.
  intros Hdb. unfold _get_query_type, leading_keyword, keywords.
  pose proof (keyword_test (lit "SELECT") q Hdb eq_refl) as H1.
  pose proof (keyword_test (lit "CONSTRUCT") q Hdb eq_refl) as H2.
  pose proof (keyword_test (lit "ASK") q Hdb eq_refl) as H3.
  pose proof (keyword_test (lit "DESCRIBE") q Hdb eq_refl) as H4.
  destruct (startswith (strip db (upper db q)) (lit "SELECT")).
  { left. split; [repeat constructor | by apply H1]. }
  destruct (startswith (strip db (upper db q)) (lit "CONSTRUCT")).
  { left. split; [repeat constructor | by apply H2]. }
  destruct (startswith (strip db (upper db q)) (lit "ASK")).
  { left. split; [repeat constructor | by apply H3]. }
  destruct (startswith (strip db (upper db q)) (lit "DESCRIBE")).
  { left. split; [repeat constructor | by apply H4]. }
  right. split; [done |]. intros kw Hkw Hp.
  repeat (apply elem_of_cons in Hkw as [-> | Hkw]);
    try (by apply elem_of_nil in Hkw).
  - by apply H1 in Hp.
  - by apply H2 in Hp.
  - by apply H3 in Hp.
  - by apply H4 in Hp.
Qed.

(** The pattern the code searches for is the declaration pattern in
    upper case. *)
Lemma prefix_pattern_upper (name : text) :
  prefix_pattern db name = upper db (declaration_pattern name).
Proof. unfold prefix_pattern, declaration_pattern. by rewrite !upper_app. Qed.

Lemma pattern_test (name q : text) :
  contains (prefix_pattern db name) (upper db q) = true
  ↔ ci_occurs db (declaration_pattern name) q.
Proof. by rewrite prefix_pattern_upper, contains_spec. Qed.

(** One loop of [_add_default_prefixes] declares, in the order of the
    table, the entries whose pattern does not occur in the query. *)
Lemma declarations_for_spec (q : text) (table : list (text * text)) :
  ∃ injected,
    declarations_for db (upper db q) table = prefix_declaration <$> injected
    ∧ injected `sublist_of` table
    ∧ ∀ e, e ∈ injected ↔ e ∈ table ∧ ¬ ci_occurs db (declaration_pattern e.1) q.
Proof.
  induction table as [|[prefix uri] rest (injected & E & Hsub & Hin)].
  - exists []. split; [done |]. split; [done |]. intros e. split.
    + by intros ?%elem_of_nil.
    + by intros [?%elem_of_nil _].
  - cbn [declarations_for]. pose proof (pattern_test prefix q) as Ht.
    destruct (contains (prefix_pattern db prefix) (upper db q)); cbn [negb].
    + exists injected. split; [done |]. split; [by apply sublist_cons |].
      intros e. rewrite Hin, elem_of_cons. split; [naive_solver |].
      intros [[-> | ?] Hno]; [| done]. destruct Hno. by apply Ht.
    + exists ((prefix, uri) :: injected). split; [by rewrite E |].
      split; [by apply sublist_skip |].
      intros e. rewrite !elem_of_cons, Hin. split; [| naive_solver].
      intros [-> | ?]; [| naive_solver]. split; [by left |].
      intros Hocc%Ht. discriminate.
Qed.

(** C3 (as amended).  For every query text, [_add_default_prefixes]
    declares exactly those prefixes, among the nine defaults followed by
    the configured custom ones, whose pattern [PREFIX <NAME>:] does not
    occur in the text as a case-insensitive substring; it puts their
    declarations, in table order and one per line, before the text,
    followed by an empty line; a text that holds the pattern of every
    prefix of the table is left as it is; and [_prepare_query] prepares
    the resulting text.  Without configured prefixes the table is the nine
    defaults.  Case is ignored as [str.upper] does for the characters of
    the text, whatever they are. *)
Theorem add_default_prefixes_injects (config : Config) (q : text) :
  (∃ injected,
     injected `sublist_of` prefix_table config
     ∧ (∀ e, e ∈ injected ↔
             e ∈ prefix_table config ∧ ¬ ci_occurs db (declaration_pattern e.1) q)
     ∧ _add_default_prefixes db config q
       = match injected with
         | [] => q
         | _ => join nl (prefix_declaration <$> injected) ++ nl ++ nl ++ q
         end)
  ∧ ((∀ e, e ∈ prefix_table config → ci_occurs db (declaration_pattern e.1) q) →
     _add_default_prefixes db config q = q)
  ∧ (cfg_prefixes config = None → prefix_table config = default_prefixes)
  ∧ (∀ Prepared (prepareQuery : text → result Prepared),
       _prepare_query db config Prepared prepareQuery q
       = prepareQuery (_add_default_prefixes db config q)).
Proof.
  assert (Hmain : ∃ injected,
     injected `sublist_of` prefix_table config
     ∧ (∀ e, e ∈ injected ↔
             e ∈ prefix_table config ∧ ¬ ci_occurs db (declaration_pattern e.1) q)
     ∧ _add_default_prefixes db config q
       = match injected with
         | [] => q
         | _ => join nl (prefix_declaration <$> injected) ++ nl ++ nl ++ q
         end).
  { unfold _add_default_prefixes, prefix_table.
    destruct (declarations_for_spec q default_prefixes) as (inj1 & E1 & S1 & M1).
    destruct (cfg_prefixes config) as [custom|]; cbn [default].
    - destruct (declarations_for_spec q custom) as (inj2 & E2 & S2 & M2).
      exists (inj1 ++ inj2). split; [by apply sublist_app |]. split.
      + intros e. rewrite !elem_of_app, M1, M2. naive_solver.
      + rewrite E1, E2, <- fmap_app. by destruct (inj1 ++ inj2).
    - exists inj1. rewrite app_nil_r. split; [done |]. split; [done |].
      rewrite E1. by destruct inj1. }
  split; [exact Hmain |]. split; [| split].
  - intros Hall. destruct Hmain as (injected & _ & Hin & ->).
    destruct injected as [|e l]; [done |].
    assert (He : e ∈ e :: l) by (by left).
    apply Hin in He as [He Hno]. destruct Hno. by apply Hall.
  - intros Hnone. unfold prefix_table. rewrite Hnone. apply app_nil_r.
  - reflexivity.
Qed.

(** C5.  [validate_query] returns for every query text, whatever its
    characters are and whatever the preparer does.  When the preparation
    succeeds the result is valid, without errors, with the prefixes that
    the line scan extracts and with the one leading keyword of the
    trimmed text (SELECT, CONSTRUCT, ASK or DESCRIBE by case-insensitive
    prefix match, else UNKNOWN); when the preparation raises, the result
    is not valid and [errors] holds the message of the exception. *)
Theorem validate_query_never_raises (config : Config) (Prepared : Type)
    (prepareQuery : text → result Prepared) (q : text) :
  well_behaved db →
  ∃ r,
    validate_query db config Prepared prepareQuery q = Ok r
    ∧ (∀ p, _prepare_query db config Prepared prepareQuery q = Ok p →
         valid r = true
         ∧ errors r = []
         ∧ prefixes r = _extract_prefixes db q
         ∧ ∃ k, query_type r = Some k
                ∧ leading_keyword db q k
                ∧ ∀ k', leading_keyword db q k' → k' = k)
    ∧ (∀ e, _prepare_query db config Prepared prepareQuery q = Raise e →
         valid r = false
         ∧ query_type r = None
         ∧ prefixes r = []
         ∧ errors r = [exn_str e]).
Proof.
  intros Hdb. unfold validate_query.
  destruct (_prepare_query db config Prepared prepareQuery q) as [p|e];
    (eexists; split; [reflexivity |]); split; try discriminate.
  - intros _ _. cbn [valid errors prefixes query_type]. split_and!; try done.
    exists (_get_query_type db q). split; [done |].
    split; [by apply get_query_type_leading |].
    intros k' Hk'.
    exact (leading_keyword_unique q _ _ Hdb Hk' (get_query_type_leading q Hdb)).
  - intros e' [= <-]. done.
Qed.

End QueryFacts.

(** The sample of Python's database is well behaved. *)
Lemma python_sample_well_behaved : well_behaved python_sample.
Proof.
  intros c Hc. unfold python_sample. cbn [to_upper isspace].
  destruct (N.eqb_spec c 383) as [-> |]; [by split; [| intros _; split; repeat constructor] |].
  destruct (N.eqb_spec c 223) as [-> |]; [by split; [| intros _; split; repeat constructor] |].
  destruct (N.eqb_spec c 7831) as [-> |]; [by split; [| intros _; split; repeat constructor] |].
  split; [done |]. intros Hs. split; [done |]. constructor; [| done].
  unfold is_space. by rewrite Hc.
Qed.

(** [add_default_prefixes_injects] without configured prefixes, on the
    query that holds all nine patterns: it stays as it is. *)
Lemma add_default_prefixes_injects_witness :
  _add_default_prefixes python_sample empty_config nine_prefix_query = nine_prefix_query
  ∧ prefix_table empty_config = default_prefixes.
Proof.
  pose proof (add_default_prefixes_injects python_sample empty_config nine_prefix_query)
    as (_ & Hsame & Htable & _).
  split; [| exact (Htable eq_refl)].
  apply Hsame. intros e He. apply pattern_test.
  rewrite (Htable eq_refl) in He. unfold default_prefixes in He.
  repeat (apply elem_of_cons in He as [-> | He]; [by vm_compute |]).
  by apply elem_of_nil in He.
Defined.

(** C3, counterexample to the claim as stated.  With one custom prefix
    configured, a query that holds the patterns of all nine default
    prefixes is not passed on unchanged: the custom prefix is declared in
    front of it. *)
Lemma custom_prefix_is_injected :
  (∀ e, e ∈ default_prefixes →
        ci_occurs python_sample (declaration_pattern e.1) nine_prefix_query)
  ∧ _add_default_prefixes python_sample custom_config nine_prefix_query
    = lit "PREFIX my: <http://my.example/>" ++ nl ++ nl ++ nine_prefix_query
  ∧ _add_default_prefixes python_sample custom_config nine_prefix_query ≠ nine_prefix_query.
Proof.
  split; [| split].
  - intros e He. apply pattern_test. unfold default_prefixes in He.
    repeat (apply elem_of_cons in He as [-> | He]; [by vm_compute |]).
    by apply elem_of_nil in He.
  - by vm_compute.
  - by vm_compute.
Qed.

(** [validate_query_never_raises] on the two queries of the
    specification, with a preparer that accepts the first and rejects the
    second; on a query with a prefix declaration; and on a query written
    with the long s after a no-break space, which Python trims and
    upper-cases to [SELECT]. *)
Lemma validate_query_never_raises_witness :
  validate_query python_sample empty_config unit accepts_select
    (lit "SELECT ?s ?p ?o WHERE { ?s ?p ?o }")
  = Ok (mkValidation true (Some (lit "SELECT")) [] [])
  ∧ validate_query python_sample empty_config unit accepts_select
      (lit "INVALID SPARQL QUERY SYNTAX")
    = Ok (mkValidation false None []
            ["Expected {SelectQuery | ConstructQuery | DescribeQuery | AskQuery}"%string])
  ∧ validate_query python_sample empty_config unit accepts_select
      (lit "PREFIX foaf: <http://xmlns.com/foaf/0.1/>" ++ nl
       ++ lit "SELECT ?n WHERE { ?s foaf:name ?n }")
    = Ok (mkValidation true (Some (lit "UNKNOWN"))
            [(lit "foaf", lit "http://xmlns.com/foaf/0.1/")] [])
  ∧ validate_query python_sample empty_config unit accepts_all long_s_query
    = Ok (mkValidation true (Some (lit "SELECT")) [] []).
Proof.
  split; [| split; [| split]].
  - destruct (validate_query_never_raises python_sample empty_config unit accepts_select
                (lit "SELECT ?s ?p ?o WHERE { ?s ?p ?o }") python_sample_well_behaved)
      as (r & -> & Hok & _).
    destruct (Hok tt ltac:(by vm_compute)) as (Hv & He & Hp & k & Hk & _ & Huniq).
    destruct r as [v t ps es]. cbn [valid errors prefixes query_type] in *. subst.
    f_equal. f_equal. f_equal. symmetry. apply Huniq.
    left. split; [repeat constructor |].
    apply keyword_test; [apply python_sample_well_behaved | reflexivity | by vm_compute].
  - destruct (validate_query_never_raises python_sample empty_config unit accepts_select
                (lit "INVALID SPARQL QUERY SYNTAX") python_sample_well_behaved)
      as (r & -> & _ & Hfail).
    destruct (Hfail _ ltac:(by vm_compute)) as (Hv & Ht & Hp & He).
    destruct r as [v t ps es]. cbn [valid errors prefixes query_type] in *. by subst.
  - by vm_compute.
  - by vm_compute.
Defined.

End SPARQLProcessorFacts.

(** ** More on the graph operations *)

Module GraphExtras.
Import Rdflib RdflibFacts RDFToRDF RDFToRDFFacts Frame.
#[local] Set Warnings "-clear-no-such-hyp".

Lemma is_schema_triple_pattern (t : Triple) : is_schema_triple t ↔ schema_pattern t.
Proof.
  destruct t as [[s p] o]. unfold is_schema_triple, schema_pattern, predicate_of, object_of.
  cbn [fst snd].
  change [RDFS_subClassOf; OWL_equivalentClass; RDFS_domain; RDFS_range; RDFS_subPropertyOf]
    with ([RDFS_subClassOf; OWL_equivalentClass]
          ++ [RDFS_domain; RDFS_range; RDFS_subPropertyOf]).
  change [RDFS_Class; OWL_Class; RDF_Property; OWL_ObjectProperty;
          OWL_DatatypeProperty; OWL_AnnotationProperty]
    with ([RDFS_Class; OWL_Class]
          ++ [RDF_Property; OWL_ObjectProperty;
              OWL_DatatypeProperty; OWL_AnnotationProperty]).
  rewrite !elem_of_app.
  destruct (bool_decide_reflect (p = RDF_type)) as [Ha|Ha];
    destruct (bool_decide_reflect (o ∈ [RDFS_Class; OWL_Class])) as [Hb|Hb];
    destruct (bool_decide_reflect (p ∈ [RDFS_subClassOf; OWL_equivalentClass])) as [Hc|Hc];
    destruct (bool_decide_reflect
                (o ∈ [RDF_Property; OWL_ObjectProperty;
                      OWL_DatatypeProperty; OWL_AnnotationProperty])) as [Hd|Hd];
    destruct (bool_decide_reflect (p ∈ [RDFS_domain; RDFS_range; RDFS_subPropertyOf]))
      as [He|He];
    cbn [andb Is_true]; tauto.
Qed.

(** X1.  For a graph of the store, [extract_schema] returns a graph that
    holds exactly the triples of the input whose predicate is
    [rdfs:subClassOf], [owl:equivalentClass], [rdfs:domain], [rdfs:range]
    or [rdfs:subPropertyOf], or whose predicate is [rdf:type] with one of
    the six class and property kinds as object. *)
Theorem extract_schema_keeps config graph w :
  is_Some (graphs w !! graph) →
  ∃ sg w',
    extract_schema config graph w = (Ok sg, w')
    ∧ ∀ t, t ∈ triples_at w' sg ↔ t ∈ triples_at w graph ∧ schema_pattern t.
Proof.
  intros Hg.
  destruct (select_into_new_graph config is_schema_triple graph w Hg)
    as (sg & w' & E & _ & _ & _ & T).
  exists sg, w'. split; [exact E |].
  intros t. by rewrite T, elem_of_filter, is_schema_triple_pattern, (comm (∧)).
Qed.

Lemma schema_world_1 :
  graphs schema_world !! (1%positive : loc)
  = Some (mkGraph ({[ student_subclass ]} ∪ {[ alice_name ]}) []).
Proof. unfold schema_world. cbn [graphs]. apply lookup_singleton_eq. Qed.

Lemma schema_triples_1 :
  triples_at schema_world 1%positive = {[ student_subclass ]} ∪ {[ alice_name ]}.
Proof. unfold triples_at. by rewrite schema_world_1. Qed.

Lemma student_subclass_pattern : schema_pattern student_subclass.
Proof. left. cbn. repeat constructor. Qed.

Lemma alice_name_no_pattern : ¬ schema_pattern alice_name.
Proof.
  intros [H | [H _]]; cbn in H.
  - repeat (apply elem_of_cons in H as [H | H]; [by vm_compute in H |]).
    by apply elem_of_nil in H.
  - by vm_compute in H.
Qed.

(** [extract_schema_keeps] on the graph that holds a class axiom and a
    data triple: only the class axiom is kept. *)
Lemma extract_schema_keeps_witness :
  ∃ sg w',
    extract_schema empty_config 1%positive schema_world = (Ok sg, w')
    ∧ triples_at w' sg = {[ student_subclass ]}.
Proof.
  destruct (extract_schema_keeps empty_config 1%positive schema_world
              (ex_intro _ _ schema_world_1)) as (sg & w' & E & T).
  exists sg, w'. split; [exact E |].
  apply set_eq. intros t. rewrite T, schema_triples_1, elem_of_union, !elem_of_singleton.
  split.
  - intros [[-> | ->] Hp]; [reflexivity | by destruct (alice_name_no_pattern Hp)].
  - intros ->. split; [by left | exact student_subclass_pattern].
Defined.

(** The graph made by [filter_graph] or [extract_schema] is in the
    store when the call returns. *)
Lemma select_result_live config (f : Triple → bool) graph w fg w' :
  (let* n := new_graph in
   _add_common_namespaces config n ;;
   let* ts := graph_iter graph in
   for_each ts (λ t, if f t then graph_add n t else ret tt) ;;
   ret n) w = (Ok fg, w') →
  is_Some (graphs w' !! fg).
Proof.
  unfold bind.
  destruct (new_graph_spec w) as (g0 & w0 & -> & _ & Hg0 & _ & _ & _).
  destruct (add_common_namespaces_spec config g0 w0) as (wa & -> & Sa & _).
  unfold graph_iter at 1. cbn beta iota.
  destruct (for_each_add_spec f g0 (elements (triples_at wa graph)) wa)
    as (wb & -> & Sb & _); [by eapply is_Some_same_except |].
  unfold ret. intros [= <- <-].
  eapply is_Some_same_except; [exact Sb |]. by eapply is_Some_same_except.
Qed.

(** X2.  [extract_schema] is idempotent on triples: applied to its own
    result it returns a graph with the same triples. *)
Theorem extract_schema_idempotent config graph w :
  is_Some (graphs w !! graph) →
  ∃ sg w1 sg' w2,
    extract_schema config graph w = (Ok sg, w1)
    ∧ extract_schema config sg w1 = (Ok sg', w2)
    ∧ sg' ≠ sg
    ∧ triples_at w2 sg' = triples_at w1 sg.
Proof.
  intros Hg.
  destruct (select_into_new_graph config is_schema_triple graph w Hg)
    as (sg & w1 & E1 & Hfresh1 & _ & L1 & T1).
  assert (Hsg : is_Some (graphs w1 !! sg))
    by exact (select_result_live config is_schema_triple graph w sg w1 E1).
  destruct (select_into_new_graph config is_schema_triple sg w1 Hsg)
    as (sg' & w2 & E2 & Hfresh2 & _ & L2 & T2).
  exists sg, w1, sg', w2. split; [exact E1 |]. split; [exact E2 |]. split.
  - intros ->. by apply Hfresh2, elem_of_dom.
  - rewrite T2, T1. apply set_eq. intros t. rewrite !elem_of_filter. tauto.
Qed.

(** [extract_schema_idempotent] on [schema_world]. *)
Lemma extract_schema_idempotent_witness :
  ∃ sg w1 sg' w2,
    extract_schema empty_config 1%positive schema_world = (Ok sg, w1)
    ∧ extract_schema empty_config sg w1 = (Ok sg', w2)
    ∧ triples_at w2 sg' = triples_at w1 sg.
Proof.
  destruct (extract_schema_idempotent empty_config 1%positive schema_world
              (ex_intro _ _ schema_world_1)) as (sg & w1 & sg' & w2 & E1 & E2 & _ & T).
  exists sg, w1, sg', w2. exact (conj E1 (conj E2 T)).
Defined.

(** X3.  Filters compose as a conjunction: filtering the result of a
    first [filter_graph] keeps exactly the triples of the original graph
    that pass both sets of allow-lists, and each step can only shrink the
    triple set. *)
Theorem filter_graph_compose config graph pf1 sf1 ob1 pf2 sf2 ob2 w :
  is_Some (graphs w !! graph) →
  ∃ fg w1 fg' w2,
    filter_graph config graph pf1 sf1 ob1 w = (Ok fg, w1)
    ∧ filter_graph config fg pf2 sf2 ob2 w1 = (Ok fg', w2)
    ∧ (∀ t, t ∈ triples_at w2 fg' ↔
            t ∈ triples_at w graph
            ∧ (allowed pf1 (predicate_of t) ∧ allowed sf1 (subject_of t)
               ∧ allowed ob1 (object_of t))
            ∧ (allowed pf2 (predicate_of t) ∧ allowed sf2 (subject_of t)
               ∧ allowed ob2 (object_of t)))
    ∧ triples_at w2 fg' ⊆ triples_at w1 fg
    ∧ triples_at w1 fg ⊆ triples_at w graph
    ∧ size (triples_at w2 fg') ≤ size (triples_at w graph).
Proof.
  intros Hg.
  destruct (select_into_new_graph config (filter_include pf1 sf1 ob1) graph w Hg)
    as (fg & w1 & E1 & _ & _ & _ & T1).
  pose proof (select_result_live config _ graph w fg w1 E1) as Hfg.
  destruct (select_into_new_graph config (filter_include pf2 sf2 ob2) fg w1 Hfg)
    as (fg' & w2 & E2 & _ & _ & _ & T2).
  exists fg, w1, fg', w2. split; [exact E1 |]. split; [exact E2 |].
  assert (H21 : triples_at w2 fg' ⊆ triples_at w1 fg).
  { rewrite T2. intros t. rewrite elem_of_filter. tauto. }
  assert (H10 : triples_at w1 fg ⊆ triples_at w graph).
  { rewrite T1. intros t. rewrite elem_of_filter. tauto. }
  split; [| split; [exact H21 | split; [exact H10 |]]].
  - intros t. rewrite T2, T1, !elem_of_filter, !filter_include_allowed. tauto.
  - apply subseteq_size. by etrans.
Qed.

(** [filter_graph_compose] on graph [3] of [sample_world]: the predicate
    [foaf:name], then the subject [alice]. *)
Lemma filter_graph_compose_witness :
  ∃ fg w1 fg' w2,
    filter_graph empty_config 3%positive (Some ["http://xmlns.com/foaf/0.1/name"])
      None None sample_world = (Ok fg, w1)
    ∧ filter_graph empty_config fg None (Some ["http://example.org/alice"]) None w1
      = (Ok fg', w2)
    ∧ triples_at w2 fg' = {[ alice_name ]}.
Proof.
  destruct (filter_graph_compose empty_config 3%positive
              (Some ["http://xmlns.com/foaf/0.1/name"]) None None
              None (Some ["http://example.org/alice"]) None sample_world
              (ex_intro _ _ sample_world_3))
    as (fg & w1 & fg' & w2 & E1 & E2 & T & _).
  exists fg, w1, fg', w2. split; [exact E1 |]. split; [exact E2 |].
  apply set_eq. intros t.
  rewrite T, sample_triples_3, elem_of_union, !elem_of_singleton. cbn [allowed].
  rewrite !list_elem_of_singleton. split.
  - intros ([-> | ->] & (Hp & _) & _); [reflexivity | discriminate Hp].
  - intros ->. split; [by left |]. by split_and!.
Defined.

(** X4.  With a target supplied, [merge_graphs] returns that very graph
    object, changed in place: its triples are the ones it had together
    with those of the listed graphs, and no other graph object is
    changed. *)
Theorem merge_graphs_into_target config (gs : list loc) (target : loc) w :
  is_Some (graphs w !! target) →
  ∃ n w',
    merge_graphs config gs (Some target) w = (Ok (target, n), w')
    ∧ triples_at w' target = ⋃ (triples_at w <$> gs) ∪ triples_at w target
    ∧ dom (graphs w') = dom (graphs w)
    ∧ ∀ l, l ≠ target → graphs w' !! l = graphs w !! l.
Proof.
  intros Ht. unfold merge_graphs, bind, ret at 1.
  destruct (add_common_namespaces_spec config target w) as (w1 & -> & S1 & T1).
  destruct (merge_into_spec target gs 0 w1) as (n & w2 & -> & S2 & T2);
    [by eapply is_Some_same_except |].
  exists n, w2. split; [done |].
  pose proof (same_except_trans _ _ _ _ S1 S2) as (_ & Hdom & Hother).
  split; [| split; [exact Hdom | exact Hother]].
  rewrite T2, T1.
  assert ((triples_at w1 <$> gs) ++ [triples_at w target]
          = (triples_at w <$> gs) ++ [triples_at w target]) as Heq.
  { f_equal. apply list_fmap_ext. intros _ l _.
    destruct (decide (l = target)) as [-> | Hl]; [done |].
    unfold triples_at. destruct S1 as (_ & _ & L1). by rewrite L1. }
  assert (Hu : ∀ (l : list (gset Triple)) X, ⋃ l ∪ X = ⋃ (l ++ [X])).
  { intros l X. rewrite union_list_app_L. simpl. by rewrite (right_id_L ∅ (∪)). }
  by rewrite !Hu, Heq.
Qed.

(** [merge_graphs_into_target]: graph [1] of [sample_world] merged into
    graph [2]. *)
Lemma merge_graphs_into_target_witness :
  ∃ n w',
    merge_graphs empty_config [1%positive] (Some 2%positive) sample_world
    = (Ok (2%positive, n), w')
    ∧ triples_at w' 2%positive = {[ alice_name ]} ∪ {[ alice_knows ]}
    ∧ triples_at w' 1%positive = {[ alice_name ]}.
Proof.
  destruct (merge_graphs_into_target empty_config [1%positive] 2%positive sample_world
              (ex_intro _ _ sample_world_2)) as (n & w' & E & T & _ & L).
  exists n, w'. split; [exact E |]. split.
  - rewrite T. cbn [fmap list_fmap union_list foldr].
    rewrite sample_triples_1, sample_triples_2. by rewrite (right_id_L ∅ (∪)).
  - unfold triples_at at 1. rewrite (L 1%positive ltac:(discriminate)).
    exact sample_triples_1.
Defined.

Lemma size_list_to_set_le {A} `{Countable A} (l : list A) :
  size (list_to_set l : gset A) ≤ length l.
Proof.
  induction l as [|x l IH]; [by rewrite list_to_set_nil, size_empty |].
  rewrite list_to_set_cons, size_union_alt, size_singleton. cbn [length].
  assert (size (list_to_set l ∖ {[x]} : gset A) ≤ size (list_to_set l : gset A))
    by (apply subseteq_size; set_solver).
  lia.
Qed.

Lemma size_union_list_le (Xs : list (gset Triple)) :
  size (⋃ Xs) ≤ sum_list_with size Xs.
Proof.
  induction Xs as [|X Xs IH].
  - change (⋃ ([] : list (gset Triple))) with (∅ : gset Triple). by rewrite size_empty.
  - change (⋃ (X :: Xs)) with (X ∪ ⋃ Xs). cbn [sum_list_with]. rewrite size_union_alt.
    assert (size (⋃ Xs ∖ X) ≤ size (⋃ Xs)) by (apply subseteq_size; set_solver).
    lia.
Qed.

(** The counter of the loops of [merge_graphs], for a target that is not
    among the listed graphs. *)
Lemma merge_into_count tg (gs : list loc) total w :
  is_Some (graphs w !! tg) → tg ∉ gs →
  ∃ w', merge_into tg gs total w
        = (Ok (total + sum_list_with (λ g, size (triples_at w g)) gs), w').
Proof.
  revert total w. induction gs as [|g gs IH]; intros total w Htg Hnot.
  - exists w. cbn. by rewrite Nat.add_0_r.
  - apply not_elem_of_cons in Hnot as [Hne Hnot].
    cbn [merge_into sum_list_with]. unfold bind. unfold graph_iter at 1. cbn beta iota.
    destruct (add_all_spec tg (elements (triples_at w g)) total w Htg)
      as (w1 & -> & S1 & _).
    destruct (IH (total + length (elements (triples_at w g))) w1) as (w2 & ->);
      [by eapply is_Some_same_except | done |].
    exists w2. do 2 f_equal.
    assert (sum_list_with (λ g0, size (triples_at w1 g0)) gs
            = sum_list_with (λ g0, size (triples_at w g0)) gs) as ->.
    { clear -S1 Hnot. induction gs as [|l gs IHgs]; [done |].
      apply not_elem_of_cons in Hnot as [Hl Hnot]. cbn [sum_list_with].
      rewrite (IHgs Hnot). f_equal. unfold triples_at.
      destruct S1 as (_ & _ & L1). by rewrite L1. }
    unfold size at 2, set_size. cbn. lia.
Qed.

(** Two members of a list of sets that share an element make the union
    smaller than the sum of the sizes. *)
Lemma size_union_list_lt (Xs : list (gset Triple)) i j Xi Xj t :
  i < j → Xs !! i = Some Xi → Xs !! j = Some Xj → t ∈ Xi → t ∈ Xj →
  size (⋃ Xs) < sum_list_with size Xs.
Proof.
  revert i j. induction Xs as [|X Xs IH]; intros i j Hij Hi Hj Hti Htj; [done |].
  change (⋃ (X :: Xs)) with (X ∪ ⋃ Xs). cbn [sum_list_with]. rewrite size_union_alt.
  destruct j as [|j]; [lia |]. cbn in Hj. destruct i as [|i].
  - injection Hi as ->.
    assert (Hin : t ∈ ⋃ Xs).
    { apply elem_of_union_list. exists Xj. split; [| done].
      by eapply list_elem_of_lookup_2. }
    assert (size (⋃ Xs ∖ Xi) < size (⋃ Xs)).
    { apply subset_size. split; [set_solver |]. intros Hsub.
      specialize (Hsub t Hin). set_solver. }
    pose proof (size_union_list_le Xs). lia.
  - cbn in Hi. assert (Hlt : i < j) by lia.
    pose proof (IH i j Hlt Hi Hj Hti Htj).
    assert (size (⋃ Xs ∖ X) ≤ size (⋃ Xs)) by (apply subseteq_size; set_solver).
    lia.
Qed.

(** X5.  Called without a target, [merge_graphs] logs as "total
    triples" the sum of the lengths of the listed graphs, one per triple
    read; the number is at least the length of the merged graph, and it
    is larger as soon as two entries of the list share a triple. *)
Theorem merge_graphs_counts_reads config (gs : list loc) w :
  Forall (λ g, is_Some (graphs w !! g)) gs →
  ∃ tg n w',
    merge_graphs config gs None w = (Ok (tg, n), w')
    ∧ n = sum_list_with (λ g, size (triples_at w g)) gs
    ∧ size (triples_at w' tg) ≤ n
    ∧ ∀ i j gi gj t,
        i ≠ j → gs !! i = Some gi → gs !! j = Some gj →
        t ∈ triples_at w gi → t ∈ triples_at w gj →
        size (triples_at w' tg) < n.
Proof.
  intros Hlive.
  destruct (merge_graphs_triples config gs w) as (tg & n & w' & E & Hfresh & T).
  exists tg, n, w'. split; [exact E |].
  assert (Hn : n = sum_list_with (λ g, size (triples_at w g)) gs).
  { revert E. unfold merge_graphs, bind.
    destruct (new_graph_spec w) as (tg0 & w1 & -> & Hfresh0 & Htg & T1 & C1 & L1).
    destruct (add_common_namespaces_spec config tg0 w1) as (w2 & -> & S2 & T2).
    assert (Hnot : tg0 ∉ gs).
    { intros Hin. apply Hfresh0, elem_of_dom.
      by apply (proj1 (Forall_forall _ _) Hlive). }
    destruct (merge_into_count tg0 gs 0 w2) as (w3 & ->);
      [by eapply is_Some_same_except | done |].
    unfold ret. intros [= <- <- <-]. cbn [Nat.add].
    clear -Hnot S2 L1. induction gs as [|l gs IHgs]; [done |].
    apply not_elem_of_cons in Hnot as [Hl Hnot]. cbn [sum_list_with].
    rewrite (IHgs Hnot). f_equal. unfold triples_at.
    destruct S2 as (_ & _ & L2). by rewrite L2, L1. }
  assert (Hsum : sum_list_with (λ g, size (triples_at w g)) gs
                 = sum_list_with size (triples_at w <$> gs)).
  { clear. induction gs as [|g gs IH]; [done |]. cbn [fmap list_fmap sum_list_with].
    fold (fmap (M:=list) (triples_at w) gs). lia. }
  split; [exact Hn |]. rewrite Hn, T, Hsum. split; [apply size_union_list_le |].
  intros i j gi gj t Hij Hi Hj Hti Htj.
  assert (Hi' : (triples_at w <$> gs) !! i = Some (triples_at w gi))
    by (by rewrite list_lookup_fmap, Hi).
  assert (Hj' : (triples_at w <$> gs) !! j = Some (triples_at w gj))
    by (by rewrite list_lookup_fmap, Hj).
  destruct (decide (i < j)) as [Hlt | Hge].
  - by eapply (size_union_list_lt _ i j).
  - assert (Hlt : j < i) by lia. by eapply (size_union_list_lt _ j i).
Qed.

(** [merge_graphs_counts_reads] on the overlapping graphs [1] and [3] of
    [sample_world]: three triples are read, fewer are in the result. *)
Lemma merge_graphs_counts_reads_witness :
  ∃ tg w',
    merge_graphs empty_config [1%positive; 3%positive] None sample_world
    = (Ok (tg, 3), w')
    ∧ size (triples_at w' tg) < 3.
Proof.
  destruct (merge_graphs_counts_reads empty_config [1%positive; 3%positive] sample_world)
    as (tg & n & w' & E & Hn & _ & Hlt).
  { repeat constructor; [exact (ex_intro _ _ sample_world_1)
                        | exact (ex_intro _ _ sample_world_3)]. }
  assert (Hshared : size (triples_at w' tg) < n).
  { apply (Hlt 0 1 1%positive 3%positive alice_name); [lia | reflexivity | reflexivity | |].
    - rewrite sample_triples_1. by apply elem_of_singleton.
    - rewrite sample_triples_3. apply elem_of_union_l. by apply elem_of_singleton. }
  assert (n = 3) as ->.
  { rewrite Hn. cbn [sum_list_with]. rewrite sample_triples_1, sample_triples_3.
    rewrite size_union, !size_singleton; [reflexivity |].
    apply disjoint_singleton_l. rewrite elem_of_singleton. exact alice_triples_differ. }
  exists tg, w'. exact (conj E Hshared).
Defined.

(** Every node is of exactly one of the three kinds. *)
Lemma kinds_partition (position : Triple → Node) (ts : list Triple) :
  length (filter (λ t, is_BNode (position t)) ts)
  + length (filter (λ t, is_URIRef (position t)) ts)
  + length (filter (λ t, is_Literal (position t)) ts) = length ts.
Proof.
  induction ts as [|t ts IH]; [done |].
  rewrite !(filter_cons _ t).
  destruct (position t); simpl; unfold Triple in *; lia.
Qed.

Lemma occurrences_partition (position : Triple → Node) (T : gset Triple) :
  occurrences is_BNode position T + occurrences is_URIRef position T
  + occurrences is_Literal position T = size T.
Proof.
  unfold occurrences. rewrite <- !length_filter_elements.
  apply kinds_partition.
Qed.

Lemma size_set_map_le (f : Triple → Node) (T : gset Triple) :
  size (set_map f T : gset Node) ≤ size T.
Proof.
  unfold set_map. etrans; [apply size_list_to_set_le |].
  by rewrite length_fmap.
Qed.

(** X6.  The statistics of [validate_graph] are tied to one another:
    every triple adds one to a counter for its object and, unless its
    subject is a literal, one for its subject, so that [blank_nodes +
    literals + uris] is twice [total_triples] less the number of literal
    subjects; and no distinct count exceeds [total_triples]. *)
Theorem validate_graph_counters graph w :
  ∃ st, validate_graph graph w = (Ok st, w)
    ∧ blank_nodes st + literals st + uris st
      + occurrences is_Literal subject_of (triples_at w graph)
      = 2 * total_triples st
    ∧ blank_nodes st + literals st + uris st ≤ 2 * total_triples st
    ∧ unique_subjects st ≤ total_triples st
    ∧ unique_predicates st ≤ total_triples st
    ∧ unique_objects st ≤ total_triples st.
Proof.
  eexists. split; [reflexivity |].
  cbn [total_triples unique_subjects unique_predicates unique_objects
       blank_nodes literals uris].
  destruct (tally_fold (elements (triples_at w graph)) tally0)
    as (H1 & H2 & H3 & H4 & H5 & H6).
  cbv zeta in H1, H2, H3, H4, H5, H6.
  rewrite H1, H2, H3, H4, H5, H6. cbn [tally0 t_subjects t_predicates t_objects
    t_blank_nodes t_literals t_uris Nat.add].
  rewrite !(right_id_L ∅ (∪)), !length_filter_elements.
  pose proof (occurrences_partition subject_of (triples_at w graph)) as Ps.
  pose proof (occurrences_partition object_of (triples_at w graph)) as Po.
  unfold occurrences in *.
  pose proof (size_set_map_le subject_of (triples_at w graph)) as Us.
  pose proof (size_set_map_le predicate_of (triples_at w graph)) as Up.
  pose proof (size_set_map_le object_of (triples_at w graph)) as Uo.
  unfold set_map in Us, Up, Uo.
  split_and!; lia.
Qed.

End GraphExtras.

(** ** Transformation rules *)

Module TransformationFacts.
Import Rdflib RdflibFacts RDFToRDF RDFToRDFFacts Frame Transformations GraphExtras.
#[local] Set Warnings "-clear-no-such-hyp".

Lemma graph_remove_spec g t w :
  ∃ w', graph_remove g t w = (Ok tt, w') ∧ same_except g w w'
        ∧ triples_at w' g = triples_at w g ∖ {[t]}.
Proof.
  eexists. split; [reflexivity |]. split; [apply same_except_alter |].
  rewrite triples_at_alter, decide_True by done.
  unfold triples_at. destruct (graphs w !! g); [done | set_solver].
Qed.

Lemma for_each_remove_spec g (ts : list Triple) w :
  ∃ w', for_each ts (λ t, graph_remove g t) w = (Ok tt, w')
        ∧ same_except g w w'
        ∧ triples_at w' g = triples_at w g ∖ list_to_set ts.
Proof.
  revert w. induction ts as [|t ts IH]; intros w.
  - exists w. split; [done |]. split; [done |]. set_solver.
  - cbn [for_each]. unfold bind.
    destruct (graph_remove_spec g t w) as (w1 & -> & S1 & T1).
    destruct (IH w1) as (w2 & -> & S2 & T2).
    exists w2. split; [done |]. split; [by eapply same_except_trans |].
    rewrite T2, T1. set_solver.
Qed.

(** What the first loop of the [replace_predicate] branch collects. *)
Lemma collect_spec (old_pred new_pred : Node) (ts : list Triple) :
  collect old_pred new_pred ts
  = (filter (λ t, predicate_of t = old_pred) ts,
     with_predicate new_pred <$> filter (λ t, predicate_of t = old_pred) ts).
Proof.
  induction ts as [|[[s p] o] ts IH]; [done |].
  cbn [collect]. rewrite IH, (filter_cons _ (s, p, o)).
  unfold predicate_of at 1 3. cbn [fst snd].
  repeat case_decide; try done.
Qed.

Lemma for_each_add_all_rule g (ts : list Triple) w :
  is_Some (graphs w !! g) →
  ∃ w', for_each ts (λ t, graph_add g t) w = (Ok tt, w')
        ∧ same_except g w w'
        ∧ triples_at w' g = list_to_set ts ∪ triples_at w g.
Proof.
  revert w. induction ts as [|t ts IH]; intros w Hg.
  - exists w. split; [done |]. split; [done |]. set_solver.
  - cbn [for_each]. unfold bind.
    destruct (graph_add_spec g t w) as (w1 & -> & S1 & T1).
    destruct (IH w1) as (w2 & -> & S2 & T2); [by eapply is_Some_same_except |].
    exists w2. split; [done |]. split; [by eapply same_except_trans |].
    rewrite T2, (T1 Hg). set_solver.
Qed.

Section RuleFacts.
Variable uriref_of_none : result Node.

(** X7.  A [replace_predicate] rule with both predicates given rewrites
    the graph in place: a triple is in the graph afterwards exactly when
    it was there with another predicate, or it is a former triple of the
    old predicate with the new predicate in its place.  When the two
    predicates differ no triple keeps the old one; when they are equal the
    graph is as before; and the graph never grows. *)
Theorem replace_predicate_rewrites graph (transform : list (string * string))
    (old new : string) w :
  is_Some (graphs w !! graph) →
  dict_get "type" transform = Some "replace_predicate"%string →
  dict_get "old_predicate" transform = Some old →
  dict_get "new_predicate" transform = Some new →
  ∃ w',
    apply_rule uriref_of_none graph transform w = (Ok tt, w')
    ∧ same_except graph w w'
    ∧ (∀ t, t ∈ triples_at w' graph ↔
            (t ∈ triples_at w graph ∧ predicate_of t ≠ URIRef old)
            ∨ ∃ t0, t0 ∈ triples_at w graph ∧ predicate_of t0 = URIRef old
                    ∧ t = with_predicate (URIRef new) t0)
    ∧ (old ≠ new → ∀ t, t ∈ triples_at w' graph → predicate_of t ≠ URIRef old)
    ∧ (old = new → triples_at w' graph = triples_at w graph)
    ∧ size (triples_at w' graph) ≤ size (triples_at w graph).
Proof.
  intros Hg Hty Hold Hnew. unfold apply_rule. rewrite Hty, Hold, Hnew.
  cbn [String.eqb Ascii.eqb Bool.eqb uriref_of]. unfold bind, ret at 1 2.
  unfold graph_iter at 1. cbn beta iota. rewrite collect_spec.
  set (T := triples_at w graph).
  set (hit := filter (λ t, predicate_of t = URIRef old) (elements T)).
  destruct (for_each_remove_spec graph hit w) as (w1 & -> & S1 & T1).
  destruct (for_each_add_all_rule graph (with_predicate (URIRef new) <$> hit) w1)
    as (w2 & -> & S2 & T2); [by eapply is_Some_same_except |].
  exists w2. split; [done |]. split; [by eapply same_except_trans |].
  assert (Hmem : ∀ t, t ∈ triples_at w2 graph ↔
            (t ∈ T ∧ predicate_of t ≠ URIRef old)
            ∨ ∃ t0, t0 ∈ T ∧ predicate_of t0 = URIRef old
                    ∧ t = with_predicate (URIRef new) t0).
  { intros t. rewrite T2, T1, elem_of_union, elem_of_difference, !elem_of_list_to_set.
    rewrite list_elem_of_fmap. subst hit. split.
    - intros [(t0 & -> & [Hp Ht0%elem_of_elements]%list_elem_of_filter) | [Ht Hn]].
      + right. by exists t0.
      + left. split; [done |]. intros Hp. apply Hn, list_elem_of_filter.
        split; [done | by apply elem_of_elements].
    - intros [[Ht Hn] | (t0 & Ht0 & Hp & ->)].
      + right. split; [done |]. by intros [Hp _]%list_elem_of_filter.
      + left. exists t0. split; [done |]. apply list_elem_of_filter.
        split; [done | by apply elem_of_elements]. }
  split; [exact Hmem |]. split; [| split].
  - intros Hne t [[_ Hn] | (t0 & _ & _ & ->)]%Hmem; [done |].
    unfold with_predicate, predicate_of. cbn [fst snd]. intros [= ?]. done.
  - intros <-. apply set_eq. intros t. rewrite Hmem. split.
    + intros [[Ht _] | (t0 & Ht0 & Hp & ->)]; [done |].
      destruct t0 as [[s p] o]. unfold with_predicate, predicate_of, subject_of, object_of in *.
      cbn [fst snd] in *. by subst p.
    + intros Ht. destruct (decide (predicate_of t = URIRef old)) as [Hp | Hp].
      * right. exists t. split; [done |]. split; [done |].
        destruct t as [[s p] o]. unfold with_predicate, predicate_of, subject_of, object_of in *.
        cbn [fst snd] in *. by subst p.
      * by left.
  - rewrite T2, T1. fold T.
    assert (Hhit : (list_to_set hit : gset Triple) ⊆ T).
    { intros t. rewrite elem_of_list_to_set. subst hit.
      intros [_ Ht%elem_of_elements]%list_elem_of_filter. done. }
    assert (Hsize : size (list_to_set hit : gset Triple) = length hit).
    { apply size_list_to_set. subst hit. apply NoDup_filter, NoDup_elements. }
    rewrite size_union_alt.
    assert (size ((T ∖ list_to_set hit) ∖ list_to_set (with_predicate (URIRef new) <$> hit))
            ≤ size (T ∖ list_to_set hit)) by (apply subseteq_size; set_solver).
    pose proof (size_list_to_set_le (with_predicate (URIRef new) <$> hit)) as Himg.
    rewrite length_fmap in Himg.
    pose proof (size_difference T (list_to_set hit) Hhit) as Hdiff.
    pose proof (subseteq_size _ _ Hhit). clearbody T hit. unfold Triple in *. lia.
Qed.

(** A rule that is no [replace_predicate] rule changes no triple. *)
Lemma apply_rule_other graph (transform : list (string * string)) w :
  dict_get "type" transform ≠ Some "replace_predicate"%string →
  ∃ w',
    apply_rule uriref_of_none graph transform w = (Ok tt, w')
    ∧ same_except graph w w'
    ∧ triples_at w' graph = triples_at w graph
    ∧ (dict_get "type" transform ≠ Some "add_namespace"%string → w' = w).
Proof.
  intros Hty. unfold apply_rule.
  destruct (dict_get "type" transform) as [ty|]; [| by exists w].
  destruct (String.eqb ty "add_namespace") eqn:Ea.
  - apply String.eqb_eq in Ea as ->.
    destruct (dict_get "prefix" transform) as [prefix|]; [| by exists w].
    destruct (dict_get "uri" transform) as [uri|]; [| by exists w].
    destruct (negb (String.eqb prefix "") && negb (String.eqb uri "")); [| by exists w].
    destruct (graph_bind_spec graph prefix uri w) as (w' & E & S & T).
    exists w'. by split_and!.
  - destruct (String.eqb ty "replace_predicate") eqn:Er.
    + apply String.eqb_eq in Er as ->. done.
    + by exists w.
Qed.

Lemma for_each_add_frame g (ts : list Triple) w :
  ∃ w', for_each ts (λ t, graph_add g t) w = (Ok tt, w') ∧ same_except g w w'.
Proof.
  revert w. induction ts as [|t ts IH]; intros w.
  - by exists w.
  - cbn [for_each]. unfold bind.
    destruct (graph_add_spec g t w) as (w1 & -> & S1 & _).
    destruct (IH w1) as (w2 & -> & S2).
    exists w2. split; [done |]. by eapply same_except_trans.
Qed.

(** A rule that names what it needs is applied without an exception,
    and to the graph alone. *)
Lemma apply_rule_returns graph (transform : list (string * string)) w :
  names_predicates transform →
  ∃ w', apply_rule uriref_of_none graph transform w = (Ok tt, w')
        ∧ same_except graph w w'.
Proof.
  intros Hnames.
  destruct (decide (dict_get "type" transform = Some "replace_predicate"%string))
    as [Hty | Hty].
  - destruct (Hnames Hty) as [[old Hold] [new Hnew]].
    unfold apply_rule. rewrite Hty, Hold, Hnew.
    cbn [String.eqb Ascii.eqb Bool.eqb uriref_of]. unfold bind, ret at 1 2.
    unfold graph_iter at 1. cbn beta iota. rewrite collect_spec.
    destruct (for_each_remove_spec graph
                (filter (λ t, predicate_of t = URIRef old)
                   (elements (triples_at w graph))) w) as (w1 & -> & S1 & _).
    destruct (for_each_add_frame graph
                (with_predicate (URIRef new)
                   <$> filter (λ t, predicate_of t = URIRef old)
                         (elements (triples_at w graph))) w1) as (w2 & -> & S2).
    exists w2. split; [done |]. by eapply same_except_trans.
  - destruct (apply_rule_other graph transform w Hty) as (w' & E & S & _).
    by exists w'.
Qed.

(** X8.  Whenever [_apply_transformations] returns, it returns the graph
    it was given; it does return, with every other graph object as it
    was, when each [replace_predicate] rule has both predicate keys; and
    a list of rules without [replace_predicate] rule leaves the triples
    of every graph as they were: [add_namespace] rules only bind a
    prefix, and rules of an unknown or missing kind do nothing at all. *)
Theorem apply_transformations_keeps_triples graph
    (transformations : list (list (string * string))) w :
  (∀ g w',
     _apply_transformations uriref_of_none graph transformations w = (Ok g, w') →
     g = graph)
  ∧ (Forall names_predicates transformations →
     ∃ w',
       _apply_transformations uriref_of_none graph transformations w = (Ok graph, w')
       ∧ same_except graph w w')
  ∧ (Forall (λ transform, dict_get "type" transform ≠ Some "replace_predicate"%string)
       transformations →
     ∃ w',
       _apply_transformations uriref_of_none graph transformations w = (Ok graph, w')
       ∧ same_except graph w w'
       ∧ (∀ l, triples_at w' l = triples_at w l)
       ∧ (Forall (λ transform, dict_get "type" transform ≠ Some "add_namespace"%string)
            transformations → w' = w)).
Proof.
  split; [| split].
  - intros g w'. unfold _apply_transformations, bind, ret.
    destruct (for_each transformations (apply_rule uriref_of_none graph) w) as [[[]|e] w1];
      [| discriminate].
    by intros [= <- _].
  - intros Hall. unfold _apply_transformations, bind.
    assert (Hloop : ∃ w', for_each transformations (apply_rule uriref_of_none graph) w
                          = (Ok tt, w') ∧ same_except graph w w').
    { revert w. induction Hall as [|tr rest Htr _ IH]; intros w.
      - by exists w.
      - destruct (apply_rule_returns graph tr w Htr) as (w1 & E1 & S1).
        destruct (IH w1) as (w2 & E2 & S2).
        exists w2. cbn [for_each]. unfold bind. rewrite E1. split; [exact E2 |].
        by eapply same_except_trans. }
    destruct Hloop as (w' & -> & S). by exists w'.
  - intros Hall. unfold _apply_transformations, bind.
    assert (Hloop : ∃ w', for_each transformations (apply_rule uriref_of_none graph) w
                          = (Ok tt, w')
              ∧ same_except graph w w'
              ∧ triples_at w' graph = triples_at w graph
              ∧ (Forall (λ transform,
                           dict_get "type" transform ≠ Some "add_namespace"%string)
                   transformations → w' = w)).
    { revert w. induction Hall as [|tr rest Htr _ IH]; intros w.
      - exists w. by split_and!.
      - destruct (apply_rule_other graph tr w Htr) as (w1 & E1 & S1 & T1 & N1).
        destruct (IH w1) as (w2 & E2 & S2 & T2 & N2).
        exists w2. cbn [for_each]. unfold bind. rewrite E1. split; [exact E2 |].
        split; [by eapply same_except_trans |]. split; [congruence |].
        intros Hno. apply Forall_cons in Hno as [Hn1 Hn2].
        rewrite (N2 Hn2). by apply N1. }
    destruct Hloop as (w' & -> & S & T & N). exists w'. split; [done |].
    split; [exact S |]. split; [| exact N].
    intros l. destruct (decide (l = graph)) as [-> | Hl]; [exact T |].
    unfold triples_at. destruct S as (_ & _ & L). by rewrite L.
Qed.

End RuleFacts.

(** [replace_predicate_rewrites] on graph [1] of [sample_world]:
    [foaf:name] becomes [rdfs:label]. *)
Lemma replace_predicate_rewrites_witness :
  ∃ w',
    apply_rule (Raise (LibraryError "argument of type 'NoneType' is not iterable"))
      1%positive
      (replace_rule "http://xmlns.com/foaf/0.1/name"
                    "http://www.w3.org/2000/01/rdf-schema#label")
      sample_world = (Ok tt, w')
    ∧ (alice_name ∉ triples_at w' 1%positive)
    ∧ with_predicate (URIRef "http://www.w3.org/2000/01/rdf-schema#label") alice_name
      ∈ triples_at w' 1%positive.
Proof.
  destruct (replace_predicate_rewrites
              (Raise (LibraryError "argument of type 'NoneType' is not iterable"))
              1%positive
              (replace_rule "http://xmlns.com/foaf/0.1/name"
                            "http://www.w3.org/2000/01/rdf-schema#label")
              "http://xmlns.com/foaf/0.1/name"
              "http://www.w3.org/2000/01/rdf-schema#label"
              sample_world (ex_intro _ _ sample_world_1) eq_refl eq_refl eq_refl)
    as (w' & E & _ & Hmem & Hgone & _).
  exists w'. split; [exact E |]. split.
  - intros Hin. exact (Hgone ltac:(discriminate) _ Hin eq_refl).
  - apply Hmem. right. exists alice_name.
    rewrite sample_triples_1. split; [by apply elem_of_singleton |]. by split.
Defined.

(** [apply_transformations_keeps_triples] on a prefix binding followed by
    a rule of unknown kind. *)
Lemma apply_transformations_keeps_triples_witness :
  ∃ w',
    _apply_transformations (Raise (LibraryError "argument of type 'NoneType' is not iterable"))
      1%positive
      [ [("type", "add_namespace"); ("prefix", "ex"); ("uri", "http://example.org/")];
        [("type", "reverse_edges")] ]%string
      sample_world = (Ok 1%positive, w')
    ∧ triples_at w' 1%positive = {[ alice_name ]}.
Proof.
  destruct (apply_transformations_keeps_triples
              (Raise (LibraryError "argument of type 'NoneType' is not iterable"))
              1%positive
              [ [("type", "add_namespace"); ("prefix", "ex"); ("uri", "http://example.org/")];
                [("type", "reverse_edges")] ]%string
              sample_world)
    as (_ & _ & Hkeep).
  destruct Hkeep as (w' & E & _ & T & _).
  { repeat constructor; discriminate. }
  exists w'. split; [exact E |]. rewrite T. exact sample_triples_1.
Defined.

End TransformationFacts.

(** ** More on the format registry *)

Module FormatInfoFacts.
Import PyStr PyStrFacts FormatHandler FormatHandlerFacts FormatInfo.

Lemma dict_get_Some_in {V} (k : string) (d : list (string * V)) (v : V) :
  dict_get k d = Some v → (k, v) ∈ d.
Proof.
  induction d as [|[k' v'] d IH]; [discriminate |]. cbn [dict_get].
  destruct (String.eqb k k') eqn:E.
  - apply String.eqb_eq in E as ->. intros [= ->]. by left.
  - intros H. right. by apply IH.
Qed.

(** X9.  [detect_format] always commits to a concrete format: whatever
    the source and the content type, its answer is one of the nine named
    formats, never [DEFAULT]. *)
Theorem detect_format_never_default (source : string) (content_type : option string) :
  detect_format source content_type
  ∈ [RDF_XML; TURTLE; N_TRIPLES; JSON_LD; TRIG; N_QUADS; TRIX; RDF_THRIFT; OWL_XML].
Proof.
  set (named := [RDF_XML; TURTLE; N_TRIPLES; JSON_LD; TRIG; N_QUADS; TRIX; RDF_THRIFT;
                 OWL_XML]).
  assert (Hnamed : ∀ f, f ≠ DEFAULT → f ∈ named).
  { intros f Hf. unfold named. destruct f; try done; repeat constructor. }
  assert (Hext : ∀ k f, dict_get k EXTENSION_MAPPING = Some f → f ≠ DEFAULT).
  { intros k f H%dict_get_Some_in. unfold EXTENSION_MAPPING in H.
    repeat (apply elem_of_cons in H as [[= _ ->] | H]; [discriminate |]).
    by apply elem_of_nil in H. }
  assert (Hmime : ∀ k f, dict_get k MIME_TYPE_MAPPING = Some f → f ≠ DEFAULT).
  { intros k f H%dict_get_Some_in. unfold MIME_TYPE_MAPPING in H.
    repeat (apply elem_of_cons in H as [[= _ ->] | H]; [discriminate |]).
    by apply elem_of_nil in H. }
  assert (Hby : detect_by_extension source ≠ DEFAULT).
  { unfold detect_by_extension.
    destruct (dict_get _ EXTENSION_MAPPING) as [f|] eqn:E; [by eapply Hext | discriminate]. }
  apply Hnamed.
  unfold detect_format. destruct content_type as [ct|]; [| exact Hby].
  destruct (decide (ct = "")); [exact Hby |].
  destruct (dict_get _ MIME_TYPE_MAPPING) as [f|] eqn:E; [by eapply Hmime | exact Hby].
Qed.

(** X10.  [validate_format_config] answers [True] exactly when the name,
    in lower case, is the value of a format and, in strict mode, the
    configuration has a ['format'] key; outside strict mode the
    configuration is not looked at. *)
Theorem validate_format_config_spec {V} (format_name : string)
    (config : list (string * V)) (strict : bool) :
  validate_format_config format_name config strict = true
  ↔ is_Some (RDFFormat_of_value (lower format_name))
    ∧ (strict = true → is_Some (dict_get "format" config)).
Proof.
  unfold validate_format_config.
  destruct (RDFFormat_of_value (lower format_name)) as [f|].
  - assert (Hdesc : bool_decide (is_Some (format_get f FORMAT_DESCRIPTIONS)) = true)
      by (by destruct f).
    rewrite Hdesc. cbn [negb]. destruct strict.
    + cbn [forallb]. rewrite andb_true_r, bool_decide_eq_true. split.
      * intros H. split; [by eexists | done].
      * intros [_ H]. by apply H.
    + split; [| done]. intros _. split; [by eexists | discriminate].
  - split; [discriminate |]. intros [[? ?] _]. discriminate.
Qed.

Lemma keys_for_in (f : RDFFormat) (table : list (string * RDFFormat)) (k : string) :
  k ∈ keys_for f table → (k, f) ∈ table.
Proof.
  induction table as [|[k' v] table IH]; [by intros ?%elem_of_nil |].
  cbn [keys_for]. destruct (decide (v = f)) as [-> |].
  - intros [-> | H]%elem_of_cons; [by left | right; by apply IH].
  - intros H. right. by apply IH.
Qed.

Lemma RDFFormat_value_round_trip (f : RDFFormat) :
  RDFFormat_of_value (RDFFormat_value f) = Some f.
Proof. by destruct f. Qed.

(** X11.  What [get_format_info] lists for a name is what
    [detect_format] recognises: the reported format value names a format,
    every listed extension (after a non-empty stem) and every listed MIME
    type is detected as that format, and the reported parser name is the
    one used for it.  A name that is no format value gets the [default]
    entry, which lists no MIME type and no extension. *)
Theorem get_format_info_round_trip (format_name : string) :
  ∃ f,
    RDFFormat_of_value (info_format (get_format_info format_name)) = Some f
    ∧ info_rdflib_format (get_format_info format_name) = get_rdflib_format f
    ∧ (∀ ext dir stem,
         ext ∈ info_extensions (get_format_info format_name) →
         stem ≠ "" → contains "/" stem = false →
         detect_format (dir +:+ stem +:+ ext) None = f)
    ∧ (∀ mime source,
         mime ∈ info_mime_types (get_format_info format_name) →
         detect_format source (Some mime) = f)
    ∧ (RDFFormat_of_value (lower format_name) = None →
       f = DEFAULT
       ∧ info_mime_types (get_format_info format_name) = []
       ∧ info_extensions (get_format_info format_name) = []).
Proof.
  unfold get_format_info.
  set (f := match RDFFormat_of_value (lower format_name) with
            | Some f => f
            | None => DEFAULT
            end).
  exists f. cbn [info_format info_rdflib_format info_extensions info_mime_types].
  split; [apply RDFFormat_value_round_trip |]. split; [done |]. split; [| split].
  - intros ext dir stem Hin%keys_for_in Hstem Hslash.
    destruct (extension_shape _ _ Hin) as (e & -> & He & Hdot & Hsl & Hlow & Hget).
    unfold detect_format, detect_by_extension.
    rewrite path_suffix_stem_ext by done. by rewrite Hlow, Hget.
  - intros mime source Hin%keys_for_in.
    destruct (mime_lookup _ _ Hin) as (Hne & Hget & _).
    unfold detect_format. rewrite decide_False by done. by rewrite Hget.
  - intros Hnone. subst f. rewrite Hnone. by split_and!.
Qed.

(** [get_format_info_round_trip] for the name [Turtle]. *)
Lemma get_format_info_round_trip_witness :
  info_format (get_format_info "Turtle") = "turtle"%string
  ∧ info_extensions (get_format_info "Turtle") = [".ttl"%string]
  ∧ detect_format "data/people.ttl" None = TURTLE
  ∧ detect_format "anything" (Some "application/x-turtle") = TURTLE
  ∧ info_format (get_format_info "n3") = "default"%string.
Proof.
  destruct (get_format_info_round_trip "Turtle") as (f & Hf & _ & Hext & Hmime & _).
  assert (f = TURTLE) as -> by (vm_compute in Hf; congruence).
  split; [reflexivity |]. split; [reflexivity |]. split; [| split].
  - apply (Hext ".ttl" "data/" "people"); [| done | reflexivity].
    vm_compute. by left.
  - apply (Hmime "application/x-turtle" "anything"). vm_compute. repeat constructor.
  - reflexivity.
Defined.

End FormatInfoFacts.

(** ** More on the source loader *)

Module LoaderExtras.
Import Rdflib RdflibFacts FormatHandler RDFParser RDFParserFacts Frame FormatInfo.
#[local] Set Warnings "-clear-no-such-hyp".

Lemma extends_refl w : extends w w.
Proof. by split. Qed.

Lemma extends_trans w1 w2 w3 : extends w1 w2 → extends w2 w3 → extends w1 w3.
Proof.
  intros [D1 L1] [D2 L2]. split; [by etrans |].
  intros l Hl. rewrite L2 by (by apply D1). by apply L1.
Qed.

(** Keeping every object is enough to extend. *)
Lemma preserved_extends w w' :
  (∀ l, l ∈ dom (graphs w) → graphs w' !! l = graphs w !! l) → extends w w'.
Proof.
  intros L. split; [| exact L]. intros l Hl. apply elem_of_dom.
  rewrite (L l Hl). by apply elem_of_dom.
Qed.

Section Frames.
Variable config : Config.
Variable rdflib_parse : ParseInput → string → ParseOutcome.
Variable urlparse_scheme : string → option string.
Variable path_exists : string → bool.
Variable requests_get : string → list (string * string) → result Response.
Variable dataset_add_graph : Dataset → loc → string → result Dataset.

(** [graph.parse] changes the graph it is called on and nothing else. *)
Lemma graph_parse_frame graph input fmt w :
  parse_calls (graph_parse rdflib_parse graph input fmt w).2 = (input, fmt) :: parse_calls w
  ∧ dom (graphs (graph_parse rdflib_parse graph input fmt w).2) = dom (graphs w)
  ∧ ∀ l, l ≠ graph →
      graphs (graph_parse rdflib_parse graph input fmt w).2 !! l = graphs w !! l.
Proof.
  split; [| split; [apply graph_parse_dom |]].
  - unfold graph_parse. by destruct (rdflib_parse input fmt).
  - intros l Hl. unfold graph_parse.
    destruct (rdflib_parse input fmt); cbn [snd graphs]; by rewrite lookup_alter_ne.
Qed.

Lemma graph_parse_parsed graph input fmt ts w :
  rdflib_parse input fmt = Parsed ts →
  is_Some (graphs w !! graph) →
  (graph_parse rdflib_parse graph input fmt w).1 = Ok tt
  ∧ triples_at (graph_parse rdflib_parse graph input fmt w).2 graph
    = triples_at w graph ∪ ts.
Proof.
  intros Hp [o Ho]. unfold graph_parse. rewrite Hp. cbn [fst snd].
  split; [done |]. rewrite triples_at_alter, decide_True by done.
  rewrite Ho. unfold triples_at. by rewrite Ho.
Qed.

(** One round of the retry keeps every object and, when it succeeds,
    returns a new one. *)
Lemma attempt_frame input f w :
  extends w (attempt rdflib_parse input f w).2
  ∧ ∀ g, (attempt rdflib_parse input f w).1 = Ok g →
         (g ∉ dom (graphs w))
         ∧ is_Some (graphs (attempt rdflib_parse input f w).2 !! g).
Proof.
  unfold attempt, bind, ret.
  destruct (new_graph_spec w) as (g0 & w1 & -> & Hfresh & Hg0 & _ & _ & L1).
  destruct (graph_parse_frame g0 input (get_rdflib_format f) w1) as (_ & D & L).
  destruct (graph_parse rdflib_parse g0 input (get_rdflib_format f) w1) as [[[]|e] w2];
    cbn [fst snd] in *.
  - split.
    + apply preserved_extends. intros l Hl.
      rewrite L by (by intros ->). apply L1. by intros ->.
    + intros g [= <-]. split; [done |]. apply elem_of_dom. rewrite D. by apply elem_of_dom.
  - split; [| discriminate].
    apply preserved_extends. intros l Hl.
    rewrite L by (by intros ->). apply L1. by intros ->.
Qed.

Lemma try_each_frame input alternatives e w :
  extends w (try_each rdflib_parse input alternatives (raise e) w).2
  ∧ ∀ g, (try_each rdflib_parse input alternatives (raise e) w).1 = Ok g →
         (g ∉ dom (graphs w))
         ∧ is_Some (graphs (try_each rdflib_parse input alternatives (raise e) w).2 !! g).
Proof.
  revert w. induction alternatives as [|f rest IH]; intros w.
  - cbn. split; [apply extends_refl | discriminate].
  - rewrite try_each_round.
    destruct (attempt_frame input f w) as [Hext Hok].
    destruct (attempt rdflib_parse input f w) as [[g0|e0] w1]; cbn [fst snd] in *.
    + split; [exact Hext |]. intros g [= <-]. by apply Hok.
    + destruct (IH w1) as [Hext' Hok']. split; [by eapply extends_trans |].
      intros g Hg. destruct (Hok' g Hg) as [Hfresh Hlive]. split; [| done].
      intros Hin. apply Hfresh. by apply Hext.
Qed.

Lemma loads_into_raise_after g0 w w1 e :
  dom (graphs w1) = dom (graphs w) →
  (∀ l, l ≠ g0 → graphs w1 !! l = graphs w !! l) →
  loads_into g0 w (raise (A:=loc) e w1).
Proof.
  intros D L. unfold loads_into, raise. cbn [fst snd].
  split; [by rewrite D |]. split; [by intros l _ Hl; apply L | discriminate].
Qed.

Lemma loads_into_raise g0 w e : loads_into g0 w (raise (A:=loc) e w).
Proof. by apply loads_into_raise_after. Qed.

Lemma loads_into_retry g0 w w1 input alternatives e :
  dom (graphs w1) = dom (graphs w) →
  (∀ l, l ≠ g0 → graphs w1 !! l = graphs w !! l) →
  loads_into g0 w (try_each rdflib_parse input alternatives (raise e) w1).
Proof.
  intros D L. unfold loads_into.
  destruct (try_each_frame input alternatives e w1) as [[D1 L1] Hok].
  destruct (try_each rdflib_parse input alternatives (raise e) w1) as [r w2];
    cbn [fst snd] in *.
  split; [by rewrite <- D |]. split.
  - intros l Hl Hne. rewrite L1 by (by rewrite D). by apply L.
  - intros g ->. destruct (Hok g eq_refl) as [Hfresh Hlive]. split; [done |].
    right. by rewrite <- D.
Qed.

Lemma loads_into_parsed g0 w w1 :
  is_Some (graphs w !! g0) →
  dom (graphs w1) = dom (graphs w) →
  (∀ l, l ≠ g0 → graphs w1 !! l = graphs w !! l) →
  loads_into g0 w (Ok g0, w1).
Proof.
  intros Hg0 D L. unfold loads_into. cbn [fst snd].
  split; [by rewrite D |]. split; [by intros l _ Hl; apply L |].
  intros g [= <-]. split; [| by left]. apply elem_of_dom. rewrite D. by apply elem_of_dom.
Qed.

Lemma loads_into_first_parse g0 input fmt source_input alternatives e w :
  is_Some (graphs w !! g0) →
  loads_into g0 w
    (try_except (graph_parse rdflib_parse g0 input fmt ;; ret g0)
       (λ _, try_each rdflib_parse source_input alternatives (raise e)) w).
Proof.
  intros Hg0. unfold try_except, bind, ret.
  destruct (graph_parse_frame g0 input fmt w) as (_ & D & L).
  destruct (graph_parse rdflib_parse g0 input fmt w) as [[[]|e0] w1]; cbn [fst snd] in *.
  - by apply loads_into_parsed.
  - by apply loads_into_retry.
Qed.

Lemma parse_from_file_loads g0 file_path format_hint w :
  is_Some (graphs w !! g0) →
  loads_into g0 w (_parse_from_file rdflib_parse path_exists g0 file_path format_hint w).
Proof.
  intros Hg0. unfold _parse_from_file.
  destruct (negb (path_exists (path_str file_path))); [apply loads_into_raise |].
  by apply loads_into_first_parse.
Qed.

Lemma parse_from_stream_loads g0 read format_hint w :
  is_Some (graphs w !! g0) →
  loads_into g0 w (_parse_from_stream rdflib_parse g0 read format_hint w).
Proof.
  intros Hg0. unfold _parse_from_stream.
  destruct read as [content|e]; [| apply loads_into_raise].
  by apply loads_into_first_parse.
Qed.

Lemma parse_from_url_loads g0 url format_hint content_type w :
  is_Some (graphs w !! g0) →
  loads_into g0 w
    (_parse_from_url config rdflib_parse requests_get g0 url format_hint content_type w).
Proof.
  intros Hg0. unfold _parse_from_url.
  destruct (requests_get url (request_headers config)) as [response|[m|m|m]];
    try apply loads_into_raise.
  destruct (status_error response) as [m|]; [apply loads_into_raise |].
  unfold try_except, bind, ret.
  destruct (graph_parse_frame g0 (FromData (text response) (Some url))
              (get_rdflib_format
                 (format_of_hint format_hint
                    (detect_format url (actual_content_type content_type response))))
              w) as (_ & D & L).
  destruct (graph_parse rdflib_parse g0 _ _ w) as [[[]|e0] w1]; cbn [fst snd] in *.
  - by apply loads_into_parsed.
  - destruct e0 as [m|m|m].
    + by apply loads_into_retry.
    + by apply loads_into_raise_after.
    + by apply loads_into_retry.
Qed.

(** X12.  [parse] never touches a graph object that exists when it is
    called, whatever the source is and however the parsers behave; when it
    returns, the graph it returns is an object that did not exist
    before. *)
Theorem parse_frame source format_hint content_type w :
  extends w (parse config rdflib_parse urlparse_scheme path_exists requests_get
               source format_hint content_type w).2
  ∧ ∀ g, (parse config rdflib_parse urlparse_scheme path_exists requests_get
            source format_hint content_type w).1 = Ok g →
         (g ∉ dom (graphs w))
         ∧ is_Some (graphs (parse config rdflib_parse urlparse_scheme path_exists
                              requests_get source format_hint content_type w).2 !! g).
Proof.
  unfold parse, try_except, bind.
  destruct (new_graph_spec w) as (g0 & w1 & -> & Hfresh & Hg0 & _ & _ & L1).
  assert (Hsub : ∀ r, loads_into g0 w1 r →
            extends w (match r with
                       | (Ok a, w') => (Ok a, w')
                       | (Raise e, w') =>
                           raise (RDFParsingError ("RDF parsing failed: " +:+ exn_str e)) w'
                       end).2
            ∧ ∀ g, (match r with
                    | (Ok a, w') => (Ok a, w')
                    | (Raise e, w') =>
                        raise (RDFParsingError ("RDF parsing failed: " +:+ exn_str e)) w'
                    end).1 = Ok g →
                   (g ∉ dom (graphs w))
                   ∧ is_Some (graphs (match r with
                       | (Ok a, w') => (Ok a, w')
                       | (Raise e, w') =>
                           raise (RDFParsingError ("RDF parsing failed: " +:+ exn_str e)) w'
                       end).2 !! g)).
  { intros [r w2] (D & L & Hok). cbn [fst snd] in *.
    assert (Hext : extends w w2).
    { apply preserved_extends. intros l Hl.
      assert (l ≠ g0) by (by intros ->).
      rewrite L; [by apply L1 | | done].
      apply elem_of_dom. rewrite L1 by done. by apply elem_of_dom. }
    destruct r as [g|e]; cbn [fst snd raise]; (split; [exact Hext |]); [| discriminate].
    intros g' [= <-]. destruct (Hok g eq_refl) as [Hlive [-> | Hnew]]; [done |].
    split; [| done]. intros Hin. apply Hnew, elem_of_dom.
    rewrite L1 by (by intros ->). by apply elem_of_dom. }
  destruct source as [p | repr read].
  - destruct (_is_url urlparse_scheme p).
    + apply Hsub. by apply parse_from_url_loads.
    + apply Hsub. by apply parse_from_file_loads.
  - apply Hsub. by apply parse_from_stream_loads.
Qed.

Lemma ci_equal_lower (a b : string) :
  ci_equal a b → PyStr.lower a = PyStr.lower b.
Proof.
  revert b. induction a as [|x a IH]; intros [|y b]; cbn [ci_equal];
    try done.
  intros [Hc Hs]. unfold PyStr.lower in *. cbn [PyStr.map_chars]. by rewrite Hc, (IH b Hs).
Qed.

(** A hint that spells the value of a format, in any letter case, selects
    that format. *)
Lemma format_of_hint_named (h : string) (f fallback : RDFFormat) :
  ci_equal h (RDFFormat_value f) → format_of_hint (Some h) fallback = f.
Proof.
  intros Hci. unfold format_of_hint.
  rewrite decide_False by (intros ->; by destruct f).
  rewrite (ci_equal_lower _ _ Hci).
  replace (PyStr.lower (RDFFormat_value f)) with (RDFFormat_value f) by (by destruct f).
  by destruct f.
Qed.

(** What [parse] returns after [graph.parse], called on the graph made
    by [parse], has read [ts]. *)
Lemma parse_first_attempt_ok g w1 w input fmt ts :
  rdflib_parse input fmt = Parsed ts →
  (g ∉ dom (graphs w)) →
  is_Some (graphs w1 !! g) →
  triples_at w1 g = ∅ →
  parse_calls w1 = parse_calls w →
  (∀ l, l ≠ g → graphs w1 !! l = graphs w !! l) →
  (graph_parse rdflib_parse g input fmt w1).1 = Ok tt
  ∧ triples_at (graph_parse rdflib_parse g input fmt w1).2 g = ts
  ∧ parse_calls (graph_parse rdflib_parse g input fmt w1).2 = (input, fmt) :: parse_calls w
  ∧ ∀ l, l ∈ dom (graphs w) →
         graphs (graph_parse rdflib_parse g input fmt w1).2 !! l = graphs w !! l.
Proof.
  intros Hp Hfresh Hg T1 C1 L1.
  destruct (graph_parse_parsed g input fmt ts w1 Hp Hg) as [E T].
  destruct (graph_parse_frame g input fmt w1) as (C & _ & L).
  split; [exact E |]. split; [| split].
  - rewrite T, T1. set_solver.
  - by rewrite C, C1.
  - intros l Hl. assert (l ≠ g) by (by intros ->). rewrite L by done. by apply L1.
Qed.

(** X13.  A file that exists and parses in the format of the hint (or,
    without a usable hint, of its extension) is read by a single parser
    call: [parse] returns a graph object that did not exist before and
    holds exactly what that call read, and leaves every other graph as it
    was. *)
Theorem parse_file_first_attempt file_path format_hint content_type ts w :
  _is_url urlparse_scheme file_path = false →
  path_exists (path_str file_path) = true →
  rdflib_parse (FromLocation (path_str file_path))
    (get_rdflib_format (format_of_hint format_hint (detect_format file_path None)))
  = Parsed ts →
  ∃ g w',
    parse config rdflib_parse urlparse_scheme path_exists requests_get
      (SrcPath file_path) format_hint content_type w = (Ok g, w')
    ∧ (g ∉ dom (graphs w))
    ∧ triples_at w' g = ts
    ∧ parse_calls w'
      = (FromLocation (path_str file_path),
         get_rdflib_format (format_of_hint format_hint (detect_format file_path None)))
        :: parse_calls w
    ∧ ∀ l, l ∈ dom (graphs w) → graphs w' !! l = graphs w !! l.
Proof.
  intros Hurl Hex Hp. unfold parse, try_except, bind.
  destruct (new_graph_spec w) as (g & w1 & -> & Hfresh & Hg & T1 & C1 & L1).
  rewrite Hurl. unfold _parse_from_file. rewrite Hex. cbn [negb].
  unfold try_except, bind, ret.
  destruct (parse_first_attempt_ok g w1 w _ _ ts Hp Hfresh Hg T1 C1 L1)
    as (E & T & C & L).
  destruct (graph_parse rdflib_parse g _ _ w1) as [r w2]. cbn [fst snd] in *. subst r.
  by exists g, w2.
Qed.

(** X14.  A stream read with a hint that spells the value of a format,
    in any letter case, is parsed in that format, not in the Turtle
    default: when that parse succeeds, [parse] returns a new graph that
    holds exactly what was read, after one parser call. *)
Theorem parse_stream_with_hint repr content h f content_type ts w :
  ci_equal h (RDFFormat_value f) →
  rdflib_parse (FromData content None) (get_rdflib_format f) = Parsed ts →
  ∃ g w',
    parse config rdflib_parse urlparse_scheme path_exists requests_get
      (SrcStream repr (Ok content)) (Some h) content_type w = (Ok g, w')
    ∧ (g ∉ dom (graphs w))
    ∧ triples_at w' g = ts
    ∧ parse_calls w' = (FromData content None, get_rdflib_format f) :: parse_calls w.
Proof.
  intros Hh Hp. unfold parse, try_except, bind.
  destruct (new_graph_spec w) as (g & w1 & -> & Hfresh & Hg & T1 & C1 & L1).
  unfold _parse_from_stream. rewrite (format_of_hint_named h f TURTLE Hh).
  unfold try_except, bind, ret.
  destruct (parse_first_attempt_ok g w1 w _ _ ts Hp Hfresh Hg T1 C1 L1)
    as (E & T & C & L).
  destruct (graph_parse rdflib_parse g _ _ w1) as [r w2]. cbn [fst snd] in *. subst r.
  by exists g, w2.
Qed.

(** X15.  When the request for a URL fails, by an exception of the HTTP
    client or by an error status, [parse] raises a parsing error whose
    message names the URL and carries the client's message; no parser
    is called and no existing graph is changed. *)
Theorem parse_fetch_failure url format_hint content_type m w :
  _is_url urlparse_scheme url = true →
  requests_get url (request_headers config) = Raise (RequestException m)
  ∨ (∃ response, requests_get url (request_headers config) = Ok response
                 ∧ status_error response = Some m) →
  ∃ w',
    parse config rdflib_parse urlparse_scheme path_exists requests_get
      (SrcPath url) format_hint content_type w
    = (Raise (RDFParsingError
                ("RDF parsing failed: Failed to fetch RDF data from " +:+ url +:+ ": " +:+ m)),
       w')
    ∧ parse_calls w' = parse_calls w
    ∧ extends w w'.
Proof.
  intros Hurl Hfetch. unfold parse, try_except, bind.
  destruct (new_graph_spec w) as (g & w1 & -> & Hfresh & Hg & T1 & C1 & L1).
  rewrite Hurl. unfold _parse_from_url.
  assert (Hext : extends w w1).
  { apply preserved_extends. intros l Hl. apply L1. by intros ->. }
  destruct Hfetch as [-> | (response & -> & ->)];
    unfold fetch_failed, raise; cbn [exn_str]; by exists w1.
Qed.

End Frames.

(** [parse_file_first_attempt] on the file [people.ttl], read by a parser
    that accepts Turtle. *)
Lemma parse_file_first_attempt_witness :
  ∃ g w',
    parse empty_config only_turtle no_scheme every_file network_down
      (SrcPath "people.ttl") None None fresh_world = (Ok g, w')
    ∧ g ≠ 1%positive
    ∧ triples_at w' g = {[ RDFToRDF.alice_name ]}
    ∧ parse_calls w' = [ (FromLocation "people.ttl", "turtle"%string) ].
Proof.
  assert (Hfmt : get_rdflib_format (format_of_hint None (detect_format "people.ttl" None))
                 = "turtle"%string) by (vm_compute; reflexivity).
  assert (Hpath : path_str "people.ttl" = "people.ttl"%string) by (vm_compute; reflexivity).
  assert (Hp : only_turtle (FromLocation (path_str "people.ttl"))
                 (get_rdflib_format (format_of_hint None (detect_format "people.ttl" None)))
               = Parsed {[ RDFToRDF.alice_name ]}) by (rewrite Hfmt; reflexivity).
  destruct (parse_file_first_attempt empty_config only_turtle no_scheme every_file
              network_down "people.ttl" None None {[ RDFToRDF.alice_name ]} fresh_world
              eq_refl eq_refl Hp) as (g & w' & E & Hfresh & T & C & _).
  exists g, w'. split; [exact E |]. split; [| split; [exact T |]].
  - intros ->. apply Hfresh. unfold fresh_world. cbn [graphs].
    rewrite dom_singleton_L. by apply elem_of_singleton.
  - rewrite C, Hfmt, Hpath. reflexivity.
Defined.

(** [parse_stream_with_hint] on a stream read with the hint [TURTLE]. *)
Lemma parse_stream_with_hint_witness :
  ∃ g w',
    parse empty_config only_turtle no_scheme every_file network_down
      (SrcStream "<_io.StringIO object>" (Ok "<a> <b> <c> .")) (Some "TURTLE"%string) None
      fresh_world = (Ok g, w')
    ∧ triples_at w' g = {[ RDFToRDF.alice_name ]}
    ∧ parse_calls w' = [ (FromData "<a> <b> <c> ." None, "turtle"%string) ].
Proof.
  assert (Hh : ci_equal "TURTLE" (RDFFormat_value TURTLE))
    by (vm_compute; tauto).
  destruct (parse_stream_with_hint empty_config only_turtle no_scheme every_file
              network_down "<_io.StringIO object>" "<a> <b> <c> ." "TURTLE" TURTLE None
              {[ RDFToRDF.alice_name ]} fresh_world Hh eq_refl)
    as (g & w' & E & _ & T & C).
  exists g, w'. split; [exact E |]. split; [exact T | exact C].
Defined.

(** [parse_fetch_failure] for a server that answers [404]. *)
Lemma parse_fetch_failure_witness :
  ∃ w',
    parse empty_config never_parses Examples.http_scheme every_file
      Examples.not_found_server (SrcPath "http://example.org/data.ttl") None None
      fresh_world
    = (Raise (RDFParsingError
                "RDF parsing failed: Failed to fetch RDF data from http://example.org/data.ttl: 404 Client Error: Not Found for url: http://example.org/data.ttl"),
       w')
    ∧ parse_calls w' = [].
Proof.
  destruct (parse_fetch_failure empty_config never_parses Examples.http_scheme every_file
              Examples.not_found_server "http://example.org/data.ttl" None None
              "404 Client Error: Not Found for url: http://example.org/data.ttl"
              fresh_world eq_refl)
    as (w' & E & C & _).
  { right. eexists. split; reflexivity. }
  exists w'. split; [exact E | exact C].
Defined.

End LoaderExtras.

(** ** More on the query functions *)

Module QueryExtras.
Import Unicode UnicodeFacts SPARQLProcessor SPARQLProcessorFacts Declarations.

Lemma none_of_cons drop c s :
  none_of drop (c :: s) = true ↔ drop c = false ∧ none_of drop s = true.
Proof. cbn [none_of]. by rewrite andb_true_iff, negb_true_iff. Qed.

Lemma none_of_app drop a b : none_of drop (a ++ b) = none_of drop a && none_of drop b.
Proof.
  induction a as [|c a IH]; [done |]. cbn [app none_of]. by rewrite IH, andb_assoc.
Qed.

Lemma none_of_weaken (d d' : char → bool) s :
  (∀ c, d' c = true → d c = true) → none_of d s = true → none_of d' s = true.
Proof.
  intros Himp. induction s as [|c s IH]; [done |].
  rewrite !none_of_cons. intros [Hc Hs]. split; [| by apply IH].
  destruct (d' c) eqn:E; [| done]. by rewrite (Himp c E) in Hc.
Qed.

Lemma lstrip_by_cons_drop drop c s :
  drop c = true → lstrip_by drop (c :: s) = lstrip_by drop s.
Proof. intros H. cbn [lstrip_by]. by rewrite H. Qed.

Lemma lstrip_by_cons_keep drop c s :
  drop c = false → lstrip_by drop (c :: s) = c :: s.
Proof. intros H. cbn [lstrip_by]. by rewrite H. Qed.

Lemma rstrip_by_snoc_keep drop s c :
  drop c = false → rstrip_by drop (s ++ [c]) = s ++ [c].
Proof.
  intros Hc. unfold rstrip_by. rewrite reverse_snoc, lstrip_by_cons_keep by done.
  by rewrite reverse_cons, reverse_involutive.
Qed.

Lemma rstrip_by_snoc_drop drop s c :
  drop c = true → rstrip_by drop (s ++ [c]) = rstrip_by drop s.
Proof.
  intros Hc. unfold rstrip_by. by rewrite reverse_snoc, lstrip_by_cons_drop.
Qed.

Lemma lstrip_by_none drop s : none_of drop s = true → lstrip_by drop s = s.
Proof. destruct s as [|c s]; [done |]. rewrite none_of_cons. intros [Hc _]. by apply lstrip_by_cons_keep. Qed.

Lemma none_of_reverse drop s : none_of drop (reverse s) = none_of drop s.
Proof.
  induction s as [|c s IH]; [done |].
  rewrite reverse_cons, none_of_app, IH. cbn [none_of]. by rewrite andb_true_r, andb_comm.
Qed.

Lemma rstrip_by_none drop s : none_of drop s = true → rstrip_by drop s = s.
Proof.
  intros H. unfold rstrip_by. rewrite lstrip_by_none by (by rewrite none_of_reverse).
  apply reverse_involutive.
Qed.

(** [s.strip()] leaves a text alone that neither begins nor ends with
    white space. *)
Lemma strip_keep db c s d :
  is_space db c = false → is_space db d = false →
  strip db (c :: s ++ [d]) = c :: s ++ [d].
Proof.
  intros Hc Hd. unfold strip, strip_by. rewrite lstrip_by_cons_keep by done.
  by apply (rstrip_by_snoc_keep _ (c :: s)).
Qed.

Lemma strip_angle uri :
  none_of is_angle uri = true → strip_by is_angle (lit "<" ++ uri ++ lit ">") = uri.
Proof.
  intros Hu. unfold strip_by.
  change (lit "<" ++ uri ++ lit ">") with (60%N :: uri ++ [62%N]).
  rewrite lstrip_by_cons_drop by done. destruct uri as [|c u].
  - by rewrite app_nil_l, lstrip_by_cons_drop.
  - apply none_of_cons in Hu as [Hc Hu]. cbn [app].
    rewrite lstrip_by_cons_keep by done.
    change (c :: u ++ [62%N]) with ((c :: u) ++ [62%N]).
    rewrite rstrip_by_snoc_drop by done.
    apply rstrip_by_none. by apply none_of_cons.
Qed.

Lemma split_once_first sep a b :
  none_of (λ c, (c =? sep)%N) a = true →
  split_once sep (a ++ sep :: b) = Some (a, b).
Proof.
  induction a as [|c a IH].
  - intros _. cbn [app split_once]. by rewrite N.eqb_refl.
  - rewrite none_of_cons. intros [Hc Ha]. cbn [app split_once].
    by rewrite Hc, (IH Ha).
Qed.

Lemma split_char_first sep a b :
  none_of (λ c, (c =? sep)%N) a = true →
  split_char sep (a ++ sep :: b) = a :: split_char sep b.
Proof.
  induction a as [|c a IH].
  - intros _. cbn [app split_char]. by rewrite N.eqb_refl.
  - rewrite none_of_cons. intros [Hc Ha]. cbn [app split_char].
    by rewrite Hc, (IH Ha).
Qed.

Lemma split_char_none sep a :
  none_of (λ c, (c =? sep)%N) a = true → split_char sep a = [a].
Proof.
  induction a as [|c a IH]; [done |].
  rewrite none_of_cons. intros [Hc Ha]. cbn [split_char]. by rewrite Hc, (IH Ha).
Qed.

(** Splitting at line feeds undoes joining with line feeds. *)
Lemma split_char_join ls :
  Forall (λ l, none_of is_newline l = true) ls →
  split_char 10%N (join nl ls) = match ls with [] => [[]] | _ => ls end.
Proof.
  induction ls as [|x ls IH]; [done |]. intros H.
  apply Forall_cons in H as [Hx Hls]. destruct ls as [|y ls].
  - cbn [join]. by apply split_char_none.
  - change (join nl (x :: y :: ls)) with (x ++ 10%N :: join nl (y :: ls)).
    rewrite split_char_first by done. by rewrite (IH Hls).
Qed.

(** A word followed by white space is the first item of [s.split()]. *)
Lemma split_ws_first db a c b :
  a ≠ [] → none_of (is_space db) a = true → is_space db c = true →
  split_ws db (a ++ c :: b) = a :: split_ws db b.
Proof.
  intros Hne Ha Hc. induction a as [|x a IH]; [done |].
  apply none_of_cons in Ha as [Hx Ha]. destruct a as [|y a].
  - cbn [app split_ws]. by rewrite Hx, Hc.
  - pose proof Ha as [Hy _]%none_of_cons.
    cbn [app split_ws] in IH |- *. rewrite Hx, Hy in *. cbn [split_ws] in IH.
    by rewrite IH.
Qed.

Lemma split_ws_word db s :
  s ≠ [] → none_of (is_space db) s = true → split_ws db s = [s].
Proof.
  intros Hne Hs. induction s as [|x s IH]; [done |].
  apply none_of_cons in Hs as [Hx Hs]. destruct s as [|y s].
  - cbn [split_ws]. by rewrite Hx.
  - pose proof Hs as [Hy _]%none_of_cons.
    cbn [split_ws] in IH |- *. rewrite Hx, Hy in *. cbn [split_ws] in IH.
    by rewrite IH.
Qed.

(** *** Declaration lines *)

Lemma declaration_ends name uri :
  prefix_declaration (name, uri)
  = 80%N :: (lit "REFIX " ++ name ++ lit ": <" ++ uri) ++ [62%N].
Proof.
  unfold prefix_declaration. cbn [fst snd].
  change (lit "PREFIX ") with (80%N :: lit "REFIX "). change (lit ">") with [62%N].
  cbn [app]. by rewrite <- !app_assoc.
Qed.

Lemma declaration_colon name uri :
  prefix_declaration (name, uri)
  = (lit "PREFIX " ++ name) ++ 58%N :: (lit " <" ++ uri ++ lit ">").
Proof. unfold prefix_declaration. cbn [fst snd]. by rewrite <- app_assoc. Qed.

Lemma declaration_upper db e :
  ∃ rest, upper db (prefix_declaration e) = prefix_pattern db e.1 ++ rest.
Proof.
  exists (upper db (lit " <" ++ e.2 ++ lit ">")). unfold prefix_declaration, prefix_pattern.
  rewrite !upper_app, <- !app_assoc. reflexivity.
Qed.

Lemma declaration_one_line db name uri :
  none_of (is_space db) name = true → none_of is_newline uri = true →
  none_of is_newline (prefix_declaration (name, uri)) = true.
Proof.
  intros Hn Hu. unfold prefix_declaration. cbn [fst snd].
  rewrite !none_of_app, Hu.
  rewrite (none_of_weaken (is_space db) is_newline name); [done | | done].
  intros c Hc. unfold is_newline in Hc. by apply N.eqb_eq in Hc as ->.
Qed.

(** The first item before the colon of a declaration line: the prefix,
    and the keyword itself when the prefix is empty. *)
Lemma declaration_key db name :
  none_of (is_space db) name = true →
  last_item (split_ws db (lit "PREFIX " ++ name))
  = Some (if decide (name = []) then lit "PREFIX" else name).
Proof.
  intros Hn. change (lit "PREFIX " ++ name) with (lit "PREFIX" ++ 32%N :: name).
  rewrite split_ws_first by done. destruct (decide (name = [])) as [-> | Hne].
  - reflexivity.
  - by rewrite split_ws_word.
Qed.

(** One round of the loop of [_extract_prefixes] on a declaration line. *)
Lemma extract_line_declaration db prefixes name uri :
  none_of (is_space db) name = true → none_of is_colon name = true →
  none_of is_angle uri = true →
  extract_line db prefixes (prefix_declaration (name, uri))
  = text_dict_set (if decide (name = []) then lit "PREFIX" else name) uri prefixes.
Proof.
  intros Hs Hc Hu. unfold extract_line. cbv zeta.
  assert (Hstrip : strip db (prefix_declaration (name, uri))
                   = prefix_declaration (name, uri)).
  { rewrite declaration_ends. by apply strip_keep. }
  rewrite Hstrip.
  assert (Hstart : startswith (upper db (prefix_declaration (name, uri))) (lit "PREFIX")
                   = true).
  { apply startswith_spec. unfold prefix_declaration. rewrite upper_app.
    by exists (32%N :: upper db ((name, uri).1 ++ lit ": <" ++ (name, uri).2 ++ lit ">")). }
  rewrite Hstart.
  assert (Hsplit : split_once 58%N (prefix_declaration (name, uri))
                   = Some (lit "PREFIX " ++ name, lit " <" ++ uri ++ lit ">")).
  { rewrite declaration_colon. apply split_once_first.
    rewrite none_of_app. by rewrite andb_true_iff. }
  rewrite Hsplit, (declaration_key db name Hs).
  assert (Hafter : strip db (lit " <" ++ uri ++ lit ">") = lit "<" ++ uri ++ lit ">").
  { unfold strip, strip_by.
    change (lit " <" ++ uri ++ lit ">") with (32%N :: 60%N :: uri ++ [62%N]).
    rewrite lstrip_by_cons_drop, lstrip_by_cons_keep by done.
    by apply (rstrip_by_snoc_keep _ (60%N :: uri)). }
  by rewrite Hafter, strip_angle.
Qed.

Lemma extract_lines_declarations db table prefixes :
  Forall (well_formed db) table →
  fold_left (extract_line db) (prefix_declaration <$> table) prefixes
  = text_dict_update prefixes table.
Proof.
  intros H. revert prefixes. induction H as [|[name uri] table Hwf _ IH]; intros prefixes.
  - done.
  - destruct Hwf as (Hne & Hs & Hc & Hu & _). cbn [fst snd] in *.
    cbn [fmap list_fmap fold_left]. unfold text_dict_update in *. cbn [fold_left fst snd].
    rewrite extract_line_declaration by done. rewrite decide_False by done. apply IH.
Qed.

(** X16.  [_extract_prefixes] reads back what declaration lines say: for
    well-formed prefixes and URIs, the lines [PREFIX p: <u>] joined by
    line feeds give the dictionary built from the pairs in order, a later
    declaration of a prefix replacing an earlier one. *)
Theorem extract_prefixes_round_trip db (table : list (text * text)) :
  Forall (well_formed db) table →
  _extract_prefixes db (join nl (prefix_declaration <$> table))
  = text_dict_update [] table.
Proof.
  intros H. unfold _extract_prefixes. cbv zeta. rewrite split_char_join.
  - destruct table as [|e table]; [reflexivity |].
    cbn [fmap list_fmap]. by apply (extract_lines_declarations db (e :: table)).
  - apply Forall_fmap. eapply Forall_impl; [exact H |].
    intros [name uri] (_ & Hs & _ & _ & Hu). by apply (declaration_one_line db).
Qed.

(** [extract_prefixes_round_trip] on the nine default prefixes. *)
Lemma extract_prefixes_round_trip_witness :
  _extract_prefixes python_sample (join nl (prefix_declaration <$> default_prefixes))
  = default_prefixes.
Proof.
  assert (H : Forall (well_formed python_sample) default_prefixes).
  { unfold default_prefixes, well_formed. repeat constructor; done. }
  exact (extract_prefixes_round_trip python_sample default_prefixes H).
Defined.

(** X17.  A declaration of the empty prefix, [PREFIX : <u>], is recorded
    by [_extract_prefixes] under the key [PREFIX]: the word before the
    colon is then the keyword itself. *)
Theorem extract_prefixes_empty_prefix db (uri : text) :
  none_of is_angle uri = true → none_of is_newline uri = true →
  _extract_prefixes db (lit "PREFIX : <" ++ uri ++ lit ">") = [(lit "PREFIX", uri)].
Proof.
  intros Hu Hnl. unfold _extract_prefixes. cbv zeta.
  change (lit "PREFIX : <" ++ uri ++ lit ">") with (prefix_declaration ([], uri)).
  rewrite split_char_none by (by apply (declaration_one_line db)).
  cbn [fold_left]. by rewrite extract_line_declaration.
Qed.

Lemma extract_prefixes_empty_prefix_witness :
  _extract_prefixes python_sample (lit "PREFIX : <http://example.org/>")
  = [(lit "PREFIX", lit "http://example.org/")].
Proof.
  exact (extract_prefixes_empty_prefix python_sample (lit "http://example.org/")
           eq_refl eq_refl).
Defined.

(** *** What [_add_default_prefixes] leaves to do *)

Lemma declarations_for_app db Q t1 t2 :
  declarations_for db Q (t1 ++ t2) = declarations_for db Q t1 ++ declarations_for db Q t2.
Proof.
  induction t1 as [|[p u] t1 IH]; [done |].
  cbn [app declarations_for]. destruct (negb _); by rewrite IH.
Qed.

Lemma declarations_for_nil db Q table :
  (∀ e, e ∈ table → contains (prefix_pattern db e.1) Q = true) →
  declarations_for db Q table = [].
Proof.
  induction table as [|[p u] t IH]; [done |]. intros H. cbn [declarations_for].
  pose proof (H (p, u) (list_elem_of_here _ _)) as Hp. cbn [fst] in Hp.
  rewrite Hp. cbn [negb]. apply IH. intros e He. apply H. by right.
Qed.

Lemma declarations_for_elem db Q table e :
  e ∈ table → contains (prefix_pattern db e.1) Q = false →
  prefix_declaration e ∈ declarations_for db Q table.
Proof.
  induction table as [|[p u] t IH]; [by intros ?%elem_of_nil |].
  intros [-> | He]%elem_of_cons Hno; cbn [declarations_for].
  - cbn [fst] in Hno. rewrite Hno. left.
  - destruct (negb _); [right |]; by apply IH.
Qed.

Lemma join_elem sep l d : d ∈ l → ∃ b a, join sep l = b ++ d ++ a.
Proof.
  induction l as [|x l IH]; [by intros ?%elem_of_nil |].
  intros [-> | Hd]%elem_of_cons.
  - destruct l as [|y l].
    + exists [], []. cbn [join]. by rewrite app_nil_r.
    + by exists [], (sep ++ join sep (y :: l)).
  - destruct (IH Hd) as (b & a & E).
    destruct l as [|y l]; [by apply elem_of_nil in Hd |].
    exists (x ++ sep ++ b), a.
    change (join sep (x :: y :: l)) with (x ++ sep ++ join sep (y :: l)).
    rewrite E. by rewrite <- !app_assoc.
Qed.

(** [_add_default_prefixes] as one pass over the whole table. *)
Lemma add_default_prefixes_table db config q :
  _add_default_prefixes db config q
  = match declarations_for db (upper db q) (prefix_table config) with
    | [] => q
    | d :: ds => join nl (d :: ds) ++ nl ++ nl ++ q
    end.
Proof.
  unfold _add_default_prefixes, prefix_table. cbv zeta. rewrite declarations_for_app.
  destruct (cfg_prefixes config) as [custom|]; cbn [default].
  - by destruct (_ ++ _).
  - cbn [declarations_for]. rewrite app_nil_r. by destruct (declarations_for _ _ _).
Qed.

Lemma add_default_prefixes_covers db config q e :
  e ∈ prefix_table config →
  contains (prefix_pattern db e.1) (upper db (_add_default_prefixes db config q)) = true.
Proof.
  intros He. rewrite add_default_prefixes_table.
  destruct (contains (prefix_pattern db e.1) (upper db q)) eqn:E.
  - apply contains_spec in E as (b & a & E). apply contains_spec.
    destruct (declarations_for _ _ _) as [|d ds]; [by exists b, a |].
    exists (upper db (join nl (d :: ds) ++ nl ++ nl) ++ b), a.
    rewrite !app_assoc, upper_app, E. by rewrite <- !app_assoc.
  - pose proof (declarations_for_elem _ _ _ _ He E) as Hin.
    destruct (declarations_for _ _ _) as [|d ds]; [by apply elem_of_nil in Hin |].
    destruct (join_elem nl _ _ Hin) as (b & a & ->).
    destruct (declaration_upper db e) as (rest & Hrest).
    apply contains_spec. exists (upper db b), (rest ++ upper db (a ++ nl ++ nl ++ q)).
    rewrite <- !app_assoc, !upper_app, Hrest. by rewrite <- !app_assoc.
Qed.

(** X18.  After [_add_default_prefixes] the text holds the declaration
    pattern of every default and every configured prefix, so that a
    second application adds nothing: the function is idempotent. *)
Theorem add_default_prefixes_idempotent db (config : Config) (q : text) :
  (∀ e, e ∈ prefix_table config →
        ci_occurs db (declaration_pattern e.1) (_add_default_prefixes db config q))
  ∧ _add_default_prefixes db config (_add_default_prefixes db config q)
    = _add_default_prefixes db config q.
Proof.
  split.
  - intros e He. apply pattern_test. by apply add_default_prefixes_covers.
  - rewrite (add_default_prefixes_table db config (_add_default_prefixes db config q)).
    rewrite declarations_for_nil; [done |].
    intros e He. by apply add_default_prefixes_covers.
Qed.

(** *** Query types *)

Lemma get_query_type_after_prefix db q :
  well_behaved db →
  ci_prefix db (lit "PREFIX") (strip db q) → _get_query_type db q = lit "UNKNOWN".
Proof.
  intros Hdb Hp%(keyword_test db (lit "PREFIX") q Hdb eq_refl).
  unfold _get_query_type. cbv zeta.
  destruct (startswith _ (lit "SELECT")) eqn:E1;
    [by pose proof (startswith_first _ _ _ _ _ Hp E1) |].
  destruct (startswith _ (lit "CONSTRUCT")) eqn:E2;
    [by pose proof (startswith_first _ _ _ _ _ Hp E2) |].
  destruct (startswith _ (lit "ASK")) eqn:E3;
    [by pose proof (startswith_first _ _ _ _ _ Hp E3) |].
  destruct (startswith _ (lit "DESCRIBE")) eqn:E4;
    [by pose proof (startswith_first _ _ _ _ _ Hp E4) |].
  done.
Qed.

(** X19.  A query text that opens with a [PREFIX] declaration, in any
    letter case and after any white space, is reported by
    [validate_query] with the query type [UNKNOWN] even when it is
    accepted as valid: the type is read from the first word of the text
    as given. *)
Theorem validate_query_prefixed_is_unknown db (config : Config) (Prepared : Type)
    (prepareQuery : text → result Prepared) (q : text) (p : Prepared) :
  well_behaved db →
  ci_prefix db (lit "PREFIX") (strip db q) →
  _prepare_query db config Prepared prepareQuery q = Ok p →
  ∃ r, validate_query db config Prepared prepareQuery q = Ok r
       ∧ valid r = true
       ∧ query_type r = Some (lit "UNKNOWN").
Proof.
  intros Hdb Hp Hprep. unfold validate_query. cbv zeta. rewrite Hprep.
  eexists. split; [reflexivity |]. cbn [valid query_type]. split; [done |].
  f_equal. by apply get_query_type_after_prefix.
Qed.

Lemma validate_query_prefixed_is_unknown_witness :
  ∃ r, validate_query python_sample empty_config unit accepts_select prefixed_query = Ok r
       ∧ valid r = true
       ∧ query_type r = Some (lit "UNKNOWN").
Proof.
  apply (validate_query_prefixed_is_unknown python_sample empty_config unit accepts_select
           prefixed_query tt python_sample_well_behaved).
  - exists (lit " EX: <HTTP://EXAMPLE.ORG/> SELECT ?S WHERE { ?S EX:KNOWS ?O }").
    vm_compute. reflexivity.
  - vm_compute. reflexivity.
Defined.

End QueryExtras.

(** ** Result shaping *)

Module ResultsFacts.
Import Rdflib Results.

Lemma dict_get_set_eq {V} (k : string) (v : V) (d : list (string * V)) :
  dict_get k (dict_set k v d) = Some v.
Proof.
  induction d as [|[k' v'] d IH]; cbn [dict_set dict_get].
  - by rewrite String.eqb_refl.
  - destruct (String.eqb k k') eqn:E; cbn [dict_get].
    + by rewrite String.eqb_refl.
    + by rewrite E.
Qed.

Lemma dict_get_set_ne {V} (k k' : string) (v : V) (d : list (string * V)) :
  k ≠ k' → dict_get k (dict_set k' v d) = dict_get k d.
Proof.
  intros Hne%String.eqb_neq. induction d as [|[k2 v2] d IH]; cbn [dict_set dict_get].
  - by rewrite Hne.
  - destruct (String.eqb k' k2) eqn:E; cbn [dict_get].
    + apply String.eqb_eq in E as <-. by rewrite Hne.
    + by rewrite IH.
Qed.

(** What a row of [_results_to_list] holds for a variable. *)
Lemma fill_row_get result vs row v :
  dict_get v (fill_row result vs row)
  = if decide (v ∈ vs)
    then match dict_get v result with
         | Some value => Some (node_str value)
         | None => dict_get v row
         end
    else dict_get v row.
Proof.
  revert row. induction vs as [|var vs IH]; intros row; [done |].
  cbn [fill_row]. rewrite IH. destruct (decide (v = var)) as [-> | Hne].
  - rewrite (decide_True (P := var ∈ var :: vs)) by left.
    destruct (dict_get var result) as [value|] eqn:E.
    + rewrite dict_get_set_eq. by destruct (decide (var ∈ vs)).
    + by destruct (decide (var ∈ vs)).
  - assert (Hrow : dict_get v (match dict_get var result with
                               | Some value => dict_set var (node_str value) row
                               | None => row
                               end) = dict_get v row).
    { destruct (dict_get var result); [by apply dict_get_set_ne | done]. }
    rewrite Hrow. destruct (decide (v ∈ vs)) as [Hin | Hout].
    + rewrite decide_True by (by right). done.
    + rewrite decide_False; [done |]. by intros [-> | ?]%elem_of_cons.
Qed.

(** X20.  The table form and the list form of a result agree: the table
    is the header of the variables followed, for each solution, by the
    row that reads every variable from the dictionary of the list form,
    with the empty string for a variable that has no entry.  Every row of
    the table has as many cells as there are variables. *)
Theorem results_table_from_list (results : ResultSet) :
  _results_to_table results
  = vars results
    :: map (λ row, map (λ var, default EmptyString (dict_get var row)) (vars results))
         (_results_to_list results)
  ∧ Forall (λ row, length row = length (vars results)) (_results_to_table results).
Proof.
  unfold _results_to_table, _results_to_list. split.
  - f_equal. rewrite map_map. apply map_ext. intros result.
    unfold table_row. apply map_ext_in. intros v Hin%list_elem_of_In.
    rewrite fill_row_get, decide_True by done.
    by destruct (dict_get v result).
  - constructor; [done |]. apply Forall_forall. intros row Hin.
    apply list_elem_of_In, in_map_iff in Hin as (result & <- & _).
    unfold table_row. by rewrite length_map.
Qed.

End ResultsFacts.
